(** * ep-engine: TaskQueue, BgFetcher, HashTable, ArenaManager and engine
      front-end

    A shallow embedding of the parts of ep-engine that the specification
    speaks about, and the properties of the specification settled on it.

    - [TaskQueue]  : src/taskqueue.cc
    - [Engine]     : ep_engine.h (itemDelete, get, isDegradedMode,
                     enableTraffic, the lookups map)
    - [HashTable]  : hashtable.h (counters, bucket locks, hash chains,
                     depth statistics)
    - [BgFetcher]  : src/bgfetcher.cc
    - [ArenaManager] : arenamanager.cc

    Concurrency is made explicit: where the C++ releases a mutex or runs a
    compare-and-swap loop, what the other threads do in between is an
    argument of the model (an oracle or a schedule), and the theorems
    quantify over it. *)

From Stdlib Require Import ZArith Lia.
From stdpp Require Import base list gmap sorting.

(** std::logic_error, the one exception the code at hand throws. *)
Inductive exn := logic_error.

(** ** src/taskqueue.cc *)

Module TaskQueue.

(** task_state_t, TaskId, task_type_t and executor_state_t are declared in
    headers that are not part of the sources at hand; only the constants
    the code of taskqueue.cc names are needed. *)
Inductive task_state_t := TASK_RUNNING | TASK_SNOOZED | TASK_DEAD.

Inductive TaskId := ItemPager | OtherTaskId (n : nat).

Inductive task_type_t :=
  WRITER_TASK_IDX | READER_TASK_IDX | AUXIO_TASK_IDX | NONIO_TASK_IDX.

Inductive executor_state_t :=
  EXECUTOR_RUNNING | EXECUTOR_SLEEPING | EXECUTOR_SHUTDOWN | EXECUTOR_DEAD.

#[global] Instance task_state_eq_dec : EqDecision task_state_t.
Proof. solve_decision. Defined.

#[global] Instance TaskId_eq_dec : EqDecision TaskId.
Proof. solve_decision. Defined.

#[global] Instance task_type_eq_dec : EqDecision task_type_t.
Proof. solve_decision. Defined.

#[global] Instance executor_state_eq_dec : EqDecision executor_state_t.
Proof. solve_decision. Defined.

(** ProcessClock::time_point, in clock ticks. *)
Definition time_point := Z.

Definition time_point_max : time_point := (2 ^ 63 - 1)%Z.

(** The fields of a GlobalTask that the queue reads and writes.
    [priority] is the rank returned by getQueuePriority(): rank 0 is the
    highest priority. *)
Record GlobalTask := mkTask {
  typeId : TaskId;
  priority : nat;
  waketime : time_point;
  state : task_state_t;
}.

(** An ExTask is a shared reference to a GlobalTask.  Every GlobalTask has
    its own uid, so the reference is identified with getId(). *)
Definition ExTask := N.

Definition getId (t : ExTask) : N := t.

(** The task objects the references point to.  The queues hold references,
    so a write through one reference is seen through all the others. *)
Definition Heap := ExTask -> GlobalTask.

Definition heap_set (h : Heap) (t : ExTask) (v : GlobalTask) : Heap :=
  fun u => if decide (u = t) then v else h u.

Definition isdead (h : Heap) (t : ExTask) : bool :=
  bool_decide (state (h t) = TASK_DEAD).

(** GlobalTask::setState(tostate, fromstate): a compare-and-swap of the
    state word; true iff the state was [from]. *)
Definition setState (h : Heap) (t : ExTask) (to from : task_state_t)
  : bool * Heap :=
  if decide (state (h t) = from)
  then (true, heap_set h t (mkTask (typeId (h t)) (priority (h t))
                                   (waketime (h t)) to))
  else (false, h).

(** Modelled from the spec: FutureQueue::updateWaketime (futurequeue.h,
    missing) sets the waketime of the task, which every queue that holds
    the task sees: the spec says that wake updates waketime := now. *)
Definition updateWaketime (h : Heap) (t : ExTask) (tp : time_point) : Heap :=
  heap_set h t (mkTask (typeId (h t)) (priority (h t)) tp (state (h t))).

(** *** The priority queues *)

(** Modelled from the spec: the two priority queues and their comparators
    (std::priority_queue with CompareByPriority for the readyQueue,
    FutureQueue with CompareByDueDate for the futureQueue) are declared in
    taskqueue.h, futurequeue.h and globaltask.h, which are missing.  The
    spec says the readyQueue is priority-ordered and that among equal
    priority the order is FIFO, and that the futureQueue is ordered by
    waketime.  A queue is the list of its entries in order of arrival;
    [pq_top] is the entry no other entry comes strictly before, the oldest
    such entry on ties. *)
Fixpoint pq_top (before : ExTask -> ExTask -> bool) (q : list ExTask)
  : option ExTask :=
  match q with
  | [] => None
  | x :: q' =>
      match pq_top before q' with
      | Some y => if before y x then Some y else Some x
      | None => Some x
      end
  end.

Fixpoint remove_first (x : ExTask) (q : list ExTask) : list ExTask :=
  match q with
  | [] => []
  | y :: q' => if decide (x = y) then q' else y :: remove_first x q'
  end.

Definition pq_pop (before : ExTask -> ExTask -> bool) (q : list ExTask)
  : list ExTask :=
  match pq_top before q with
  | Some x => remove_first x q
  | None => q
  end.

Definition pq_push (q : list ExTask) (t : ExTask) : list ExTask := q ++ [t].

(** CompareByPriority *)
Definition outranks (h : Heap) (a b : ExTask) : bool :=
  priority (h a) <? priority (h b).

(** CompareByDueDate *)
Definition dueBefore (h : Heap) (a b : ExTask) : bool :=
  (waketime (h a) <? waketime (h b))%Z.

(** *** The queue and the executor thread *)

Record TaskQueue := mkTaskQueue {
  queueType : task_type_t;
  readyQueue : list ExTask;
  futureQueue : list ExTask;
  pendingQueue : list ExTask;
  sleepers : nat;
  tasks : Heap;
}.

Definition set_ready (q : TaskQueue) (r : list ExTask) : TaskQueue :=
  mkTaskQueue (queueType q) r (futureQueue q) (pendingQueue q)
              (sleepers q) (tasks q).

Definition set_future (q : TaskQueue) (f : list ExTask) : TaskQueue :=
  mkTaskQueue (queueType q) (readyQueue q) f (pendingQueue q)
              (sleepers q) (tasks q).

Definition set_pending (q : TaskQueue) (p : list ExTask) : TaskQueue :=
  mkTaskQueue (queueType q) (readyQueue q) (futureQueue q) p
              (sleepers q) (tasks q).

Definition set_sleepers (q : TaskQueue) (s : nat) : TaskQueue :=
  mkTaskQueue (queueType q) (readyQueue q) (futureQueue q) (pendingQueue q)
              s (tasks q).

Definition set_tasks (q : TaskQueue) (h : Heap) : TaskQueue :=
  mkTaskQueue (queueType q) (readyQueue q) (futureQueue q) (pendingQueue q)
              (sleepers q) h.

Record ExecutorThread := mkThread {
  taskType : task_type_t;
  thrState : executor_state_t;
  curTime : time_point;
  thrWaketime : time_point;
  currentTask : option ExTask;
}.

Definition updateCurrentTime (now : time_point) (t : ExecutorThread)
  : ExecutorThread :=
  mkThread (taskType t) (thrState t) now (thrWaketime t) (currentTask t).

Definition setWaketime (tp : time_point) (t : ExecutorThread)
  : ExecutorThread :=
  mkThread (taskType t) (thrState t) (curTime t) tp (currentTask t).

Definition setCurrentTask (x : ExTask) (t : ExecutorThread)
  : ExecutorThread :=
  mkThread (taskType t) (thrState t) (curTime t) (thrWaketime t) (Some x).

Definition setThrState (s : executor_state_t) (t : ExecutorThread)
  : ExecutorThread :=
  mkThread (taskType t) s (curTime t) (thrWaketime t) (currentTask t).

(** *** Condition variable *)

(** What a critical section does to the queue's condition variable. *)
Inductive CondEvent := notify_one | notify_all.

(** The number of waiting threads a sequence of notifications wakes when
    [waiting] threads wait. *)
Fixpoint threads_notified (waiting : nat) (evs : list CondEvent) : nat :=
  match evs with
  | [] => 0
  | notify_one :: r =>
      match waiting with
      | 0 => threads_notified 0 r
      | S w => S (threads_notified w r)
      end
  | notify_all :: r => waiting + threads_notified 0 r
  end.

(** _doWake_UNLOCKED(numToWake): the notifications sent and the new value
    of the reference argument.  [numToWake -= sleepers] runs only when
    [sleepers <= numToWake]. *)
Definition _doWake_UNLOCKED (q : TaskQueue) (numToWake : nat)
  : list CondEvent * nat :=
  if (0 <? sleepers q) && (0 <? numToWake) then
    if numToWake <? sleepers q
    then (replicate numToWake notify_one, 0)
    else ([notify_all], numToWake - sleepers q)
  else ([], numToWake).

(** doWake takes the mutex and calls _doWake_UNLOCKED. *)
Definition doWake (q : TaskQueue) (numToWake : nat) : list CondEvent * nat :=
  _doWake_UNLOCKED q numToWake.

(** _popReadyTask.  The C++ calls it only on a non-empty readyQueue; top()
    of an empty priority_queue has no defined result, which is [None]. *)
Definition _popReadyTask (q : TaskQueue) : option (ExTask * TaskQueue) :=
  match pq_top (outranks (tasks q)) (readyQueue q) with
  | Some t => Some (t, set_ready q (pq_pop (outranks (tasks q)) (readyQueue q)))
  | None => None
  end.

(** *** _doSleep *)

(** _doSleep waits on the condition variable, which releases the mutex:
    what the clock reads, what the pool answers, what the other threads do
    to the queue during the wait and the thread state found afterwards are
    not decided by this thread.  They are the oracle of the call. *)
Record SleepOracle := mkSleepOracle {
  clock_before : time_point;            (* first updateCurrentTime() *)
  trySleep : bool;                      (* manager->trySleep(queueType) *)
  while_asleep : TaskQueue -> TaskQueue; (* critical sections of others *)
  state_on_wake : executor_state_t;     (* t.state when the wait is over *)
  clock_after : time_point;             (* second updateCurrentTime() *)
}.

Definition _doSleep (o : SleepOracle) (t : ExecutorThread) (q : TaskQueue)
  : bool * ExecutorThread * TaskQueue :=
  let t := updateCurrentTime (clock_before o) t in
  if (curTime t <? thrWaketime t)%Z && trySleep o then
    if decide (thrState t = EXECUTOR_RUNNING) then
      (* sleepers++, wait_for(...), sleepers-- *)
      let q := set_sleepers q (S (sleepers q)) in
      let q := while_asleep o q in
      let q := set_sleepers q (sleepers q - 1) in
      if decide (state_on_wake o = EXECUTOR_SLEEPING) then
        let t := setThrState EXECUTOR_RUNNING t in
        let t := updateCurrentTime (clock_after o) t in
        (true, setWaketime time_point_max t, q)
      else (false, setThrState (state_on_wake o) t, q)
    else (false, t, q)
  else (true, setWaketime time_point_max t, q).

(** *** _moveReadyTasks *)

(** The while loop of _moveReadyTasks.  Every turn pops one entry of the
    futureQueue, so a fuel of its length is never used up
    (see [moveReady_loop_spec]). *)
Fixpoint moveReady_loop (fuel : nat) (h : Heap) (tv : time_point)
    (future ready : list ExTask) (numReady : nat)
  : list ExTask * list ExTask * nat :=
  match fuel with
  | 0 => (future, ready, numReady)
  | S fuel' =>
      match pq_top (dueBefore h) future with
      | None => (future, ready, numReady)
      | Some tid =>
          if (waketime (h tid) <=? tv)%Z
          then moveReady_loop fuel' h tv (pq_pop (dueBefore h) future)
                              (pq_push ready tid) (S numReady)
          else (future, ready, numReady)
      end
  end.

Definition _moveReadyTasks (tv : time_point) (q : TaskQueue)
  : nat * TaskQueue :=
  match readyQueue q with
  | _ :: _ => (0, q)
  | [] =>
      let '(future, ready, numReady) :=
        moveReady_loop (length (futureQueue q)) (tasks q) tv
                       (futureQueue q) (readyQueue q) 0 in
      (match numReady with 0 => 0 | S _ => numReady - 1 end,
       set_ready (set_future q future) ready)
  end.

Definition _checkPendingQueue (q : TaskQueue) : TaskQueue :=
  match pendingQueue q with
  | runnableTask :: rest =>
      set_pending (set_ready q (pq_push (readyQueue q) runnableTask)) rest
  | [] => q
  end.

(** *** _fetchNextTask *)

Record FetchResult := mkFetchResult {
  fetched : bool;
  thread : ExecutorThread;
  queue : TaskQueue;
  signalled : list CondEvent;
}.

Definition ready_top_isdead (q : TaskQueue) : bool :=
  match pq_top (outranks (tasks q)) (readyQueue q) with
  | Some x => isdead (tasks q) x
  | None => false
  end.

Definition is_nil (l : list ExTask) : bool :=
  match l with [] => true | _ => false end.

(** The choice of the task, lines 132-145: the dead top first, else one
    promotion and the top, else nothing.  _popReadyTask is called on a
    readyQueue that is not empty (see [pickTask_cases]); its [None]
    branches are never taken. *)
Definition pickTask (t : ExecutorThread) (q : TaskQueue) (numToWake : nat)
  : bool * ExecutorThread * TaskQueue * nat :=
  if negb (is_nil (readyQueue q)) && ready_top_isdead q then
    match _popReadyTask q with
    | Some (x, q') => (true, setCurrentTask x t, q', numToWake)
    | None => (false, t, q, numToWake)
    end
  else if negb (is_nil (readyQueue q)) || negb (is_nil (pendingQueue q)) then
    let q := _checkPendingQueue q in
    match _popReadyTask q with
    | Some (tid, q') => (true, setCurrentTask tid t, q', numToWake)
    | None => (false, t, q, numToWake)
    end
  else (false, t, q, match numToWake with 0 => 0 | S _ => numToWake - 1 end).

(** _fetchNextTask once the sleep step is over (line 124 to the end). *)
Definition fetchAwake (t : ExecutorThread) (q : TaskQueue) : FetchResult :=
  let '(numToWake, q) := _moveReadyTasks (curTime t) q in
  let t :=
    match pq_top (dueBefore (tasks q)) (futureQueue q) with
    | Some f =>
        if bool_decide (taskType t = queueType q)
           && (waketime (tasks q f) <? thrWaketime t)%Z
        then setWaketime (waketime (tasks q f)) t
        else t
    | None => t
    end in
  let '(ret, t, q, numToWake) := pickTask t q numToWake in
  mkFetchResult ret t q (fst (_doWake_UNLOCKED q numToWake)).

(** The sleep step, line 120: the boolean is false when the thread is
    shutting down. *)
Definition sleepStep (o : SleepOracle) (t : ExecutorThread) (toSleep : bool)
    (q : TaskQueue) : bool * ExecutorThread * TaskQueue :=
  if toSleep then _doSleep o t q else (true, t, q).

Definition _fetchNextTask (o : SleepOracle) (t : ExecutorThread)
    (toSleep : bool) (q : TaskQueue) : FetchResult :=
  let '(awake, t', q') := sleepStep o t toSleep q in
  if awake then fetchAwake t' q' else mkFetchResult false t' q' [].

Definition fetchNextTask := _fetchNextTask.

(** *** _reschedule, _schedule, _wake *)

Definition _reschedule (task : ExTask) (q : TaskQueue)
  : option time_point * TaskQueue :=
  let q := set_future q (pq_push (futureQueue q) task) in
  (option_map (fun x => waketime (tasks q x))
              (pq_top (dueBefore (tasks q)) (futureQueue q)), q).

(** What a call leaves behind: the exception if one was thrown, the queue,
    the notifications on this queue's condition variable and those on the
    sleep queue's when that is another queue. *)
Record CallResult := mkCallResult {
  thrown : option exn;
  after : TaskQueue;
  signalled_here : list CondEvent;
  signalled_sleepQ : list CondEvent;
}.

(** [sleepQ] is manager->getSleepQ(queueType): [None] when it is this
    queue, the other queue otherwise. *)
Definition _schedule (sleepQ : option TaskQueue) (task : ExTask)
    (q : TaskQueue) : CallResult :=
  let numToWake := 1 in
  let '(changed_state, h) := setState (tasks q) task TASK_RUNNING TASK_DEAD in
  let q := set_tasks q h in
  if changed_state && negb (bool_decide (typeId (h task) = ItemPager)) then
    mkCallResult (Some logic_error) q [] []
  else
    let q := set_future q (pq_push (futureQueue q) task) in
    let '(evs, numToWake) := _doWake_UNLOCKED q numToWake in
    match sleepQ with
    | Some other => mkCallResult None q evs (fst (doWake other numToWake))
    | None => mkCallResult None q evs []
    end.

Definition schedule := _schedule.

(** The first loop of _wake: the entries erased from the pendingQueue (in
    order, they go to notReady) and the entries left. *)
Fixpoint wake_scan (h : Heap) (task : ExTask) (pending : list ExTask)
  : list ExTask * list ExTask :=
  match pending with
  | [] => ([], [])
  | tid :: rest =>
      let '(notReady, kept) := wake_scan h task rest in
      if bool_decide (getId tid = getId task) || isdead h tid
      then (tid :: notReady, kept)
      else (notReady, tid :: kept)
  end.

(** The second loop of _wake. *)
Fixpoint wake_requeue (h : Heap) (now : time_point) (notReady : list ExTask)
    (future : list ExTask) (readyCount : nat) : list ExTask * nat :=
  match notReady with
  | [] => (future, readyCount)
  | tid :: rest =>
      let readyCount :=
        if (waketime (h tid) <=? now)%Z || isdead h tid
        then S readyCount else readyCount in
      wake_requeue h now rest (pq_push future tid) readyCount
  end.

(** _wake; [now] is what ProcessClock::now() returns at its first line. *)
Definition _wake (now : time_point) (sleepQ : option TaskQueue)
    (task : ExTask) (q : TaskQueue) : CallResult :=
  let readyCount := 1 in
  let '(notReady, kept) := wake_scan (tasks q) task (pendingQueue q) in
  let q := set_pending q kept in
  let q := set_tasks q (updateWaketime (tasks q) task now) in
  let q := set_tasks q (snd (setState (tasks q) task TASK_RUNNING
                                      TASK_SNOOZED)) in
  let '(future, readyCount) :=
    wake_requeue (tasks q) now notReady (futureQueue q) readyCount in
  let q := set_future q future in
  let '(evs, readyCount) := _doWake_UNLOCKED q readyCount in
  match sleepQ with
  | Some other => mkCallResult None q evs (fst (doWake other readyCount))
  | None => mkCallResult None q evs []
  end.

Definition wake := _wake.

(** *** Vocabulary of the properties *)

(** An entry is due at [tv] when its waketime is not after [tv]. *)
Definition due (h : Heap) (tv : time_point) (x : ExTask) : Prop :=
  (waketime (h x) <= tv)%Z.

#[global] Instance due_dec h tv x : Decision (due h tv x).
Proof. unfold due. apply _. Defined.

(** The queue as the choice of the task finds it: after the bulk move made
    with the time of the thread that left the sleep step. *)
Definition afterMove (t1 : ExecutorThread) (q1 : TaskQueue) : TaskQueue :=
  snd (_moveReadyTasks (curTime t1) q1).

(** The readyQueue a fetch pops from: the readyQueue as the bulk move
    leaves it, once the sleep step is over. *)
Definition readyAtPop (o : SleepOracle) (t : ExecutorThread) (toSleep : bool)
    (q : TaskQueue) : list ExTask :=
  let '(_, t1, q1) := sleepStep o t toSleep q in
  readyQueue (afterMove t1 q1).

(** The entries the first loop of _wake takes out of the pendingQueue: the
    woken task and the dead tasks. *)
Definition wakeSelects (h : Heap) (task : ExTask) (tid : ExTask) : Prop :=
  getId tid = getId task \/ state (h tid) = TASK_DEAD.

#[global] Instance wakeSelects_dec h task tid :
  Decision (wakeSelects h task tid).
Proof. unfold wakeSelects. apply _. Defined.

(** The entries the second loop of _wake counts as ready. *)
Definition wakeCounts (h : Heap) (now : time_point) (tid : ExTask) : Prop :=
  due h now tid \/ state (h tid) = TASK_DEAD.

#[global] Instance wakeCounts_dec h now tid : Decision (wakeCounts h now tid).
Proof. unfold wakeCounts. apply _. Defined.

(** *** Runs of the queue *)

(** The critical sections of a TaskQueue run one after the other, under
    its mutex.  A run is a sequence of calls made while a clock advances.
    The part of fetchNextTask that precedes the wait touches the sleepers
    only, so a call of fetchNextTask stands in a run where its second
    critical section is, and nothing happens to the queue while it
    sleeps. *)
Record World := mkWorld {
  now : time_point;
  tq : TaskQueue;
}.

Inductive Call :=
| Tick (d : Z)
| Snooze (task : ExTask) (tp : time_point)
| Schedule (sleepQ : option TaskQueue) (task : ExTask)
| Reschedule (task : ExTask)
| Wake (sleepQ : option TaskQueue) (task : ExTask)
| Fetch (cb ca : time_point) (ts : bool) (sow : executor_state_t)
        (t : ExecutorThread) (toSleep : bool).

Definition atomicOracle (cb ca : time_point) (ts : bool)
    (sow : executor_state_t) : SleepOracle :=
  mkSleepOracle cb ts (fun q => q) sow ca.

(** No thread has read a time that the clock has not reached. *)
Definition clockOk (w : World) (cb ca : time_point) (t : ExecutorThread)
  : bool :=
  (curTime t <=? now w)%Z && (cb <=? now w)%Z && (ca <=? now w)%Z.

(** [Tick] lets time pass.  [Snooze] is the owner of a task setting the
    waketime of a task that is not in the readyQueue (a running task
    snoozes itself before it is rescheduled).  The other calls are the
    entry points of the queue; wake reads the clock. *)
Definition perform (c : Call) (w : World) : option World :=
  match c with
  | Tick d =>
      if (0 <=? d)%Z then Some (mkWorld (now w + d)%Z (tq w)) else None
  | Snooze task tp =>
      if decide (task ∈ readyQueue (tq w)) then None
      else Some (mkWorld (now w)
                   (set_tasks (tq w) (updateWaketime (tasks (tq w)) task tp)))
  | Schedule sleepQ task =>
      Some (mkWorld (now w) (after (schedule sleepQ task (tq w))))
  | Reschedule task =>
      Some (mkWorld (now w) (snd (_reschedule task (tq w))))
  | Wake sleepQ task =>
      Some (mkWorld (now w) (after (wake (now w) sleepQ task (tq w))))
  | Fetch cb ca ts sow t toSleep =>
      if clockOk w cb ca t
      then Some (mkWorld (now w)
                   (queue (fetchNextTask (atomicOracle cb ca ts sow) t toSleep
                             (tq w))))
      else None
  end.

Fixpoint runCalls (cs : list Call) (w : World) : option World :=
  match cs with
  | [] => Some w
  | c :: cs' =>
      match perform c w with
      | Some w' => runCalls cs' w'
      | None => None
      end
  end.

Definition initial (w : World) : Prop :=
  readyQueue (tq w) = [] /\ futureQueue (tq w) = [] /\ pendingQueue (tq w) = [].

Inductive reachable : World -> Prop :=
| reachable_initial w :
    initial w -> reachable w
| reachable_perform w c w' :
    reachable w -> perform c w = Some w' -> reachable w'.

(** Nothing is pending and every ready entry is due. *)
Definition readyDue (w : World) : Prop :=
  pendingQueue (tq w) = [] /\
  forall x, x ∈ readyQueue (tq w) -> due (tasks (tq w)) (now w) x.

(** All the entries of the three queues. *)
Definition queuedTasks (q : TaskQueue) : list ExTask :=
  readyQueue q ++ futureQueue q ++ pendingQueue q.

(** The task a fetch hands to the thread, if any. *)
Definition taken (r : FetchResult) : list ExTask :=
  if fetched r then option_list (currentTask (thread r)) else [].

(** The sleepers of the sleep queue when it is another queue. *)
Definition sleepersOf (sleepQ : option TaskQueue) : nat :=
  match sleepQ with
  | Some other => sleepers other
  | None => 0
  end.

(** The threads a call wakes, on this queue and on the sleep queue. *)
Definition wokenBy (sleepQ : option TaskQueue) (q : TaskQueue)
    (r : CallResult) : nat :=
  threads_notified (sleepers q) (signalled_here r)
  + threads_notified (sleepersOf sleepQ) (signalled_sleepQ r).

(** *** A small pool for the examples *)

Definition heap_of (l : list (ExTask * GlobalTask)) : Heap :=
  fold_right (fun '(t, v) h => heap_set h t v)
             (fun _ => mkTask (OtherTaskId 0) 0 0%Z TASK_RUNNING) l.

Definition emptyQueue (ty : task_type_t) (h : Heap) : TaskQueue :=
  mkTaskQueue ty [] [] [] 0 h.

Definition aThread (ty : task_type_t) (now : time_point) : ExecutorThread :=
  mkThread ty EXECUTOR_RUNNING now time_point_max None.

Definition noSleep : SleepOracle :=
  mkSleepOracle 0%Z false (fun q => q) EXECUTOR_SLEEPING 0%Z.

(** Task 1 is a dead ItemPager, task 2 a dead flusher-like task. *)
Definition heap_dead : Heap :=
  heap_of [(1%N, mkTask ItemPager 3 0%Z TASK_DEAD);
           (2%N, mkTask (OtherTaskId 7) 3 0%Z TASK_DEAD)].

(** Tasks 1 to 4 are alive; 1 and 2 have rank 5, 3 has rank 0 (the highest
    priority), 4 has rank 5 and is due at 100 only; task 9 is dead. *)
Definition heap_live : Heap :=
  heap_of [(1%N, mkTask (OtherTaskId 1) 5 0%Z TASK_RUNNING);
           (2%N, mkTask (OtherTaskId 2) 5 0%Z TASK_RUNNING);
           (3%N, mkTask (OtherTaskId 3) 0 5%Z TASK_RUNNING);
           (4%N, mkTask (OtherTaskId 4) 5 100%Z TASK_SNOOZED);
           (9%N, mkTask (OtherTaskId 9) 7 0%Z TASK_DEAD)].

(** One live task ready, nothing pending, nothing in the future. *)
Definition q_one_ready : TaskQueue :=
  mkTaskQueue NONIO_TASK_IDX [1%N] [] [] 0 heap_live.

(** Task 1 ready, task 2 pending, task 4 in the future. *)
Definition q_ready_pending : TaskQueue :=
  mkTaskQueue NONIO_TASK_IDX [1%N] [4%N] [2%N] 2 heap_live.

(** Nothing ready; tasks 1, 4, 3 and 2 in the futureQueue, five sleepers. *)
Definition q_future : TaskQueue :=
  mkTaskQueue NONIO_TASK_IDX [] [1%N; 4%N; 3%N; 2%N] [] 5 heap_live.

(** Task 1 (rank 5) ready, task 3 (rank 0, due at 5) in the futureQueue. *)
Definition q_busy : TaskQueue :=
  mkTaskQueue NONIO_TASK_IDX [1%N] [3%N] [] 5 heap_live.

(** Task 4 (snoozed until 100) in the futureQueue; tasks 1 and 2 and the
    dead task 9 pending; one sleeper. *)
Definition q_asleep : TaskQueue :=
  mkTaskQueue NONIO_TASK_IDX [] [4%N] [1%N; 2%N; 9%N] 1 heap_live.

(** A run: at time 10, tasks 1 and 3 are scheduled on an empty queue. *)
Definition w_start : World :=
  mkWorld 10%Z (emptyQueue NONIO_TASK_IDX heap_live).

Definition calls_two : list Call := [Schedule None 1%N; Schedule None 3%N].

Definition w_two : World :=
  mkWorld 10%Z (mkTaskQueue NONIO_TASK_IDX [] [1%N; 3%N] [] 0 heap_live).

(** Another run: tasks 1 and 2 are scheduled, a thread fetches (it takes
    task 1 and leaves task 2 ready), then task 3 is scheduled. *)
Definition calls_inversion : list Call :=
  [Schedule None 1%N; Schedule None 2%N;
   Fetch 0%Z 0%Z false EXECUTOR_SLEEPING (aThread NONIO_TASK_IDX 10%Z) false;
   Schedule None 3%N].

Definition w_inversion : World :=
  mkWorld 10%Z (mkTaskQueue NONIO_TASK_IDX [2%N] [3%N] [] 0 heap_live).

End TaskQueue.

(** ** ep_engine.h *)

Module Engine.

(** The statuses of memcached/engine_error.h that the engine front-end
    returns. *)
Inductive ENGINE_ERROR_CODE :=
| ENGINE_SUCCESS
| ENGINE_KEY_ENOENT
| ENGINE_KEY_EEXISTS
| ENGINE_ENOMEM
| ENGINE_NOT_STORED
| ENGINE_EINVAL
| ENGINE_ENOTSUP
| ENGINE_EWOULDBLOCK
| ENGINE_NOT_MY_VBUCKET
| ENGINE_TMPFAIL
| ENGINE_LOCKED.

#[global] Instance ENGINE_ERROR_CODE_eq_dec : EqDecision ENGINE_ERROR_CODE.
Proof. solve_decision. Defined.

(** The part of the engine that the front-end functions read and write:
    kvBucket->isWarmingUp(), the trafficEnabled flag and two counters of
    the stats. *)
Record EventuallyPersistentEngine := mkEngine {
  isWarmingUp : bool;
  trafficEnabled : bool;
  numOpsDelete : Z;
  numOpsGet : Z;
}.

Definition isDegradedMode (e : EventuallyPersistentEngine) : bool :=
  isWarmingUp e || negb (trafficEnabled e).

(** ++stats.numOpsDelete and ++stats.numOpsGet: the counters of the stats
    are atomic size_t, so the increment wraps at 2^64. *)
Definition counter_incr (c : Z) : Z := ((c + 1) mod 2 ^ 64)%Z.

(** enableTraffic(enable): compare_exchange_strong(!enable, enable). *)
Definition enableTraffic (enable : bool) (e : EventuallyPersistentEngine)
  : bool * EventuallyPersistentEngine :=
  if bool_decide (trafficEnabled e = negb enable)
  then (true, mkEngine (isWarmingUp e) enable (numOpsDelete e) (numOpsGet e))
  else (false, e).

(** itemDelete; [ret] is the status kvBucket->deleteItem returns. *)
Definition itemDelete (ret : ENGINE_ERROR_CODE)
    (e : EventuallyPersistentEngine)
  : ENGINE_ERROR_CODE * EventuallyPersistentEngine :=
  if bool_decide (ret = ENGINE_KEY_ENOENT)
     || bool_decide (ret = ENGINE_NOT_MY_VBUCKET) then
    if isDegradedMode e then (ENGINE_TMPFAIL, e) else (ret, e)
  else if bool_decide (ret = ENGINE_SUCCESS) then
    (ret, mkEngine (isWarmingUp e) (trafficEnabled e)
                   (counter_incr (numOpsDelete e)) (numOpsGet e))
  else (ret, e).

(** get; [ret] is the status of kvBucket->get and [track] tells whether
    the options have TRACK_STATISTICS. *)
Definition get (ret : ENGINE_ERROR_CODE) (track : bool)
    (e : EventuallyPersistentEngine)
  : ENGINE_ERROR_CODE * EventuallyPersistentEngine :=
  if bool_decide (ret = ENGINE_SUCCESS) then
    (ret, if track
          then mkEngine (isWarmingUp e) (trafficEnabled e)
                        (numOpsDelete e) (counter_incr (numOpsGet e))
          else e)
  else if bool_decide (ret = ENGINE_KEY_ENOENT)
          || bool_decide (ret = ENGINE_NOT_MY_VBUCKET) then
    if isDegradedMode e then (ENGINE_TMPFAIL, e) else (ret, e)
  else (ret, e).

(** Modelled from the spec: EventuallyPersistentEngine::store is declared
    in ep_engine.h and its body (ep_engine.cc) is missing.  The spec says
    that writes during warmup or explicitly disabled traffic return
    TempFailure; ep_testsuite.cc expects ENGINE_TMPFAIL of a store made
    while traffic is disabled (test_control_data_traffic).  [ret] is the
    status of the store in the bucket. *)
Definition store (ret : ENGINE_ERROR_CODE) (e : EventuallyPersistentEngine)
  : ENGINE_ERROR_CODE :=
  if isDegradedMode e then ENGINE_TMPFAIL else ret.

(** An engine whose traffic was disabled after warmup. *)
Definition trafficDisabled : EventuallyPersistentEngine :=
  mkEngine false false 0 0.

(** The lookups map of the engine, std::map<const void*, Item*>: cookies
    and items are pointers, and the item of an entry may be null. *)
Abbreviation Lookups := (gmap N (option N)) (only parsing).

(** addLookupResult(cookie, result): an old entry of the cookie is erased
    and its item, if not null, deleted; the first component is the item
    deleted. *)
Definition addLookupResult (cookie : N) (result : option N)
    (lookups : gmap N (option N)) : option N * gmap N (option N) :=
  match lookups !! cookie with
  | Some old => (old, <[cookie := result]> (delete cookie lookups))
  | None => (None, <[cookie := result]> lookups)
  end.

(** fetchLookupResult(cookie, itm): Some itm when it returns true and
    writes *itm. *)
Definition fetchLookupResult (cookie : N) (lookups : gmap N (option N))
  : option (option N) * gmap N (option N) :=
  match lookups !! cookie with
  | Some itm => (Some itm, delete cookie lookups)
  | None => (None, lookups)
  end.

(** A run of the two calls, with the items deleted by addLookupResult and
    the items handed to the callers of fetchLookupResult. *)
Inductive LookupCall :=
| AddLookup (cookie : N) (result : option N)
| FetchLookup (cookie : N).

Record LookupState := mkLookupState {
  lookups : gmap N (option N);
  itemsDeleted : list N;
  itemsHanded : list N;
}.

Definition lookupStep (st : LookupState) (c : LookupCall) : LookupState :=
  match c with
  | AddLookup cookie result =>
      let '(old, l) := addLookupResult cookie result (lookups st) in
      mkLookupState l (itemsDeleted st ++ option_list old) (itemsHanded st)
  | FetchLookup cookie =>
      match fetchLookupResult cookie (lookups st) with
      | (Some itm, l) =>
          mkLookupState l (itemsDeleted st) (itemsHanded st ++ option_list itm)
      | (None, l) => mkLookupState l (itemsDeleted st) (itemsHanded st)
      end
  end.

(** The items a run passes to addLookupResult. *)
Definition itemsAdded (cs : list LookupCall) : list N :=
  omap (fun c => match c with
                 | AddLookup _ result => result
                 | FetchLookup _ => None
                 end) cs.

(** The items the map holds. *)
Definition itemsStored (l : gmap N (option N)) : list N :=
  omap snd (map_to_list l).

(** The statuses the bucket returns to a run of deletes and gets. *)
Inductive FrontCall :=
| Delete (ret : ENGINE_ERROR_CODE)
| Get (ret : ENGINE_ERROR_CODE) (track : bool).

#[global] Instance FrontCall_eq_dec : EqDecision FrontCall.
Proof. solve_decision. Defined.

Definition frontStep (e : EventuallyPersistentEngine) (c : FrontCall)
  : EventuallyPersistentEngine :=
  match c with
  | Delete ret => (itemDelete ret e).2
  | Get ret track => (get ret track e).2
  end.

Definition deletesCounted (cs : list FrontCall) : nat :=
  length (filter (fun c => c = Delete ENGINE_SUCCESS) cs).

Definition getsCounted (cs : list FrontCall) : nat :=
  length (filter (fun c => c = Get ENGINE_SUCCESS true) cs).

End Engine.

(** ** hashtable.h *)

Module HashTable.

Definition size_t_wrap (z : Z) : Z := z mod 2 ^ 64.

(** static_cast<int>: the low 32 bits, read as a signed number. *)
Definition to_int (z : Z) : Z := (z + 2 ^ 31) mod 2 ^ 32 - 2 ^ 31.

(** The atomic and plain members of the HashTable that the functions
    below use. *)
Record HashTable := mkHashTable {
  size : Z;
  n_locks : Z;
  activeState : bool;
  numItems : Z;
  numTotalItems : Z;
  numNonResidentItems : Z;
}.

Definition isActive (ht : HashTable) : bool := activeState ht.

(** *** The counters *)

(** decrNumItems, decrNumTotalItems and decrNumNonResidentItems are the
    same loop on three atomics.  Between two accesses of this thread the
    other threads may store into the atomic: [env] lists, for each access
    of this thread in turn, the value the others have left there since the
    access before ([None] when they have not touched it).  When [env] is
    used up the thread runs alone. *)
Definition interfere (env : list (option Z)) (cell : Z)
  : Z * list (option Z) :=
  match env with
  | Some v :: rest => (v, rest)
  | None :: rest => (cell, rest)
  | [] => (cell, [])
  end.

Record DecrResult := mkDecrResult {
  cell_after : Z;              (* the atomic after the last access *)
  exchanged : option (Z * Z);  (* the exchange that succeeded: from, to *)
  logged : bool;               (* "Cannot decrement ..., value at 0" *)
}.

(** One turn of the do-while loop per unit of fuel: load, test against 0,
    compare_exchange_strong(count, count - 1). *)
Fixpoint decrLoop (fuel : nat) (env : list (option Z)) (cell : Z)
  : option DecrResult :=
  match fuel with
  | 0 => None
  | S fuel' =>
      let '(count, env) := interfere env cell in
      if (count =? 0)%Z then Some (mkDecrResult count None true)
      else
        let '(current, env) := interfere env count in
        if (current =? count)%Z
        then Some (mkDecrResult (size_t_wrap (count - 1))
                                (Some (count, size_t_wrap (count - 1))) false)
        else decrLoop fuel' env current
  end.

(** Every failed exchange uses up an entry of [env]. *)
Definition decrCounter (env : list (option Z)) (cell : Z)
  : option DecrResult :=
  decrLoop (S (length env)) env cell.

Definition set_numItems (ht : HashTable) (v : Z) : HashTable :=
  mkHashTable (size ht) (n_locks ht) (activeState ht) v
              (numTotalItems ht) (numNonResidentItems ht).

Definition set_numTotalItems (ht : HashTable) (v : Z) : HashTable :=
  mkHashTable (size ht) (n_locks ht) (activeState ht) (numItems ht)
              v (numNonResidentItems ht).

Definition set_numNonResidentItems (ht : HashTable) (v : Z) : HashTable :=
  mkHashTable (size ht) (n_locks ht) (activeState ht) (numItems ht)
              (numTotalItems ht) v.

Definition decrNumItems (env : list (option Z)) (ht : HashTable)
  : option (HashTable * DecrResult) :=
  r ← decrCounter env (numItems ht);
  Some (set_numItems ht (cell_after r), r).

Definition decrNumTotalItems (env : list (option Z)) (ht : HashTable)
  : option (HashTable * DecrResult) :=
  r ← decrCounter env (numTotalItems ht);
  Some (set_numTotalItems ht (cell_after r), r).

Definition decrNumNonResidentItems (env : list (option Z)) (ht : HashTable)
  : option (HashTable * DecrResult) :=
  r ← decrCounter env (numNonResidentItems ht);
  Some (set_numNonResidentItems ht (cell_after r), r).

(** What a decrement may do: leave the atomic at 0 and log, or exchange a
    positive value for its predecessor. *)
Definition decrOutcomeOk (r : DecrResult) : Prop :=
  match exchanged r with
  | None => logged r = true /\ cell_after r = 0%Z
  | Some (n, m) =>
      (0 < n)%Z /\ m = (n - 1)%Z /\ cell_after r = m /\ logged r = false
  end.

(** A size_t value. *)
Definition is_size_t (z : Z) : Prop := (0 <= z < 2 ^ 64)%Z.

Definition env_size_t (env : list (option Z)) : Prop :=
  forall v, Some v ∈ env -> is_size_t v.

(** The value of the atomic after the stores of the other threads. *)
Definition lastStore (stores : list (option Z)) (cell : Z) : Z :=
  fold_left (fun c o => default c o) stores cell.

(** What the atomic holds when the thread loads it and when the thread
    tries the exchange, in its turn [j] of the loop (from 0): every access
    of the thread comes after one more entry of [env]. *)
Definition atLoad (env : list (option Z)) (cell : Z) (j : nat) : Z :=
  lastStore (firstn (2 * j + 1) env) cell.

Definition atExchange (env : list (option Z)) (cell : Z) (j : nat) : Z :=
  lastStore (firstn (2 * j + 2) env) cell.

(** The decrement under concurrent retries, as the specification has it:
    the thread goes round as long as the others change the counter
    between its load and its exchange; the first turn [j] that loads 0
    logs and leaves the counter at 0, and the first turn whose exchange
    finds the value n > 0 that was loaded leaves n - 1 in the counter. *)
Definition decrSpec (env : list (option Z)) (cell : Z) (r : DecrResult)
  : Prop :=
  exists j : nat,
    (forall i : nat, (i < j)%nat ->
       atLoad env cell i <> 0%Z /\
       atExchange env cell i <> atLoad env cell i) /\
    ((atLoad env cell j = 0%Z /\ r = mkDecrResult 0 None true) \/
     (atLoad env cell j <> 0%Z /\
      atExchange env cell j = atLoad env cell j /\
      r = mkDecrResult (atLoad env cell j - 1)
            (Some (atLoad env cell j, atLoad env cell j - 1)%Z) false)).

(** Examples: a table with one item, and other threads that bring the
    counter to 0 between this thread's load and its exchange. *)
Definition ht_small : HashTable := mkHashTable 8 3 true 1 0 3.

Definition env_race : list (option Z) := [None; Some 0%Z].

(** *** Bucket locks *)

(** getBucketForHash: abs(h % static_cast<int>(size)), with the remainder
    of C++, which has the sign of h.  A table has at least one bucket and
    one lock; the remainder by 0, which C++ leaves undefined, is whatever
    [Z.rem] and [Z.modulo] make it. *)
Definition getBucketForHash (ht : HashTable) (h : Z) : Z :=
  Z.abs (Z.rem h (to_int (size ht))).

(** mutexForBucket throws when the table is not active. *)
Definition mutexForBucket (ht : HashTable) (bucket_num : Z) : exn + Z :=
  if isActive ht then inr (bucket_num mod n_locks ht)%Z else inl logic_error.

(** What the other threads may do to the table while this thread is in
    getLockedBucketForHash. *)
Inductive EnvAction :=
| Resize (newSize : Z)
| SetActiveState (newv : bool).

Definition envStep (a : EnvAction) (ht : HashTable) : HashTable :=
  match a with
  | Resize newSize =>
      mkHashTable newSize (n_locks ht) (activeState ht) (numItems ht)
                  (numTotalItems ht) (numNonResidentItems ht)
  | SetActiveState newv =>
      mkHashTable (size ht) (n_locks ht) newv (numItems ht)
                  (numTotalItems ht) (numNonResidentItems ht)
  end.

Definition envSteps (l : list EnvAction) (ht : HashTable) : HashTable :=
  fold_left (fun ht a => envStep a ht) l ht.

(** Modelled from the spec: HashTable::resize (hashtable.cc, missing)
    takes all the stripe locks before it swaps the bucket array.  So the
    other threads may resize before each step of this thread until it
    holds a stripe mutex, and not while it holds one: a turn of the loop
    has four places for what the others do, and none between the
    acquisition of the mutex and the second getBucketForHash. *)
Record TurnEnv := mkTurnEnv {
  before_isActive : list EnvAction;
  before_getBucket : list EnvAction;
  before_mutexForBucket : list EnvAction;
  before_lock : list EnvAction;
}.

Record HashBucketLock := mkHashBucketLock {
  bucketNum : Z;
  htLock : Z;   (* the index of the stripe mutex held *)
}.

Definition quietTurn : TurnEnv := mkTurnEnv [] [] [] [].

(** The while (true) loop, one turn per unit of fuel; [sched] gives the
    deeds of the others turn by turn, and when it is used up the thread
    runs alone.  The result is the exception or the lock returned, with
    the table as it is at that time. *)
Fixpoint lockLoop (fuel : nat) (h : Z) (sched : list TurnEnv)
    (ht : HashTable) : option ((exn + HashBucketLock) * HashTable) :=
  match fuel with
  | 0 => None
  | S fuel' =>
      let '(env, sched') :=
        match sched with
        | env :: rest => (env, rest)
        | [] => (quietTurn, [])
        end in
      let ht := envSteps (before_isActive env) ht in
      if negb (isActive ht) then Some (inl logic_error, ht)
      else
        let ht := envSteps (before_getBucket env) ht in
        let bucket := getBucketForHash ht h in
        let ht := envSteps (before_mutexForBucket env) ht in
        match mutexForBucket ht bucket with
        | inl e => Some (inl e, ht)
        | inr m =>
            let ht := envSteps (before_lock env) ht in
            (* the mutex m is held from here on *)
            if (bucket =? getBucketForHash ht h)%Z
            then Some (inr (mkHashBucketLock bucket m), ht)
            else lockLoop fuel' h sched' ht
        end
  end.

(** A turn fails only if the others resized during it, so one turn more
    than [sched] has entries is enough. *)
Definition getLockedBucketForHash (h : Z) (sched : list TurnEnv)
    (ht : HashTable) : option ((exn + HashBucketLock) * HashTable) :=
  lockLoop (S (length sched)) h sched ht.

(** The turns of the loop, for the specification below.  The table holds
    at the four accesses of turn [k] (from 0) what the others have made of
    it so far; past the end of [sched] the thread runs alone. *)
Definition turnOf (sched : list TurnEnv) (k : nat) : TurnEnv :=
  nth k sched quietTurn.

Definition turnActions (e : TurnEnv) : list EnvAction :=
  before_isActive e ++ before_getBucket e ++ before_mutexForBucket e
  ++ before_lock e.

Definition tableAtTurn (sched : list TurnEnv) (ht : HashTable) (k : nat)
  : HashTable :=
  envSteps (concat (map turnActions (firstn k sched))) ht.

(** At isActive(), at the first getBucketForHash(h), at mutexForBucket()
    and once the mutex is held. *)
Definition tableAtCheck (sched : list TurnEnv) (ht : HashTable) (k : nat)
  : HashTable :=
  envSteps (before_isActive (turnOf sched k)) (tableAtTurn sched ht k).

Definition tableAtBucket (sched : list TurnEnv) (ht : HashTable) (k : nat)
  : HashTable :=
  envSteps (before_getBucket (turnOf sched k)) (tableAtCheck sched ht k).

Definition tableAtMutex (sched : list TurnEnv) (ht : HashTable) (k : nat)
  : HashTable :=
  envSteps (before_mutexForBucket (turnOf sched k))
           (tableAtBucket sched ht k).

Definition tableAtLock (sched : list TurnEnv) (ht : HashTable) (k : nat)
  : HashTable :=
  envSteps (before_lock (turnOf sched k)) (tableAtMutex sched ht k).

(** getLockedBucketForHash as the specification has it: the thread goes
    round as long as it finds the table active and a resize has changed
    the bucket of [h] between its first computation and the one it makes
    with the mutex held.  In the first turn [k] that does not go round,
    it throws if isActive() or mutexForBucket() finds the table not
    active; otherwise it returns the lock of the bucket of [h] in the
    table as it is with the mutex held, which is the table at return. *)
Definition lockSpec (h : Z) (sched : list TurnEnv) (ht : HashTable)
    (res : exn + HashBucketLock) (ht' : HashTable) : Prop :=
  exists k : nat,
    (forall i : nat, (i < k)%nat ->
       isActive (tableAtCheck sched ht i) = true /\
       isActive (tableAtMutex sched ht i) = true /\
       getBucketForHash (tableAtBucket sched ht i) h
       <> getBucketForHash (tableAtLock sched ht i) h) /\
    ((isActive (tableAtCheck sched ht k) = false /\
      res = inl logic_error /\ ht' = tableAtCheck sched ht k) \/
     (isActive (tableAtCheck sched ht k) = true /\
      isActive (tableAtMutex sched ht k) = false /\
      res = inl logic_error /\ ht' = tableAtMutex sched ht k) \/
     (isActive (tableAtCheck sched ht k) = true /\
      isActive (tableAtMutex sched ht k) = true /\
      getBucketForHash (tableAtBucket sched ht k) h
      = getBucketForHash (tableAtLock sched ht k) h /\
      res = inr (mkHashBucketLock
                   (getBucketForHash (tableAtLock sched ht k) h)
                   (getBucketForHash (tableAtLock sched ht k) h
                    mod n_locks (tableAtLock sched ht k))%Z) /\
      ht' = tableAtLock sched ht k)).

(** A table with buckets and locks, of a size that fits an int; resizes
    that keep it so.  Outside of this the remainders of getBucketForHash
    and mutexForBucket are not defined in C++. *)
Definition sizeOk (ht : HashTable) : Prop :=
  (0 < size ht < 2 ^ 31)%Z /\ (0 < n_locks ht)%Z.

Definition actionOk (a : EnvAction) : Prop :=
  match a with
  | Resize newSize => (0 < newSize < 2 ^ 31)%Z
  | SetActiveState _ => True
  end.

Definition schedOk (sched : list TurnEnv) : Prop :=
  Forall (fun e => Forall actionOk (turnActions e)) sched.

(** An example: while the thread waits for the mutex of bucket 5 the
    others resize the table from 8 to 3 buckets. *)
Definition resizeWhileWaiting : list TurnEnv :=
  [mkTurnEnv [] [] [] [Resize 3]].

(** *** Hash chains *)

(** A StoredValue and the chain that hangs from it: its key, its sequence
    number and the owning pointer to the next element.  A UniquePtr is an
    [option]: [None] is the null pointer. *)
#[warnings="-register-all"]
Inductive StoredValue :=
  mkStoredValue (key : N) (bySeqno : Z) (next : option StoredValue).

Definition UniquePtr := option StoredValue.

Definition getKey (v : StoredValue) : N :=
  match v with mkStoredValue k _ _ => k end.

Definition getBySeqno (v : StoredValue) : Z :=
  match v with mkStoredValue _ s _ => s end.

Definition next (v : StoredValue) : UniquePtr :=
  match v with mkStoredValue _ _ n => n end.

Definition set_next (v : StoredValue) (n : UniquePtr) : StoredValue :=
  match v with mkStoredValue k s _ => mkStoredValue k s n end.

(** An element taken out of its chain: std::move has emptied its link. *)
Definition detach (v : StoredValue) : StoredValue := set_next v None.

(** The for loop of hashChainRemoveFirst, from the element [curr] points
    to: the element as the loop leaves it, and the element spliced out. *)
Fixpoint removeAfter (p : StoredValue -> bool) (curr : StoredValue)
  : StoredValue * UniquePtr :=
  match curr with
  | mkStoredValue k s None => (curr, None)
  | mkStoredValue k s (Some nx) =>
      if p nx
      then (mkStoredValue k s (next nx), Some (detach nx))
      else
        let '(nx', removed) := removeAfter p nx in
        (mkStoredValue k s (Some nx'), removed)
  end.

(** hashChainRemoveFirst(chain, p): the element returned and the chain
    afterwards.  On a null chain the C++ hands the null pointer to the
    predicate and dereferences it: there is no result, [None]. *)
Definition hashChainRemoveFirst (p : StoredValue -> bool) (chain : UniquePtr)
  : option (UniquePtr * UniquePtr) :=
  match chain with
  | None => None
  | Some head =>
      if p head
      then Some (Some (detach head), next head)
      else
        let '(head', removed) := removeAfter p head in
        Some (removed, Some head')
  end.

(** The elements of a chain in chain order, each with the chain that hangs
    from it. *)
Fixpoint elements (v : StoredValue) : list StoredValue :=
  match v with
  | mkStoredValue _ _ None => [v]
  | mkStoredValue _ _ (Some nx) => v :: elements nx
  end.

Definition chainElements (chain : UniquePtr) : list StoredValue :=
  match chain with
  | None => []
  | Some head => elements head
  end.

(** An element without its link. *)
Definition content (v : StoredValue) : N * Z := (getKey v, getBySeqno v).

Definition chainContents (chain : UniquePtr) : list (N * Z) :=
  map content (chainElements chain).

(** What the function is for, on lists: the first element that satisfies p,
    and the list without that one element. *)
Fixpoint spec_removeFirst {A} (p : A -> bool) (l : list A)
  : option A * list A :=
  match l with
  | [] => (None, [])
  | x :: l' =>
      if p x then (Some x, l')
      else let '(found, rest) := spec_removeFirst p l' in (found, x :: rest)
  end.

(** A chain of three elements, keys 1, 2 and 3. *)
Definition chain123 : UniquePtr :=
  Some (mkStoredValue 1 10
     (Some (mkStoredValue 2 20 (Some (mkStoredValue 3 30 None))))).

Definition hasKey (k : N) (v : StoredValue) : bool :=
  bool_decide (getKey v = k).

(** The keys of a chain, in chain order. *)
Definition chainKeys (chain : UniquePtr) : list N :=
  map getKey (chainElements chain).

(** *** HashTableDepthStatVisitor *)

Module DepthStat.

(** size and memUsed are size_t, min and max are int. *)
Record HashTableDepthStatVisitor := mkVisitor {
  size : Z;
  memUsed : Z;
  min : Z;
  max : Z;
}.

(** The constructor; the histogram of the depths is left out. *)
Definition init : HashTableDepthStatVisitor := mkVisitor 0 0 (-1) 0.

(** visit(bucket, depth, mem) *)
Definition visit (v : HashTableDepthStatVisitor) (bucket depth mem : Z)
  : HashTableDepthStatVisitor :=
  mkVisitor (size_t_wrap (size v + depth))
            (size_t_wrap (memUsed v + mem))
            (Z.min (if (min v =? -1)%Z then depth else min v) depth)
            (Z.max (max v) depth).

(** visitDepth calls visit once for each bucket: (bucket, depth, mem). *)
Definition visitAll (calls : list (Z * Z * Z)) : HashTableDepthStatVisitor :=
  fold_left (fun v c => visit v c.1.1 c.1.2 c.2) calls init.

Definition depths (calls : list (Z * Z * Z)) : list Z := map (fun c => c.1.2) calls.

Definition mems (calls : list (Z * Z * Z)) : list Z := map (fun c => c.2) calls.

Definition sumZ (l : list Z) : Z := fold_right Z.add 0%Z l.

End DepthStat.

End HashTable.

(** ** src/bgfetcher.cc *)

Module BgFetcher.

Abbreviation VBid := N (only parsing).     (* VBucket::id_type, uint16_t *)
Definition DocKey := N.
Definition Cookie := N.

(** vb_bgfetch_queue_t: for each key the list of the fetches asked for
    (bgfetched_list). *)
Definition vb_bgfetch_queue_t := list (DocKey * list Cookie).

(** Modelled from the spec: VBucket (vbucket.h, missing) as far as run()
    uses it: isBucketCreation() tells that the file of the vbucket is not
    created yet, and getBGFetchItems() hands over the bgFetchQueue of the
    vbucket and leaves it empty. *)
Record VBucket := mkVBucket {
  isBucketCreation : bool;
  bgFetchQueue : vb_bgfetch_queue_t;
}.

Definition getBGFetchItems (vb : VBucket) : vb_bgfetch_queue_t * VBucket :=
  (bgFetchQueue vb, mkVBucket (isBucketCreation vb) []).

(** shard->getBucket(vbId) is a lookup; there may be no vbucket. *)
Abbreviation KVShard := (gmap VBid VBucket) (only parsing).

Record BgFetcher := mkBgFetcher {
  pendingFetch : bool;
  pendingVbs : gset VBid;
  numRemainingBgItems : Z;
}.

(** What run() asks of the store and of its task. *)
Inductive Event :=
| getMulti (vbId : VBid) (itemsToFetch : vb_bgfetch_queue_t)
| completeBGFetchMulti (vbId : VBid) (fetched : nat)
| snoozeDelay      (* task->snooze(sleep) *)
| snoozeZero.      (* task->snooze(0) *)

(** doFetch: getMulti, then completeBGFetchMulti when something was
    fetched; the number of fetched items is the number of entries of the
    bgfetched_lists. *)
Definition doFetch (vbId : VBid) (itemsToFetch : vb_bgfetch_queue_t)
  : nat * list Event :=
  let fetchedItems := sum_list (map (fun kv => length kv.2) itemsToFetch) in
  (fetchedItems,
   getMulti vbId itemsToFetch ::
   (if 0 <? fetchedItems then [completeBGFetchMulti vbId fetchedItems]
    else [])).

Record RunState := mkRunState {
  fetcher : BgFetcher;
  shard : KVShard;
  num_fetched_items : nat;
  events : list Event;
}.

(** The body of the for loop of run(). *)
Definition visit (st : RunState) (vbId : VBid) : RunState :=
  match shard st !! vbId with
  | Some vb =>
      if isBucketCreation vb then
        (* requeue: pendingVbs.insert(vbId), pendingFetch false -> true *)
        mkRunState
          (mkBgFetcher true ({[vbId]} ∪ pendingVbs (fetcher st))
                       (numRemainingBgItems (fetcher st)))
          (shard st) (num_fetched_items st) (events st)
      else
        let '(items, vb') := getBGFetchItems vb in
        let shard' := <[vbId := vb']> (shard st) in
        if 0 <? length items then
          let '(n, evs) := doFetch vbId items in
          mkRunState (fetcher st) shard' (num_fetched_items st + n)
                     (events st ++ evs)
        else mkRunState (fetcher st) shard' (num_fetched_items st) (events st)
  | None => st
  end.

(** bg_vbs.assign(pendingVbs.begin(), pendingVbs.end()): the elements of
    the std::set, in ascending order. *)
Definition bg_vbs_of (s : gset VBid) : list VBid :=
  merge_sort N.le (elements s).
Arguments bg_vbs_of : simpl never.

(** run(task) when no other thread touches the fetcher before the last
    load of pendingFetch ([runAmong] below has the other threads at every
    step).  [arrived] tells whether pendingFetch was set between the two
    loads at the end. *)
Definition run (arrived : bool) (f : BgFetcher) (sh : KVShard) : RunState :=
  (* pendingFetch.compare_exchange_strong(true, false) *)
  let f := mkBgFetcher false (pendingVbs f) (numRemainingBgItems f) in
  let bg_vbs := bg_vbs_of (pendingVbs f) in
  let f := mkBgFetcher (pendingFetch f) ∅ (numRemainingBgItems f) in
  let st := fold_left visit bg_vbs (mkRunState f sh 0 []) in
  let f := fetcher st in
  let f := mkBgFetcher (pendingFetch f) (pendingVbs f)
             ((numRemainingBgItems f - Z.of_nat (num_fetched_items st))
                mod 2 ^ 64)%Z in
  if negb (pendingFetch f) then
    if arrived
    then mkRunState (mkBgFetcher true (pendingVbs f) (numRemainingBgItems f))
                    (shard st) (num_fetched_items st)
                    (events st ++ [snoozeDelay; snoozeZero])
    else mkRunState f (shard st) (num_fetched_items st)
                    (events st ++ [snoozeDelay])
  else mkRunState f (shard st) (num_fetched_items st) (events st).

(** Vbucket 3 is being created, vbucket 5 has two keys to fetch. *)
Definition shard35 : KVShard :=
  <[3%N := mkVBucket true [(7%N, [1%N])]]>
    (<[5%N := mkVBucket false [(8%N, [2%N; 3%N]); (9%N, [4%N])]]> ∅).

Definition fetcher35 : BgFetcher := mkBgFetcher true {[3%N; 5%N]} 4.

(** start(): pendingFetch false -> true, then the task is scheduled. *)
Definition start (f : BgFetcher) : BgFetcher :=
  mkBgFetcher true (pendingVbs f) (numRemainingBgItems f).

(** stop(): pendingFetch true -> false, then the task is cancelled. *)
Definition stop (f : BgFetcher) : BgFetcher :=
  mkBgFetcher false (pendingVbs f) (numRemainingBgItems f).

(** notifyBGEvent(): the counter goes up and, if the exchange of
    pendingFetch from false to true succeeds, the task is woken; the
    boolean tells whether ExecutorPool::wake was called. *)
Definition notifyBGEvent (f : BgFetcher) : bool * BgFetcher :=
  let n := ((numRemainingBgItems f + 1) mod 2 ^ 64)%Z in
  if pendingFetch f
  then (false, mkBgFetcher true (pendingVbs f) n)
  else (true, mkBgFetcher true (pendingVbs f) n).



(** The file of vbucket [v] of the shard is not created yet. *)
Definition creating (sh : gmap N VBucket) (v : N) : Prop :=
  exists vb, sh !! v = Some vb /\ isBucketCreation vb = true.

(** *** run() among the other threads *)

(** Modelled from the spec: what another thread does to the members of the
    BgFetcher while run() is under way.  It calls notifyBGEvent(), or it
    inserts a vbucket into pendingVbs under queueMutex (addPendingVB of
    bgfetcher.h, a header that is not among the sources; the spec has
    pendingVbs as the "set of vbucket ids with outstanding bg-fetch
    items", and run() takes queueMutex for every access to the set). *)
Inductive OtherThread :=
| otherNotifies
| otherInserts (vbId : VBid).

#[global] Instance OtherThread_eq_dec : EqDecision OtherThread.
Proof. solve_decision. Defined.

Definition otherStep (f : BgFetcher) (a : OtherThread) : BgFetcher :=
  match a with
  | otherNotifies => (notifyBGEvent f).2
  | otherInserts vbId =>
      mkBgFetcher (pendingFetch f) ({[vbId]} ∪ pendingVbs f)
                  (numRemainingBgItems f)
  end.

Definition others (l : list OtherThread) (st : RunState) : RunState :=
  mkRunState (fold_left otherStep l (fetcher st)) (shard st)
             (num_fetched_items st) (events st).

(** Where the other threads come in: after the exchange that clears
    pendingFetch and before the snapshot; before each turn of the for
    loop (a turn reads the shard, then inserts or fetches, and what the
    others do during a turn has the effect it has before the next one);
    after the loop and before pendingFetch.load(); between that load and
    the load that follows the snooze.  The vbuckets of the shard are taken
    as the pass finds them: what the others do to a vbucket meanwhile
    (queue one more fetch, finish the creation of its file) is not part of
    the model. *)
Record Interleaving := mkInterleaving {
  beforeSnapshot : list OtherThread;
  beforeVisit : nat -> list OtherThread;
  beforeLoad : list OtherThread;
  duringSnooze : list OtherThread;
}.

Definition alone : Interleaving := mkInterleaving [] (fun _ => []) [] [].

(** The for loop, from its turn [i] on. *)
Fixpoint loopAmong (slots : nat -> list OtherThread) (i : nat)
    (bg_vbs : list VBid) (st : RunState) : RunState :=
  match bg_vbs with
  | [] => st
  | vbId :: rest =>
      loopAmong slots (S i) rest (visit (others (slots i) st) vbId)
  end.

(** run(task) with the other threads. *)
Definition runAmong (il : Interleaving) (f : BgFetcher) (sh : KVShard)
  : RunState :=
  (* pendingFetch.compare_exchange_strong(true, false) *)
  let f := mkBgFetcher false (pendingVbs f) (numRemainingBgItems f) in
  let f := fold_left otherStep (beforeSnapshot il) f in
  let bg_vbs := bg_vbs_of (pendingVbs f) in
  let f := mkBgFetcher (pendingFetch f) ∅ (numRemainingBgItems f) in
  let st := loopAmong (beforeVisit il) 0 bg_vbs (mkRunState f sh 0 []) in
  let st := others (beforeLoad il) st in
  let f := fetcher st in
  let f := mkBgFetcher (pendingFetch f) (pendingVbs f)
             ((numRemainingBgItems f - Z.of_nat (num_fetched_items st))
                mod 2 ^ 64)%Z in
  if negb (pendingFetch f) then
    let f := fold_left otherStep (duringSnooze il) f in
    mkRunState f (shard st) (num_fetched_items st)
               (events st
                ++ snoozeDelay :: (if pendingFetch f then [snoozeZero] else []))
  else mkRunState f (shard st) (num_fetched_items st) (events st).

(** The vbuckets of the snapshot. *)
Definition snapshotOf (il : Interleaving) (f : BgFetcher) : gset VBid :=
  pendingVbs (fold_left otherStep (beforeSnapshot il) f).

(** What the others do between the snapshot and pendingFetch.load(), in a
    loop of [n] turns. *)
Definition duringLoop (il : Interleaving) (n : nat) : list OtherThread :=
  concat (map (beforeVisit il) (seq 0 n)) ++ beforeLoad il.

(** The batches handed to getMulti for vbucket [v], in the order of the
    calls. *)
Definition batchesFor (v : VBid) (evs : list Event)
  : list vb_bgfetch_queue_t :=
  omap (fun e => match e with
                 | getMulti vbId items =>
                     if decide (vbId = v) then Some items else None
                 | _ => None
                 end) evs.

(** Vbucket 7 is inserted and a notification arrives while the loop is at
    its second turn; nothing else happens. *)
Definition duringSecondTurn : Interleaving :=
  mkInterleaving []
    (fun i => match i with
              | 1 => [otherInserts 7%N; otherNotifies]
              | _ => []
              end) [] [].

End BgFetcher.

(** ** arenamanager.cc *)

Module ArenaManager.

(** struct ArenaState; hrtime_t as Z. *)
Record ArenaState := mkArenaState {
  inUse : bool;
  createTime : Z;
}.

(** The members of the class.  [alloc_hooks] tells whether the pointer is
    set; arenaid_t is unsigned int. *)
Record ArenaManager := mkArenaManager {
  alloc_hooks : bool;
  numArenas : N;
  baseSystemArenas : N;
  arenas : list ArenaState;
}.

(** The two std::runtime_error of allocateArena. *)
Inductive arena_error :=
| id_mismatch (newArenaIdx arenaId : N)
| no_free_arena.

(** What a call comes to: a value, an exception, or an access to
    arenas[arenaId] past the end of the vector. *)
Inductive Res (A : Type) :=
| Ret (a : A)
| Throw (e : arena_error)
| Undefined.
Arguments Ret {A} a.
Arguments Throw {A} e.
Arguments Undefined {A}.

(** ArenaManager(numArenas_), with the initialisers of the members. *)
Definition ArenaManager_ctor (numArenas_ : N) : ArenaManager :=
  mkArenaManager false numArenas_ 1 [].

Definition isInitialized (m : ArenaManager) : bool := alloc_hooks m.

(** initialize(alloc_hooks).  [hooks] is None for a null pointer and
    otherwise holds what the property arenas.narenas reads.  totalArenas
    is an unsigned sum; the first loop pushes totalArenas default states,
    the second marks the base system arenas.  Both loops count with an
    int ([auto i = 0]), which overflows from 2^31 entries on: the table
    below is what they build for totalArenas < 2^31, the condition [fits]
    of the properties. *)
Definition initialize (hooks : option N) (m : ArenaManager) : ArenaManager :=
  if alloc_hooks m then m
  else match hooks with
       | None => m
       | Some narenas =>
           match arenas m with
           | [] =>
               let base := narenas in
               let totalArenas := ((numArenas m + base) mod 2 ^ 32)%N in
               let pushed :=
                 replicate (N.to_nat totalArenas) (mkArenaState false 0) in
               mkArenaManager true (numArenas m) base
                 (imap (fun i _ => mkArenaState (N.of_nat i <? base)%N 0)
                       pushed)
           | _ :: _ =>
               mkArenaManager true (numArenas m) (baseSystemArenas m)
                              (arenas m)
           end
       end.

Definition destroy (m : ArenaManager) : ArenaManager :=
  mkArenaManager false (numArenas m) (baseSystemArenas m) (arenas m).

Definition setArena (m : ArenaManager) (arenaId : N) (state : ArenaState)
  : ArenaManager :=
  mkArenaManager (alloc_hooks m) (numArenas m) (baseSystemArenas m)
                 (<[N.to_nat arenaId := state]> (arenas m)).

(** The for loop of allocateArena, [n] ids from [arenaId] on.
    [newArenaIdx] is what arenas.extend returns when it is called and
    [now] what gethrtime() returns. *)
Fixpoint allocateArena_loop (n : nat) (arenaId : N) (newArenaIdx : N)
    (now : Z) (m : ArenaManager) : Res N * ArenaManager :=
  match n with
  | O => (Throw no_free_arena, m)
  | S n' =>
      match arenas m !! N.to_nat arenaId with
      | None => (Undefined, m)
      | Some state =>
          if inUse state then
            allocateArena_loop n' (arenaId + 1) newArenaIdx now m
          else if (createTime state =? 0)%Z then
            if negb (newArenaIdx =? arenaId)%N
            then (Throw (id_mismatch newArenaIdx arenaId), m)
            else (Ret arenaId, setArena m arenaId (mkArenaState true now))
          else
            (Ret arenaId,
             setArena m arenaId (mkArenaState true (createTime state)))
      end
  end.

(** allocateArena(); [have_jemalloc] is the build flag HAVE_JEMALLOC of
    CHECK_JEMALLOC. *)
Definition allocateArena (have_jemalloc : bool) (newArenaIdx : N) (now : Z)
    (m : ArenaManager) : Res N * ArenaManager :=
  if negb have_jemalloc then (Ret 0%N, m)
  else if negb (isInitialized m) then (Ret 0%N, m)
  else allocateArena_loop
         (N.to_nat (numArenas m - baseSystemArenas m))
         (baseSystemArenas m) newArenaIdx now m.

(** deallocateArena(arenaId).  The usage check only logs. *)
Definition deallocateArena (arenaId : N) (m : ArenaManager)
  : Res bool * ArenaManager :=
  if negb (isInitialized m) then (Ret false, m)
  else if (numArenas m <=? arenaId)%N then (Ret false, m)
  else match arenas m !! N.to_nat arenaId with
       | None => (Undefined, m)
       | Some state =>
           (Ret true, setArena m arenaId (mkArenaState false (createTime state)))
       end.

(** switchToArena(arenaId_); [hook] is what set_allocator_property
    returns. *)
Definition switchToArena (hook : bool) (arenaId_ : N) (m : ArenaManager)
  : bool :=
  if negb (isInitialized m) || (numArenas m <=? arenaId_)%N then false
  else hook.

(** arenas[arenaId].inUse, false past the end. *)
Definition inUseAt (m : ArenaManager) (arenaId : N) : bool :=
  match arenas m !! N.to_nat arenaId with
  | Some state => inUse state
  | None => false
  end.

Definition createTimeAt (m : ArenaManager) (arenaId : N) : Z :=
  match arenas m !! N.to_nat arenaId with
  | Some state => createTime state
  | None => 0
  end.

(** Calls on one manager, in a build with jemalloc. *)
Inductive ArenaCall :=
| Initialize (hooks : option N)
| Destroy
| AllocateArena (newArenaIdx : N) (now : Z)
| DeallocateArena (arenaId : N).

(** One call; None when it reads the vector past its end. *)
Definition arenaStep (m : ArenaManager) (c : ArenaCall)
  : option ArenaManager :=
  match c with
  | Initialize hooks => Some (initialize hooks m)
  | Destroy => Some (destroy m)
  | AllocateArena newArenaIdx now =>
      match allocateArena true newArenaIdx now m with
      | (Undefined, _) => None
      | (_, m') => Some m'
      end
  | DeallocateArena arenaId =>
      match deallocateArena arenaId m with
      | (Undefined, _) => None
      | (_, m') => Some m'
      end
  end.

Fixpoint arenaRun (m : ArenaManager) (cs : list ArenaCall)
  : option ArenaManager :=
  match cs with
  | [] => Some m
  | c :: cs' =>
      match arenaStep m c with
      | Some m' => arenaRun m' cs'
      | None => None
      end
  end.

(** The sum numArenas + arenas.narenas of an initialize call fits the
    int counter of its loops. *)
Definition fits (numArenas_ : N) (c : ArenaCall) : Prop :=
  match c with
  | Initialize (Some narenas) => (numArenas_ + narenas < 2 ^ 31)%N
  | _ => True
  end.

(** [k] calls of allocateArena in a row, the allocator handing out the
    ids [next], [next + 1], ... on request; the results in order. *)
Fixpoint allocateMany (k : nat) (next : N) (now : Z) (m : ArenaManager)
  : list (Res N) * ArenaManager :=
  match k with
  | O => ([], m)
  | S k' =>
      let '(r, m1) := allocateArena true next now m in
      let '(rs, m2) := allocateMany k' (next + 1) now m1 in
      (r :: rs, m2)
  end.

(** What the loop of allocateArena comes to, on a table that has the
    entries it looks at. *)
Definition loop_post (first : N) (n : nat) (newArenaIdx : N) (now : Z)
    (m : ArenaManager) (r : Res N * ArenaManager) : Prop :=
  match r with
  | (Ret id, m') =>
      (first <= id < first + N.of_nat n)%N /\
      inUseAt m id = false /\
      (createTimeAt m id = 0%Z -> newArenaIdx = id) /\
      (forall j, (first <= j < id)%N -> inUseAt m j = true) /\
      m' = setArena m id
             (mkArenaState true
                (if (createTimeAt m id =? 0)%Z then now
                 else createTimeAt m id))
  | (Throw (id_mismatch a b), m') =>
      m' = m /\ a = newArenaIdx /\ a <> b /\
      (first <= b < first + N.of_nat n)%N /\
      inUseAt m b = false /\ createTimeAt m b = 0%Z /\
      (forall j, (first <= j < b)%N -> inUseAt m j = true)
  | (Throw no_free_arena, m') =>
      m' = m /\
      (forall j, (first <= j < first + N.of_nat n)%N -> inUseAt m j = true)
  | (Undefined, _) => False
  end.

(** The table of an initialised manager covers the ids that
    allocateArena and deallocateArena index. *)
Definition covers (m : ArenaManager) : Prop :=
  (N.to_nat (numArenas m) <= length (arenas m))%nat.

(** The table is either not built yet, on a manager that is not
    initialised, or has numArenas + baseSystemArenas entries. *)
Definition tableOk (m : ArenaManager) : Prop :=
  (arenas m = [] /\ alloc_hooks m = false) \/
  length (arenas m) = N.to_nat (numArenas m + baseSystemArenas m).

(** The state allocateMany works on: the ids below [next] handed out, the
    ids from [next] on never used. *)
Definition handedOut (n b next : N) (m : ArenaManager) : Prop :=
  isInitialized m = true /\ numArenas m = n /\ baseSystemArenas m = b /\
  covers m /\
  (forall j, (b <= j < next)%N -> inUseAt m j = true) /\
  (forall j, (next <= j < n)%N ->
             inUseAt m j = false /\ createTimeAt m j = 0%Z).

End ArenaManager.

(** * Properties *)

(** ** TaskQueue *)

Module TaskQueueFacts.
Import TaskQueue.

(** *** Priority queues *)

Section PriorityQueue.
Variable before : ExTask -> ExTask -> bool.
Variable rank : ExTask -> Z.
Hypothesis before_rank : forall a b, before a b = true <-> (rank a < rank b)%Z.

Lemma pq_top_None (q : list ExTask) : pq_top before q = None <-> q = [].
Proof.
  destruct q as [|x q']; simpl; [done|].
  split; [|done].
  destruct (pq_top before q') as [y|]; [destruct (before y x)|]; done.
Qed.

(** The top is the oldest of the entries of least rank, and pop takes
    exactly that entry out. *)
Lemma pq_top_split (q : list ExTask) (x : ExTask) :
  pq_top before q = Some x ->
  exists l1 l2,
    q = l1 ++ x :: l2 /\
    (forall y, y ∈ l1 -> (rank x < rank y)%Z) /\
    (forall y, y ∈ l2 -> (rank x <= rank y)%Z) /\
    pq_pop before q = l1 ++ l2.
Proof.
  revert x. induction q as [|a q' IH]; intros x Htop; [done|].
  unfold pq_pop. rewrite Htop. simpl in Htop |- *.
  destruct (pq_top before q') as [y|] eqn:Hq'.
  - destruct (IH y eq_refl) as (l1 & l2 & Hq & Hl1 & Hl2 & Hpop).
    unfold pq_pop in Hpop. rewrite Hq' in Hpop.
    destruct (before y a) eqn:Hya.
    + inversion Htop; subst x. apply before_rank in Hya.
      exists (a :: l1), l2. split_and!.
      * by rewrite Hq.
      * intros z [->|Hz]%elem_of_cons; [done|by apply Hl1].
      * done.
      * destruct (decide (y = a)) as [->|_]; [lia|]. by rewrite Hpop.
    + inversion Htop; subst x.
      assert (~ (rank y < rank a)%Z) as Hge.
      { intros Hlt%before_rank. congruence. }
      exists [], q'. split_and!; [done| |  |].
      * intros z Hz. by apply elem_of_nil in Hz.
      * intros z Hz. rewrite Hq in Hz.
        apply elem_of_app in Hz as [Hz|[->|Hz]%elem_of_cons].
        -- specialize (Hl1 z Hz). lia.
        -- lia.
        -- specialize (Hl2 z Hz). lia.
      * by rewrite decide_True.
  - inversion Htop; subst x. apply pq_top_None in Hq'. subst q'.
    exists [], []. split_and!; try done.
    + intros z Hz. by apply elem_of_nil in Hz.
    + intros z Hz. by apply elem_of_nil in Hz.
    + by rewrite decide_True.
Qed.

Lemma pq_top_elem (q : list ExTask) (x : ExTask) :
  pq_top before q = Some x -> x ∈ q.
Proof.
  intros (l1 & l2 & -> & _)%pq_top_split.
  apply elem_of_app. right. apply elem_of_cons. by left.
Qed.

Lemma pq_top_least (q : list ExTask) (x y : ExTask) :
  pq_top before q = Some x -> y ∈ q -> (rank x <= rank y)%Z.
Proof.
  intros (l1 & l2 & -> & Hl1 & Hl2 & _)%pq_top_split Hy.
  apply elem_of_app in Hy as [Hy|[->|Hy]%elem_of_cons].
  - specialize (Hl1 y Hy). lia.
  - lia.
  - by apply Hl2.
Qed.

Lemma pq_pop_elem (q : list ExTask) (x y : ExTask) :
  pq_top before q = Some x -> y ∈ q -> y = x \/ y ∈ pq_pop before q.
Proof.
  intros (l1 & l2 & -> & _ & _ & ->)%pq_top_split Hy.
  apply elem_of_app in Hy as [Hy|[->|Hy]%elem_of_cons].
  - right. apply elem_of_app. by left.
  - by left.
  - right. apply elem_of_app. by right.
Qed.

Lemma pq_pop_subset (q : list ExTask) (y : ExTask) :
  y ∈ pq_pop before q -> y ∈ q.
Proof.
  destruct (pq_top before q) as [x|] eqn:Htop.
  - destruct (pq_top_split q x Htop) as (l1 & l2 & -> & _ & _ & ->).
    rewrite !elem_of_app, elem_of_cons. tauto.
  - unfold pq_pop. by rewrite Htop.
Qed.

End PriorityQueue.

Lemma outranks_rank (h : Heap) (a b : ExTask) :
  outranks h a b = true <->
  (Z.of_nat (priority (h a)) < Z.of_nat (priority (h b)))%Z.
Proof. unfold outranks. rewrite Nat.ltb_lt. lia. Qed.

Lemma dueBefore_rank (h : Heap) (a b : ExTask) :
  dueBefore h a b = true <-> (waketime (h a) < waketime (h b))%Z.
Proof. unfold dueBefore. by rewrite Z.ltb_lt. Qed.

(** *** schedule *)

Lemma heap_set_same (h : Heap) (t : ExTask) (v : GlobalTask) :
  heap_set h t v t = v.
Proof. unfold heap_set. by rewrite decide_True. Qed.

Lemma heap_set_other (h : Heap) (t u : ExTask) (v : GlobalTask) :
  u <> t -> heap_set h t v u = h u.
Proof. intros Hne. unfold heap_set. by rewrite decide_False. Qed.

(** C1: scheduling a task that is Dead resets it to Running; the call then
    throws a logic error and enqueues nothing unless the task is the
    ItemPager, for which the reset stands and the task is pushed onto the
    futureQueue. *)
Theorem schedule_dead_task (sleepQ : option TaskQueue) (task : ExTask)
    (q : TaskQueue) :
  state (tasks q task) = TASK_DEAD ->
  let r := schedule sleepQ task q in
  state (tasks (after r) task) = TASK_RUNNING /\
  (typeId (tasks q task) <> ItemPager ->
     thrown r = Some logic_error /\
     futureQueue (after r) = futureQueue q /\
     readyQueue (after r) = readyQueue q /\
     pendingQueue (after r) = pendingQueue q) /\
  (typeId (tasks q task) = ItemPager ->
     thrown r = None /\
     futureQueue (after r) = pq_push (futureQueue q) task).
Proof.
  intros Hdead. unfold schedule, _schedule, setState. simpl.
  rewrite decide_True by done. simpl. rewrite heap_set_same. simpl.
  destruct (decide (typeId (tasks q task) = ItemPager)) as [Hip|Hip].
  - rewrite bool_decide_true by done. simpl.
    destruct (_doWake_UNLOCKED _ 1) as [evs n] eqn:Hw.
    destruct sleepQ; simpl; rewrite heap_set_same; split_and!; done.
  - rewrite bool_decide_false by done. simpl. rewrite heap_set_same.
    split_and!; done.
Qed.

(** A task that is not Dead is enqueued as it is. *)
Lemma schedule_live_task (sleepQ : option TaskQueue) (task : ExTask)
    (q : TaskQueue) :
  state (tasks q task) <> TASK_DEAD ->
  let r := schedule sleepQ task q in
  thrown r = None /\
  tasks (after r) = tasks q /\
  futureQueue (after r) = pq_push (futureQueue q) task.
Proof.
  intros Hlive. unfold schedule, _schedule, setState. simpl.
  rewrite decide_False by done. simpl.
  destruct (_doWake_UNLOCKED _ 1) as [evs n] eqn:Hw.
  destruct sleepQ; simpl; done.
Qed.

Lemma schedule_dead_task_witness :
  state (tasks (emptyQueue NONIO_TASK_IDX heap_dead) 1%N) = TASK_DEAD /\
  futureQueue (after (schedule None 1%N (emptyQueue NONIO_TASK_IDX heap_dead)))
  = [1%N].
Proof.
  split; [reflexivity|].
  destruct (schedule_dead_task None 1%N (emptyQueue NONIO_TASK_IDX heap_dead)
              eq_refl) as (_ & _ & Hpager).
  destruct (Hpager eq_refl) as [_ Hpush]. exact Hpush.
Defined.

Example schedule_dead_other_throws :
  thrown (schedule None 2%N (emptyQueue NONIO_TASK_IDX heap_dead))
  = Some logic_error.
Proof. reflexivity. Qed.

(** *** _moveReadyTasks *)

Lemma filter_none {A} (P : A -> Prop) `{!forall x, Decision (P x)}
    (l : list A) :
  (forall x, x ∈ l -> ~ P x) -> filter P l = [].
Proof.
  induction l as [|a l IH]; intros Hl; [done|].
  rewrite filter_cons_False by (apply Hl; left).
  apply IH. intros x Hx. apply Hl. by right.
Qed.

Lemma filter_all {A} (P : A -> Prop) `{!forall x, Decision (P x)}
    (l : list A) :
  (forall x, x ∈ l -> P x) -> filter P l = l.
Proof.
  induction l as [|a l IH]; intros Hl; [done|].
  rewrite filter_cons_True by (apply Hl; left).
  f_equal. apply IH. intros x Hx. apply Hl. by right.
Qed.

(** The loop moves the due entries, earliest first, and leaves the others
    in place; a fuel of the length of the futureQueue is enough. *)
Lemma moveReady_loop_spec (h : Heap) (tv : time_point) (n : nat) :
  forall (future ready : list ExTask) (k : nat),
    length future <= n ->
    exists moved,
      moveReady_loop n h tv future ready k
      = (filter (fun x => ~ due h tv x) future, ready ++ moved,
         k + length moved) /\
      moved ≡ₚ filter (due h tv) future.
Proof.
  induction n as [|n IH]; intros future ready k Hlen.
  - destruct future; [|simpl in Hlen; lia].
    exists []. simpl. rewrite app_nil_r, Nat.add_0_r. done.
  - simpl. destruct (pq_top (dueBefore h) future) as [x|] eqn:Htop.
    + destruct (pq_top_split _ _ (dueBefore_rank h) _ _ Htop)
        as (l1 & l2 & -> & Hl1 & Hl2 & Hpop).
      destruct (Z.leb_spec (waketime (h x)) tv) as [Hdue|Hnot].
      * rewrite Hpop.
        destruct (IH (l1 ++ l2) (pq_push ready x) (S k))
          as (moved & -> & Hperm).
        { rewrite length_app in *. simpl in Hlen. lia. }
        exists (x :: moved). split.
        -- unfold pq_push. rewrite <- app_assoc. simpl.
           rewrite !filter_app, filter_cons_False by (unfold due; tauto).
           do 2 f_equal. lia.
        -- rewrite !filter_app, filter_cons_True by done.
           rewrite Hperm, filter_app. by rewrite Permutation_middle.
      * exists []. simpl. rewrite app_nil_r, Nat.add_0_r. split.
        -- f_equal. f_equal. symmetry. apply filter_all.
           intros y Hy. unfold due.
           apply elem_of_app in Hy as [Hy|[->|Hy]%elem_of_cons].
           ++ specialize (Hl1 y Hy). lia.
           ++ lia.
           ++ specialize (Hl2 y Hy). lia.
        -- rewrite filter_none; [done|].
           intros y Hy. unfold due.
           apply elem_of_app in Hy as [Hy|[->|Hy]%elem_of_cons].
           ++ specialize (Hl1 y Hy). lia.
           ++ lia.
           ++ specialize (Hl2 y Hy). lia.
    + apply pq_top_None in Htop. subst future.
      exists []. simpl. rewrite app_nil_r, Nat.add_0_r. done.
Qed.

Lemma moveReadyTasks_busy (tv : time_point) (q : TaskQueue) :
  readyQueue q <> [] -> _moveReadyTasks tv q = (0, q).
Proof. unfold _moveReadyTasks. by destruct (readyQueue q). Qed.

Lemma moveReadyTasks_idle (tv : time_point) (q : TaskQueue) :
  readyQueue q = [] ->
  exists moved,
    _moveReadyTasks tv q
    = (length moved - 1,
       set_ready
         (set_future q (filter (fun x => ~ due (tasks q) tv x) (futureQueue q)))
         moved) /\
    moved ≡ₚ filter (due (tasks q) tv) (futureQueue q).
Proof.
  intros Hready. unfold _moveReadyTasks. rewrite Hready.
  destruct (moveReady_loop_spec (tasks q) tv (length (futureQueue q))
              (futureQueue q) [] 0 (le_n _)) as (moved & -> & Hperm).
  exists moved. split; [|done]. simpl. by destruct (length moved).
Qed.

(** _moveReadyTasks touches neither the pendingQueue, nor the sleepers, nor
    the tasks. *)
Lemma moveReadyTasks_frame (tv : time_point) (q : TaskQueue) :
  let q' := snd (_moveReadyTasks tv q) in
  pendingQueue q' = pendingQueue q /\ sleepers q' = sleepers q /\
  tasks q' = tasks q /\ queueType q' = queueType q.
Proof.
  unfold _moveReadyTasks. destruct (readyQueue q); [|done].
  by destruct (moveReady_loop _ _ _ _ _ _) as [[f r] k].
Qed.

(** *** The choice of the task *)

Lemma pickTask_dead (t : ExecutorThread) (q : TaskQueue) (n : nat)
    (d : ExTask) :
  pq_top (outranks (tasks q)) (readyQueue q) = Some d ->
  isdead (tasks q) d = true ->
  pickTask t q n
  = (true, setCurrentTask d t,
     set_ready q (pq_pop (outranks (tasks q)) (readyQueue q)), n).
Proof.
  intros Htop Hdead. unfold pickTask, ready_top_isdead, _popReadyTask.
  rewrite Htop, Hdead.
  destruct (readyQueue q); [done|]. done.
Qed.

Lemma pickTask_live (t : ExecutorThread) (q : TaskQueue) (n : nat) :
  ready_top_isdead q = false ->
  readyQueue q <> [] \/ pendingQueue q <> [] ->
  exists x,
    pq_top (outranks (tasks q)) (readyQueue (_checkPendingQueue q)) = Some x /\
    pickTask t q n
    = (true, setCurrentTask x t,
       set_ready (_checkPendingQueue q)
         (pq_pop (outranks (tasks q)) (readyQueue (_checkPendingQueue q))), n).
Proof.
  intros Hlive Hwork. unfold pickTask. rewrite Hlive, andb_false_r.
  assert (negb (is_nil (readyQueue q)) || negb (is_nil (pendingQueue q))
          = true) as ->.
  { destruct Hwork as [H|H].
    - destruct (readyQueue q); done.
    - destruct (pendingQueue q); [done|]. by rewrite orb_true_r. }
  assert (readyQueue (_checkPendingQueue q) <> []) as Hne.
  { unfold _checkPendingQueue. destruct (pendingQueue q) as [|p ps] eqn:Hp.
    - destruct Hwork; done.
    - simpl. unfold pq_push. by destruct (readyQueue q). }
  assert (tasks (_checkPendingQueue q) = tasks q) as Htasks.
  { unfold _checkPendingQueue. by destruct (pendingQueue q). }
  unfold _popReadyTask. rewrite Htasks.
  destruct (pq_top (outranks (tasks q)) (readyQueue (_checkPendingQueue q)))
    as [x|] eqn:Htop.
  - by exists x.
  - apply (pq_top_None (outranks (tasks q))) in Htop. done.
Qed.

Lemma pickTask_idle (t : ExecutorThread) (q : TaskQueue) (n : nat) :
  readyQueue q = [] -> pendingQueue q = [] ->
  pickTask t q n = (false, t, q, n - 1).
Proof.
  intros Hr Hp. unfold pickTask, ready_top_isdead. rewrite Hr, Hp. simpl.
  by destruct n; simpl; rewrite ?Nat.sub_0_r.
Qed.

(** *** fetchNextTask: which task is taken *)

Lemma checkPendingQueue_ready (q : TaskQueue) :
  readyQueue (_checkPendingQueue q) = readyQueue q ++ take 1 (pendingQueue q)
  /\ pendingQueue (_checkPendingQueue q) = drop 1 (pendingQueue q)
  /\ futureQueue (_checkPendingQueue q) = futureQueue q
  /\ tasks (_checkPendingQueue q) = tasks q
  /\ sleepers (_checkPendingQueue q) = sleepers q.
Proof.
  unfold _checkPendingQueue.
  destruct (pendingQueue q) as [|p ps] eqn:Hp; simpl; rewrite ?Hp.
  - rewrite app_nil_r. split_and!; reflexivity.
  - rewrite take_0. split_and!; reflexivity.
Qed.

(** C5, as the code has it: once the sleep step is over and the bulk move
    is made, a dead task at the top of the readyQueue is popped and
    returned without any promotion; otherwise, when the readyQueue or the
    pendingQueue is not empty, the front entry of the pendingQueue, if
    there is one, is pushed into the readyQueue and the top of the
    readyQueue is popped and returned; otherwise nothing is returned. *)
Theorem fetchNextTask_choice (o : SleepOracle) (t : ExecutorThread)
    (toSleep : bool) (q : TaskQueue) (t1 : ExecutorThread) (q1 : TaskQueue) :
  sleepStep o t toSleep q = (true, t1, q1) ->
  let q2 := afterMove t1 q1 in
  let r := fetchNextTask o t toSleep q in
  (ready_top_isdead q2 = true ->
     fetched r = true /\
     is_Some (currentTask (thread r)) /\
     currentTask (thread r) = pq_top (outranks (tasks q2)) (readyQueue q2) /\
     readyQueue (queue r) = pq_pop (outranks (tasks q2)) (readyQueue q2) /\
     pendingQueue (queue r) = pendingQueue q2) /\
  (ready_top_isdead q2 = false ->
   readyQueue q2 <> [] \/ pendingQueue q2 <> [] ->
     let ready3 := readyQueue q2 ++ take 1 (pendingQueue q2) in
     fetched r = true /\
     is_Some (currentTask (thread r)) /\
     currentTask (thread r) = pq_top (outranks (tasks q2)) ready3 /\
     readyQueue (queue r) = pq_pop (outranks (tasks q2)) ready3 /\
     pendingQueue (queue r) = drop 1 (pendingQueue q2)) /\
  (readyQueue q2 = [] -> pendingQueue q2 = [] ->
     fetched r = false /\
     currentTask (thread r) = currentTask t1 /\
     readyQueue (queue r) = [] /\ pendingQueue (queue r) = []).
Proof.
  intros Hsleep q2 r. subst r q2.
  unfold fetchNextTask, _fetchNextTask, afterMove. rewrite Hsleep.
  unfold fetchAwake.
  destruct (_moveReadyTasks (curTime t1) q1) as [n q2] eqn:Hmove. simpl.
  set (t2 := match pq_top (dueBefore (tasks q2)) (futureQueue q2) with
             | Some f => _ | None => _ end).
  assert (currentTask t2 = currentTask t1) as Hcur.
  { subst t2. destruct (pq_top _ (futureQueue q2)); [|done].
    by destruct (_ && _). }
  split_and!.
  - intros Hdead. unfold ready_top_isdead in Hdead.
    destruct (pq_top (outranks (tasks q2)) (readyQueue q2)) as [d|] eqn:Htop;
      [|done].
    rewrite (pickTask_dead t2 q2 n d Htop Hdead). simpl. eauto.
  - intros Hlive Hwork.
    destruct (pickTask_live t2 q2 n Hlive Hwork) as (x & Htop & ->).
    destruct (checkPendingQueue_ready q2) as (Hr & Hp & _).
    simpl. rewrite <- Hr, Htop, Hp. eauto.
  - intros Hr Hp. rewrite (pickTask_idle t2 q2 n Hr Hp). simpl. eauto.
Qed.

Lemma fetchNextTask_choice_witness :
  sleepStep noSleep (aThread NONIO_TASK_IDX 10%Z) false q_ready_pending
  = (true, aThread NONIO_TASK_IDX 10%Z, q_ready_pending) /\
  currentTask (thread (fetchNextTask noSleep (aThread NONIO_TASK_IDX 10%Z) false
                         q_ready_pending)) = Some 1%N /\
  readyQueue (queue (fetchNextTask noSleep (aThread NONIO_TASK_IDX 10%Z) false
                       q_ready_pending)) = [2%N] /\
  pendingQueue (queue (fetchNextTask noSleep (aThread NONIO_TASK_IDX 10%Z) false
                         q_ready_pending)) = [].
Proof.
  split; [reflexivity|].
  destruct (fetchNextTask_choice noSleep (aThread NONIO_TASK_IDX 10%Z) false
              q_ready_pending _ _ eq_refl) as (_ & Hlive & _).
  assert (ready_top_isdead
            (afterMove (aThread NONIO_TASK_IDX 10%Z) q_ready_pending) = false)
    as Htop by (vm_compute; reflexivity).
  assert (readyQueue
            (afterMove (aThread NONIO_TASK_IDX 10%Z) q_ready_pending) <> [])
    as Hne by (vm_compute; discriminate).
  destruct (Hlive Htop (or_introl Hne))
    as (_ & _ & Hcur & Hready & Hpending).
  vm_compute in Hcur, Hready, Hpending.
  split_and!; [exact Hcur | exact Hready | exact Hpending].
Defined.

(** C5 as the specification words it fails where nothing is pending: the
    top of the readyQueue is alive, the readyQueue is not empty, a task is
    returned, and no entry of the pendingQueue was promoted, for there was
    none. *)
Lemma fetchNextTask_promotes_none :
  let q := q_one_ready in
  let r := fetchNextTask noSleep (aThread NONIO_TASK_IDX 10%Z) false q in
  ready_top_isdead q = false /\ readyQueue q <> [] /\
  fetched r = true /\ currentTask (thread r) = Some 1%N /\
  ~ (exists p, pendingQueue q = p :: pendingQueue (queue r)).
Proof.
  simpl. split_and!; try reflexivity; try discriminate.
  intros [p Hp]. discriminate Hp.
Qed.

(** *** fetchNextTask: the bulk move and the notifications *)

Lemma threads_notified_ones (n s : nat) :
  n <= s -> threads_notified s (replicate n notify_one) = n.
Proof.
  revert s. induction n as [|n IH]; intros s Hle; [done|].
  destruct s as [|s]; [lia|]. simpl. rewrite IH; lia.
Qed.

(** _doWake_UNLOCKED(n) wakes n sleepers, or all of them when there are
    fewer. *)
Lemma doWake_notified (q : TaskQueue) (n s : nat) :
  sleepers q = s ->
  threads_notified s (fst (_doWake_UNLOCKED q n)) = Nat.min n s.
Proof.
  intros <-. unfold _doWake_UNLOCKED.
  destruct (Nat.ltb_spec 0 (sleepers q)), (Nat.ltb_spec 0 n); simpl;
    try lia.
  destruct (Nat.ltb_spec n (sleepers q)); simpl.
  - rewrite threads_notified_ones; lia.
  - lia.
Qed.

(** The three ways through the choice of the task. *)
Lemma pickTask_cases (t : ExecutorThread) (q : TaskQueue) (n : nat) :
  (exists d,
     pq_top (outranks (tasks q)) (readyQueue q) = Some d /\
     pickTask t q n
     = (true, setCurrentTask d t,
        set_ready q (pq_pop (outranks (tasks q)) (readyQueue q)), n)) \/
  (exists x,
     pq_top (outranks (tasks q)) (readyQueue (_checkPendingQueue q)) = Some x /\
     pickTask t q n
     = (true, setCurrentTask x t,
        set_ready (_checkPendingQueue q)
          (pq_pop (outranks (tasks q)) (readyQueue (_checkPendingQueue q))),
        n)) \/
  (readyQueue q = [] /\ pendingQueue q = [] /\
   pickTask t q n = (false, t, q, n - 1)).
Proof.
  destruct (ready_top_isdead q) eqn:Hdead.
  - left. unfold ready_top_isdead in Hdead.
    destruct (pq_top (outranks (tasks q)) (readyQueue q)) as [d|] eqn:Htop;
      [|done].
    exists d. split; [done|]. by apply pickTask_dead.
  - destruct (readyQueue q) as [|a r] eqn:Hr.
    + destruct (pendingQueue q) as [|p ps] eqn:Hp.
      * right; right. split_and!; try done. by apply pickTask_idle.
      * right; left. apply pickTask_live; [done|]. right. by rewrite Hp.
    + right; left. apply pickTask_live; [done|]. left. by rewrite Hr.
Qed.

Lemma pickTask_frame (t : ExecutorThread) (q : TaskQueue) (n : nat) :
  let q' := (pickTask t q n).1.2 in
  futureQueue q' = futureQueue q /\ sleepers q' = sleepers q /\
  tasks q' = tasks q.
Proof.
  destruct (checkPendingQueue_ready q) as (_ & _ & Hf & Ht & Hs).
  destruct (pickTask_cases t q n)
    as [(d & _ & ->)|[(x & _ & ->)|(_ & _ & ->)]]; simpl; done.
Qed.

(** C3, as the code has it: when the sleep step is over and finds the
    readyQueue empty, every entry of the futureQueue that is due at the
    thread's time leaves the futureQueue for the readyQueue in one move,
    the thread takes one of the tasks made ready, and of the N entries
    moved N-1 are announced: that many sleepers are woken, or all the
    sleepers when there are fewer.  When the readyQueue is not empty the
    futureQueue is left as it is and nobody is woken. *)
Theorem fetchNextTask_bulk_move (o : SleepOracle) (t : ExecutorThread)
    (toSleep : bool) (q : TaskQueue) (t1 : ExecutorThread) (q1 : TaskQueue) :
  sleepStep o t toSleep q = (true, t1, q1) ->
  let r := fetchNextTask o t toSleep q in
  let dueNow := filter (due (tasks q1) (curTime t1)) (futureQueue q1) in
  (readyQueue q1 = [] ->
     futureQueue (queue r)
     = filter (fun x => ~ due (tasks q1) (curTime t1) x) (futureQueue q1) /\
     readyQueue (afterMove t1 q1) ≡ₚ dueNow /\
     (forall x, x ∈ dueNow ->
        currentTask (thread r) = Some x \/ x ∈ readyQueue (queue r)) /\
     (dueNow <> [] -> fetched r = true) /\
     threads_notified (sleepers q1) (signalled r)
     = Nat.min (length dueNow - 1) (sleepers q1)) /\
  (readyQueue q1 <> [] ->
     futureQueue (queue r) = futureQueue q1 /\ signalled r = []).
Proof.
  intros Hsleep r dueNow. subst r dueNow.
  unfold fetchNextTask, _fetchNextTask, afterMove. rewrite Hsleep.
  unfold fetchAwake. split.
  - intros Hidle.
    destruct (moveReadyTasks_idle (curTime t1) q1 Hidle)
      as (moved & -> & Hperm).
    set (q2 := set_ready _ moved).
    set (t2 := match pq_top _ (futureQueue q2) with
               | Some f => _ | None => _ end).
    pose proof (pickTask_frame t2 q2 (length moved - 1)) as (Hf & Hs & _).
    destruct (pickTask_cases t2 q2 (length moved - 1))
      as [(d & Htop & Hpick)|[(x & Htop & Hpick)|(Hr & Hp & Hpick)]];
      rewrite Hpick in *; simpl in Hf, Hs |- *.
    + split_and!; try done.
      * intros y Hy. rewrite <- Hperm in Hy.
        destruct (pq_pop_elem _ _ (outranks_rank (tasks q1)) moved d y
                    Htop Hy) as [->|Hin]; auto.
      * rewrite <- Hperm. by apply doWake_notified.
    + destruct (checkPendingQueue_ready q2) as (Hr3 & _).
      simpl in Hr3. split_and!; try done.
      * intros y Hy. rewrite <- Hperm in Hy.
        assert (y ∈ readyQueue (_checkPendingQueue q2)) as Hy3.
        { rewrite Hr3. apply elem_of_app. by left. }
        destruct (pq_pop_elem _ _ (outranks_rank (tasks q1)) _ x y
                    Htop Hy3) as [->|Hin]; auto.
      * rewrite <- Hperm. by apply doWake_notified.
    + simpl in Hr. subst moved. split_and!; try done.
      * intros y Hy. rewrite <- Hperm in Hy. by apply elem_of_nil in Hy.
      * intros Hne. symmetry in Hperm. apply Permutation_nil_r in Hperm.
        done.
      * rewrite <- Hperm. simpl. unfold _doWake_UNLOCKED.
        by rewrite andb_false_r.
  - intros Hbusy. rewrite (moveReadyTasks_busy _ _ Hbusy).
    set (t2 := match pq_top _ (futureQueue q1) with
               | Some f => _ | None => _ end).
    pose proof (pickTask_frame t2 q1 0) as (Hf & _).
    destruct (pickTask_cases t2 q1 0)
      as [(d & Htop & Hpick)|[(x & Htop & Hpick)|(Hr & Hp & Hpick)]];
      rewrite Hpick in *; simpl in Hf |- *; try done.
    all: split; [done|]; unfold _doWake_UNLOCKED; by rewrite andb_false_r.
Qed.

Lemma fetchNextTask_bulk_move_witness :
  sleepStep noSleep (aThread NONIO_TASK_IDX 10%Z) false q_future
  = (true, aThread NONIO_TASK_IDX 10%Z, q_future) /\
  futureQueue (queue (fetchNextTask noSleep (aThread NONIO_TASK_IDX 10%Z)
                        false q_future)) = [4%N] /\
  threads_notified 5 (signalled (fetchNextTask noSleep
                        (aThread NONIO_TASK_IDX 10%Z) false q_future)) = 2.
Proof.
  split; [reflexivity|].
  destruct (fetchNextTask_bulk_move noSleep (aThread NONIO_TASK_IDX 10%Z)
              false q_future _ _ eq_refl) as [Hidle _].
  destruct (Hidle eq_refl) as (Hfuture & _ & _ & _ & Hwoken).
  split; [exact Hfuture | exact Hwoken].
Defined.

Example fetchNextTask_bulk_move_run :
  let r := fetchNextTask noSleep (aThread NONIO_TASK_IDX 10%Z) false q_future in
  currentTask (thread r) = Some 3%N /\ readyQueue (queue r) = [1%N; 2%N] /\
  signalled r = [notify_one; notify_one].
Proof. by vm_compute. Qed.

(** C3 as the specification words it fails when the readyQueue is not
    empty: task 3 is due at the thread's time, and after the call it is
    still in the futureQueue, not in the readyQueue, and it is not the task
    the thread took. *)
Lemma fetchNextTask_leaves_due_entry :
  let t := aThread NONIO_TASK_IDX 10%Z in
  let r := fetchNextTask noSleep t false q_busy in
  3%N ∈ futureQueue q_busy /\ due (tasks q_busy) (curTime t) 3%N /\
  futureQueue (queue r) = [3%N] /\ readyQueue (queue r) = [] /\
  currentTask (thread r) = Some 1%N.
Proof.
  simpl. split_and!; try reflexivity.
  - left.
  - unfold due. vm_compute. discriminate.
Qed.

(** *** wake *)

Lemma wake_scan_filter (h : Heap) (task : ExTask) (pending : list ExTask) :
  wake_scan h task pending
  = (filter (wakeSelects h task) pending,
     filter (fun tid => ~ wakeSelects h task tid) pending).
Proof.
  induction pending as [|tid rest IH]; [done|].
  simpl. rewrite IH. unfold isdead.
  destruct (decide (wakeSelects h task tid)) as [Hsel|Hsel].
  - rewrite filter_cons_True, filter_cons_False by tauto.
    destruct Hsel as [Hid|Hdead].
    + by rewrite bool_decide_true.
    + by rewrite (bool_decide_true (state _ = _)), orb_true_r.
  - rewrite filter_cons_False, filter_cons_True by tauto.
    unfold wakeSelects in Hsel.
    rewrite !bool_decide_false by tauto. done.
Qed.

Lemma wake_requeue_spec (h : Heap) (now : time_point)
    (notReady future : list ExTask) (k : nat) :
  wake_requeue h now notReady future k
  = (future ++ notReady, k + length (filter (wakeCounts h now) notReady)).
Proof.
  revert future k. induction notReady as [|tid rest IH]; intros future k.
  - simpl. by rewrite app_nil_r, Nat.add_0_r.
  - simpl. rewrite IH. unfold pq_push. rewrite <- app_assoc. simpl.
    f_equal. unfold isdead.
    destruct (decide (wakeCounts h now tid)) as [Hc|Hc].
    + rewrite filter_cons_True by done. simpl.
      destruct Hc as [Hdue|Hdead].
      * unfold due in Hdue. apply Z.leb_le in Hdue. rewrite Hdue. simpl. lia.
      * rewrite (bool_decide_true (state _ = _)), orb_true_r by done. lia.
    + rewrite filter_cons_False by done.
      unfold wakeCounts, due in Hc.
      destruct (Z.leb_spec (waketime (h tid)) now); [tauto|].
      rewrite bool_decide_false by tauto. done.
Qed.

Lemma setState_waketime (h : Heap) (t u : ExTask) (to from : task_state_t) :
  waketime ((setState h t to from).2 u) = waketime (h u).
Proof.
  unfold setState. destruct (decide (state (h t) = from)); [|done].
  simpl. unfold heap_set. by destruct (decide (u = t)) as [->|].
Qed.

(** What wake does to the tasks and to the three queues, and how many
    sleepers it wakes. *)
Lemma wake_effect (now : time_point) (sleepQ : option TaskQueue)
    (task : ExTask) (q : TaskQueue) :
  let r := wake now sleepQ task q in
  let notReady := filter (wakeSelects (tasks q) task) (pendingQueue q) in
  thrown r = None /\
  waketime (tasks (after r) task) = now /\
  (forall u, u <> task ->
     waketime (tasks (after r) u) = waketime (tasks q u)) /\
  readyQueue (after r) = readyQueue q /\
  futureQueue (after r) = futureQueue q ++ notReady /\
  pendingQueue (after r)
  = filter (fun tid => ~ wakeSelects (tasks q) task tid) (pendingQueue q) /\
  threads_notified (sleepers q) (signalled_here r)
  = Nat.min (1 + length (filter (wakeCounts (tasks (after r)) now) notReady))
            (sleepers q).
Proof.
  intros r notReady. subst r notReady. unfold wake, _wake.
  rewrite wake_scan_filter. simpl. rewrite wake_requeue_spec.
  set (h' := (setState _ task TASK_RUNNING TASK_SNOOZED).2).
  set (fut := futureQueue q ++ _).
  set (rc := 1 + _).
  set (qa := set_future _ fut).
  assert (sleepers qa = sleepers q) as Hs by done.
  pose proof (doWake_notified qa rc _ Hs) as Hwoken.
  destruct (_doWake_UNLOCKED qa rc) as [evs rc'] eqn:Hw. cbn [fst] in Hwoken.
  assert (waketime (h' task) = now) as Hnow.
  { subst h'. rewrite setState_waketime.
    unfold updateWaketime. by rewrite heap_set_same. }
  assert (forall u, u <> task -> waketime (h' u) = waketime (tasks q u))
    as Hother.
  { intros u Hu. subst h'. rewrite setState_waketime.
    unfold updateWaketime. by rewrite heap_set_other. }
  destruct sleepQ; simpl; split_and!; done.
Qed.

(** What _doWake_UNLOCKED leaves in its reference argument. *)
Lemma doWake_remainder (q : TaskQueue) (n : nat) :
  snd (_doWake_UNLOCKED q n) = n - sleepers q.
Proof.
  unfold _doWake_UNLOCKED.
  destruct (Nat.ltb_spec 0 (sleepers q)), (Nat.ltb_spec 0 n); simpl;
    try lia.
  destruct (Nat.ltb_spec n (sleepers q)); simpl; lia.
Qed.

(** What wake signals on the sleep queue: what is left of readyCount once
    the sleepers of this queue are served. *)
Lemma wake_signals_sleepQ (now : time_point) (sleepQ : option TaskQueue)
    (task : ExTask) (q : TaskQueue) :
  let r := wake now sleepQ task q in
  let notReady := filter (wakeSelects (tasks q) task) (pendingQueue q) in
  let readyCount :=
    1 + length (filter (wakeCounts (tasks (after r)) now) notReady) in
  threads_notified (sleepersOf sleepQ) (signalled_sleepQ r)
  = Nat.min (readyCount - sleepers q) (sleepersOf sleepQ) /\
  (sleepQ = None -> signalled_sleepQ r = []).
Proof.
  intros r notReady readyCount. subst r notReady readyCount.
  unfold wake, _wake.
  rewrite wake_scan_filter. simpl. rewrite wake_requeue_spec.
  set (h' := (setState _ task TASK_RUNNING TASK_SNOOZED).2).
  set (fut := futureQueue q ++ _).
  set (rc := 1 + _).
  set (qa := set_future _ fut).
  assert (sleepers qa = sleepers q) as Hs by done.
  pose proof (doWake_remainder qa rc) as Hrem. rewrite Hs in Hrem.
  destruct (_doWake_UNLOCKED qa rc) as [evs rc'] eqn:Hw. cbn [snd] in Hrem.
  subst rc'.
  destruct sleepQ as [other|]; simpl.
  - split; [|done]. unfold doWake. by apply doWake_notified.
  - split; [lia|done].
Qed.

(** C2, as the code has it: wake sets the waketime of the task to the
    current time and never touches the readyQueue.  The task, if it is
    pending, leaves the pendingQueue for the futureQueue (the dead pending
    tasks go with it); if it is in the futureQueue it stays there, now due.
    readyCount threads are signalled, one for the task and one for each
    entry moved that is due or dead: the sleepers of this queue first,
    and, when the sleep queue is another queue, its thread-group for what
    is left of the count.  So a sleeper of the queue or of the sleep queue
    is woken when there is one. *)
Theorem wake_requeues_in_future (now : time_point) (sleepQ : option TaskQueue)
    (task : ExTask) (q : TaskQueue) :
  let r := wake now sleepQ task q in
  let notReady := filter (wakeSelects (tasks q) task) (pendingQueue q) in
  thrown r = None /\
  waketime (tasks (after r) task) = now /\
  (forall u, u <> task ->
     waketime (tasks (after r) u) = waketime (tasks q u)) /\
  readyQueue (after r) = readyQueue q /\
  futureQueue (after r) = futureQueue q ++ notReady /\
  pendingQueue (after r)
  = filter (fun tid => ~ wakeSelects (tasks q) task tid) (pendingQueue q) /\
  (task ∈ pendingQueue q ->
     task ∈ futureQueue (after r) /\ task ∉ pendingQueue (after r)) /\
  (task ∈ futureQueue q ->
     task ∈ futureQueue (after r) /\ due (tasks (after r)) now task) /\
  (1 <= sleepers q ->
     1 <= threads_notified (sleepers q) (signalled_here r)) /\
  let readyCount :=
    1 + length (filter (wakeCounts (tasks (after r)) now) notReady) in
  threads_notified (sleepers q) (signalled_here r)
  = Nat.min readyCount (sleepers q) /\
  threads_notified (sleepersOf sleepQ) (signalled_sleepQ r)
  = Nat.min (readyCount - sleepers q) (sleepersOf sleepQ) /\
  (sleepQ = None -> signalled_sleepQ r = []) /\
  wokenBy sleepQ q r = Nat.min readyCount (sleepers q + sleepersOf sleepQ) /\
  (1 <= sleepers q + sleepersOf sleepQ -> 1 <= wokenBy sleepQ q r).
Proof.
  intros r notReady.
  destruct (wake_effect now sleepQ task q)
    as (Hthrown & Hnow & Hother & Hready & Hfuture & Hpending & Hwoken).
  destruct (wake_signals_sleepQ now sleepQ task q) as (Hsleep & Hnone).
  fold r in Hthrown, Hnow, Hother, Hready, Hfuture, Hpending, Hwoken,
            Hsleep, Hnone.
  fold notReady in Hwoken, Hsleep.
  assert (wokenBy sleepQ q r
          = Nat.min (1 + length (filter (wakeCounts (tasks (after r)) now)
                                        notReady))
                    (sleepers q + sleepersOf sleepQ)) as Hall.
  { unfold wokenBy. rewrite Hwoken, Hsleep. lia. }
  split_and!; try done.
  - intros Hin. rewrite Hfuture, Hpending. split.
    + apply elem_of_app. right.
      apply list_elem_of_filter. split; [by left|done].
    + intros [Hsel _]%list_elem_of_filter. apply Hsel. by left.
  - intros Hin. split.
    + rewrite Hfuture. apply elem_of_app. by left.
    + unfold due. rewrite Hnow. lia.
  - intros Hone. rewrite Hwoken. lia.
  - intros readyCount. subst readyCount. split_and!; try done.
    intros Hone. rewrite Hall. lia.
Qed.

Lemma wake_requeues_in_future_witness :
  1%N ∈ pendingQueue q_asleep /\ 1 <= sleepers q_asleep /\
  futureQueue (after (wake 10%Z None 1%N q_asleep)) = [4%N; 1%N; 9%N] /\
  pendingQueue (after (wake 10%Z None 1%N q_asleep)) = [2%N] /\
  1%N ∈ futureQueue (after (wake 10%Z None 1%N q_asleep)) /\
  1 <= threads_notified 1 (signalled_here (wake 10%Z None 1%N q_asleep)).
Proof.
  assert (1%N ∈ pendingQueue q_asleep) as Hin by (simpl; left).
  destruct (wake_requeues_in_future 10%Z None 1%N q_asleep)
    as (_ & _ & _ & _ & Hfuture & Hpending & Hpend & _ & Hsig & _).
  split_and!;
    [exact Hin | simpl; lia | exact Hfuture | exact Hpending
    | exact (proj1 (Hpend Hin)) | apply Hsig; simpl; lia].
Defined.

(** The sleep queue at work: with one sleeper on the queue and five on
    the sleep queue, waking the pending task 1 counts three entries (the
    wake itself, task 1, now due, and the dead task 9 that moves with it),
    wakes the sleeper of the queue and signals two of the sleep queue. *)
Example wake_signals_sleep_queue :
  signalled_here (wake 10%Z (Some q_future) 1%N q_asleep) = [notify_all] /\
  signalled_sleepQ (wake 10%Z (Some q_future) 1%N q_asleep)
  = [notify_one; notify_one].
Proof. by vm_compute. Qed.

(** C2 as the specification words it fails on both queues: a woken task is
    never moved to the readyQueue.  Task 4 of the futureQueue and task 2 of
    the pendingQueue are in the futureQueue after wake, and the readyQueue
    is as empty as before. *)
Lemma wake_moves_nothing_to_ready :
  4%N ∈ futureQueue q_asleep /\ 2%N ∈ pendingQueue q_asleep /\
  readyQueue (after (wake 10%Z None 4%N q_asleep)) = [] /\
  futureQueue (after (wake 10%Z None 4%N q_asleep)) = [4%N; 9%N] /\
  readyQueue (after (wake 10%Z None 2%N q_asleep)) = [] /\
  futureQueue (after (wake 10%Z None 2%N q_asleep)) = [4%N; 2%N; 9%N].
Proof.
  split_and!; try reflexivity.
  - simpl. left.
  - simpl. right. left.
Qed.

(** *** fetchNextTask: no task before its time, the ready tasks by priority *)

Lemma sleepStep_atomic (cb ca : time_point) (ts : bool)
    (sow : executor_state_t) (t : ExecutorThread) (toSleep : bool)
    (q : TaskQueue) (b : bool) (t1 : ExecutorThread) (q1 : TaskQueue) :
  sleepStep (atomicOracle cb ca ts sow) t toSleep q = (b, t1, q1) ->
  readyQueue q1 = readyQueue q /\ futureQueue q1 = futureQueue q /\
  pendingQueue q1 = pendingQueue q /\ tasks q1 = tasks q /\
  (curTime t1 = curTime t \/ curTime t1 = cb \/ curTime t1 = ca).
Proof.
  unfold sleepStep, _doSleep, atomicOracle. simpl.
  destruct toSleep; [|intros [= <- <- <-]; tauto].
  destruct (_ && _); [|intros [= <- <- <-]; simpl; tauto].
  destruct (decide _); [|intros [= <- <- <-]; simpl; tauto].
  destruct (decide _); intros [= <- <- <-]; simpl; tauto.
Qed.

Lemma due_mono (h : Heap) (tv tv' : time_point) (x : ExTask) :
  (tv <= tv')%Z -> due h tv x -> due h tv' x.
Proof. unfold due. lia. Qed.

(** What the bulk move leaves when nothing is pending and the ready
    entries are due. *)
Lemma moveReadyTasks_due (t1 : ExecutorThread) (q1 : TaskQueue)
    (tnow : time_point) :
  pendingQueue q1 = [] ->
  (forall x, x ∈ readyQueue q1 -> due (tasks q1) tnow x) ->
  (curTime t1 <= tnow)%Z ->
  exists n q2,
    _moveReadyTasks (curTime t1) q1 = (n, q2) /\
    pendingQueue q2 = [] /\ tasks q2 = tasks q1 /\
    (forall y, y ∈ readyQueue q2 -> due (tasks q1) tnow y).
Proof.
  intros Hp Hdue Hclock.
  destruct (readyQueue q1) as [|a r] eqn:Hr.
  - destruct (moveReadyTasks_idle (curTime t1) q1 Hr) as (moved & -> & Hperm).
    eexists _, _. split; [done|]. simpl. split_and!; try done.
    intros y Hy. rewrite Hperm in Hy.
    apply list_elem_of_filter in Hy as [Hy _].
    by eapply due_mono.
  - assert (readyQueue q1 <> []) as Hbusy by (by rewrite Hr).
    rewrite (moveReadyTasks_busy (curTime t1) q1 Hbusy).
    eexists _, _. split; [done|]. rewrite Hr. done.
Qed.

Lemma fetchAwake_order (t1 : ExecutorThread) (q1 : TaskQueue)
    (tnow : time_point) :
  pendingQueue q1 = [] ->
  (forall x, x ∈ readyQueue q1 -> due (tasks q1) tnow x) ->
  (curTime t1 <= tnow)%Z ->
  let r := fetchAwake t1 q1 in
  let ready2 := readyQueue (afterMove t1 q1) in
  tasks (queue r) = tasks q1 /\ pendingQueue (queue r) = [] /\
    (forall y, y ∈ ready2 -> due (tasks q1) tnow y) /\
    ((fetched r = false /\ ready2 = [] /\ readyQueue (queue r) = []) \/
     (exists x older newer,
        fetched r = true /\ currentTask (thread r) = Some x /\
        ready2 = older ++ x :: newer /\
        readyQueue (queue r) = older ++ newer /\
        (forall y, y ∈ older ->
           priority (tasks q1 x) < priority (tasks q1 y)) /\
        (forall y, y ∈ newer ->
           priority (tasks q1 x) <= priority (tasks q1 y)))).
Proof.
  intros Hp Hdue Hclock r ready2. subst r ready2.
  unfold fetchAwake, afterMove.
  destruct (moveReadyTasks_due t1 q1 tnow Hp Hdue Hclock)
    as (n & q2 & -> & Hp2 & Ht2 & Hdue2). cbn [snd].
  set (t2 := match pq_top _ (futureQueue q2) with
             | Some f => _ | None => _ end).
  destruct (checkPendingQueue_ready q2) as (Hr3 & Hp3 & _ & Ht3 & _).
  rewrite Hp2 in Hr3, Hp3. simpl in Hr3, Hp3. rewrite app_nil_r in Hr3.
  destruct (pickTask_cases t2 q2 n)
    as [(d & Htop & ->)|[(x & Htop & ->)|(Hr & _ & ->)]]; simpl.
  - split_and!; try done. right.
    destruct (pq_top_split _ _ (outranks_rank (tasks q2)) _ _ Htop)
      as (older & newer & Hsplit & Hold & Hnew & Hpop).
    exists d, older, newer. rewrite <- Ht2. split_and!; try done.
    + intros y Hy. specialize (Hold y Hy). lia.
    + intros y Hy. specialize (Hnew y Hy). lia.
  - rewrite Hr3 in Htop |- *.
    split; [congruence|]. split; [exact Hp3|]. split; [done|]. right.
    destruct (pq_top_split _ _ (outranks_rank (tasks q2)) _ _ Htop)
      as (older & newer & Hsplit & Hold & Hnew & Hpop).
    exists x, older, newer. rewrite <- Ht2. split_and!; try done.
    + intros y Hy. specialize (Hold y Hy). lia.
    + intros y Hy. specialize (Hnew y Hy). lia.
  - split_and!; try done. by left.
Qed.

Lemma schedule_frame (sleepQ : option TaskQueue) (task : ExTask)
    (q : TaskQueue) :
  let r := schedule sleepQ task q in
  readyQueue (after r) = readyQueue q /\
  pendingQueue (after r) = pendingQueue q /\
  forall u, waketime (tasks (after r) u) = waketime (tasks q u).
Proof.
  unfold schedule, _schedule.
  assert (forall u,
            waketime ((setState (tasks q) task TASK_RUNNING TASK_DEAD).2 u)
            = waketime (tasks q u)) as Hw
    by (intros u; apply setState_waketime).
  destruct (setState (tasks q) task TASK_RUNNING TASK_DEAD) as [changed h].
  simpl in Hw.
  destruct (changed && _); [by simpl|].
  destruct (_doWake_UNLOCKED _ 1) as [evs n].
  destruct sleepQ; simpl; split_and!; try done.
Qed.

(** Every call keeps the pendingQueue empty and the ready entries due. *)
Lemma perform_readyDue (c : Call) (w w' : World) :
  readyDue w -> perform c w = Some w' -> readyDue w'.
Proof.
  intros [Hp Hdue] Hperform. unfold readyDue.
  destruct c as [d|task tp|sleepQ task|task|sleepQ task|cb ca ts sow t toSleep];
    simpl in Hperform.
  - destruct (Z.leb_spec 0 d); [|done]. injection Hperform as <-. simpl.
    split; [done|]. intros x Hx. eapply due_mono; [|by apply Hdue]. lia.
  - destruct (decide (task ∈ readyQueue (tq w))) as [|Hnotin]; [done|].
    injection Hperform as <-. simpl. split; [done|].
    intros x Hx. unfold due, updateWaketime.
    rewrite heap_set_other by (intros ->; done). by apply Hdue.
  - injection Hperform as <-. simpl.
    destruct (schedule_frame sleepQ task (tq w)) as (Hr & Hp' & Hw).
    rewrite Hr, Hp'. split; [done|].
    intros x Hx. unfold due. rewrite Hw. by apply Hdue.
  - injection Hperform as <-. simpl. done.
  - injection Hperform as <-. simpl.
    destruct (wake_effect (now w) sleepQ task (tq w))
      as (_ & Hnow & Hother & Hready & _ & Hpending & _).
    rewrite Hready, Hpending, Hp. split; [done|].
    intros x Hx. unfold due.
    destruct (decide (x = task)) as [->|Hne].
    + rewrite Hnow. lia.
    + rewrite Hother by done. by apply Hdue.
  - destruct (clockOk w cb ca t) eqn:Hclock; [|done].
    injection Hperform as <-. simpl.
    unfold clockOk in Hclock.
    apply andb_prop in Hclock as [[Ht Hcb]%andb_prop Hca].
    apply Z.leb_le in Ht, Hcb, Hca.
    unfold fetchNextTask, _fetchNextTask.
    destruct (sleepStep _ t toSleep (tq w)) as [[awake t1] q1] eqn:Hsleep.
    destruct (sleepStep_atomic _ _ _ _ _ _ _ _ _ _ Hsleep)
      as (Hr1 & _ & Hp1 & Ht1 & Hclock1).
    assert (curTime t1 <= now w)%Z as Hnow1
      by (destruct Hclock1 as [->|[->| ->]]; done).
    destruct awake; simpl.
    + destruct (fetchAwake_order t1 q1 (now w))
        as (Htasks & Hpend & Hdue2 & Hcases).
      * congruence.
      * rewrite Hr1, Ht1. done.
      * done.
      * split; [done|]. rewrite Htasks, Ht1 in *.
        destruct Hcases
          as [(_ & _ & ->)|(x & older & newer & _ & _ & Hsplit & -> & _)].
        -- intros y Hy. by apply elem_of_nil in Hy.
        -- intros y Hy. apply Hdue2. rewrite Hsplit.
           rewrite elem_of_app, elem_of_cons.
           apply elem_of_app in Hy. tauto.
    + rewrite Hr1, Hp1, Ht1. done.
Qed.

Lemma reachable_readyDue (w : World) : reachable w -> readyDue w.
Proof.
  induction 1 as [w (Hr & _ & Hp)|w c w' _ IH Hperform].
  - split; [done|]. rewrite Hr. intros x Hx. by apply elem_of_nil in Hx.
  - by eapply perform_readyDue.
Qed.

Lemma runCalls_reachable (cs : list Call) (w w' : World) :
  reachable w -> runCalls cs w = Some w' -> reachable w'.
Proof.
  revert w. induction cs as [|c cs IH]; intros w Hw Hrun; simpl in Hrun.
  - by injection Hrun as <-.
  - destruct (perform c w) as [w1|] eqn:Hperform; [|done].
    eapply IH; [|done]. by eapply reachable_perform.
Qed.

(** C4, as the code has it: in every run of the queue, a task that
    fetchNextTask returns is due, that is, its waketime (as wake or its
    owner last set it) is not after the current time; it is taken from the
    readyQueue, whose entries are all due; no entry of the readyQueue has a
    higher priority, and among the entries of its priority it is the one
    that arrived first: the readyQueue at the pop is [older ++ x :: newer],
    where every entry of [older] has a strictly lower priority than the
    task [x] returned, and the pop leaves [older ++ newer].  When the
    readyQueue is not empty at the call it is this queue that is popped. *)
Theorem fetchNextTask_order (w : World) (cb ca : time_point) (ts : bool)
    (sow : executor_state_t) (t : ExecutorThread) (toSleep : bool) :
  reachable w ->
  clockOk w cb ca t = true ->
  let r := fetchNextTask (atomicOracle cb ca ts sow) t toSleep (tq w) in
  fetched r = true ->
  exists x older newer,
    currentTask (thread r) = Some x /\
    due (tasks (tq w)) (now w) x /\
    (forall y, y ∈ older ++ x :: newer -> due (tasks (tq w)) (now w) y) /\
    readyQueue (queue r) = older ++ newer /\
    (forall y, y ∈ older ->
       priority (tasks (tq w) x) < priority (tasks (tq w) y)) /\
    (forall y, y ∈ newer ->
       priority (tasks (tq w) x) <= priority (tasks (tq w) y)) /\
    readyAtPop (atomicOracle cb ca ts sow) t toSleep (tq w)
    = older ++ x :: newer /\
    (readyQueue (tq w) <> [] -> readyQueue (tq w) = older ++ x :: newer).
Proof.
  intros Hreach Hclock r Hfetched. subst r.
  unfold readyAtPop.
  destruct (reachable_readyDue w Hreach) as [Hp Hdue].
  unfold clockOk in Hclock.
  apply andb_prop in Hclock as [[Ht Hcb]%andb_prop Hca].
  apply Z.leb_le in Ht, Hcb, Hca.
  unfold fetchNextTask, _fetchNextTask in *.
  destruct (sleepStep _ t toSleep (tq w)) as [[awake t1] q1] eqn:Hsleep.
  destruct (sleepStep_atomic _ _ _ _ _ _ _ _ _ _ Hsleep)
    as (Hr1 & _ & Hp1 & Ht1 & Hclock1).
  assert (curTime t1 <= now w)%Z as Hnow1
    by (destruct Hclock1 as [->|[->| ->]]; done).
  destruct awake; [|done].
  destruct (fetchAwake_order t1 q1 (now w))
    as (_ & _ & Hdue2 & Hcases).
  - congruence.
  - rewrite Hr1, Ht1. done.
  - done.
  - rewrite Ht1 in *.
    destruct Hcases as [(Hnone & _)|(x & older & newer & _ & Hcur & Hsplit
                                     & Hready & Hold & Hnew)].
    + congruence.
    + exists x, older, newer. rewrite <- Hsplit. split_and!; try done.
      * apply Hdue2. rewrite Hsplit. apply elem_of_app. right. by left.
      * intros Hbusy. unfold afterMove.
        rewrite moveReadyTasks_busy by (by rewrite Hr1). simpl. by rewrite Hr1.
Qed.

Lemma w_start_initial : initial w_start.
Proof. by repeat split. Qed.

Lemma fetchNextTask_order_witness :
  reachable w_two /\
  clockOk w_two 0%Z 0%Z (aThread NONIO_TASK_IDX 10%Z) = true /\
  fetched (fetchNextTask (atomicOracle 0%Z 0%Z false EXECUTOR_SLEEPING)
             (aThread NONIO_TASK_IDX 10%Z) false (tq w_two)) = true /\
  exists x older newer,
    currentTask
      (thread (fetchNextTask (atomicOracle 0%Z 0%Z false EXECUTOR_SLEEPING)
                 (aThread NONIO_TASK_IDX 10%Z) false (tq w_two))) = Some x /\
    due (tasks (tq w_two)) (now w_two) x /\
    (forall y, y ∈ older ++ x :: newer ->
       due (tasks (tq w_two)) (now w_two) y) /\
    readyQueue
      (queue (fetchNextTask (atomicOracle 0%Z 0%Z false EXECUTOR_SLEEPING)
                (aThread NONIO_TASK_IDX 10%Z) false (tq w_two)))
    = older ++ newer /\
    (forall y, y ∈ older ->
       priority (tasks (tq w_two) x) < priority (tasks (tq w_two) y)) /\
    (forall y, y ∈ newer ->
       priority (tasks (tq w_two) x) <= priority (tasks (tq w_two) y)) /\
    readyAtPop (atomicOracle 0%Z 0%Z false EXECUTOR_SLEEPING)
      (aThread NONIO_TASK_IDX 10%Z) false (tq w_two)
    = older ++ x :: newer /\
    (readyQueue (tq w_two) <> [] ->
     readyQueue (tq w_two) = older ++ x :: newer).
Proof.
  assert (reachable w_two) as Hreach.
  { apply (runCalls_reachable calls_two w_start).
    - apply reachable_initial, w_start_initial.
    - vm_compute. reflexivity. }
  assert (clockOk w_two 0%Z 0%Z (aThread NONIO_TASK_IDX 10%Z) = true)
    as Hclock by (vm_compute; reflexivity).
  assert (fetched (fetchNextTask (atomicOracle 0%Z 0%Z false EXECUTOR_SLEEPING)
             (aThread NONIO_TASK_IDX 10%Z) false (tq w_two)) = true)
    as Hfetched by (vm_compute; reflexivity).
  split; [exact Hreach|]. split; [exact Hclock|]. split; [exact Hfetched|].
  exact (fetchNextTask_order w_two 0%Z 0%Z false EXECUTOR_SLEEPING
           (aThread NONIO_TASK_IDX 10%Z) false Hreach Hclock Hfetched).
Defined.

Example fetchNextTask_order_run :
  currentTask
    (thread (fetchNextTask (atomicOracle 0%Z 0%Z false EXECUTOR_SLEEPING)
               (aThread NONIO_TASK_IDX 10%Z) false (tq w_two))) = Some 3%N.
Proof. by vm_compute. Qed.

(** Tasks 1 and 2 have the same priority and task 1 arrived first: it is
    the one returned, and task 2 stays. *)
Example fetchNextTask_fifo :
  let r := fetchNextTask noSleep (aThread NONIO_TASK_IDX 10%Z) false
             (mkTaskQueue NONIO_TASK_IDX [1%N; 2%N] [] [] 0 heap_live) in
  currentTask (thread r) = Some 1%N /\ readyQueue (queue r) = [2%N].
Proof. by vm_compute. Qed.

(** C4 as the specification words it fails on the order of the tasks whose
    waketime is reached.  In this run tasks 2 and 3 are both due, task 3
    has the higher priority, and fetchNextTask returns task 2: the
    readyQueue was not empty, so task 3 was left in the futureQueue. *)
Lemma fetchNextTask_priority_inversion :
  runCalls calls_inversion w_start = Some w_inversion /\
  reachable w_inversion /\
  due (tasks (tq w_inversion)) (now w_inversion) 2%N /\
  due (tasks (tq w_inversion)) (now w_inversion) 3%N /\
  outranks (tasks (tq w_inversion)) 3%N 2%N = true /\
  fetched (fetchNextTask noSleep (aThread NONIO_TASK_IDX 10%Z) false
             (tq w_inversion)) = true /\
  currentTask (thread (fetchNextTask noSleep (aThread NONIO_TASK_IDX 10%Z)
                         false (tq w_inversion))) = Some 2%N /\
  futureQueue (queue (fetchNextTask noSleep (aThread NONIO_TASK_IDX 10%Z)
                        false (tq w_inversion))) = [3%N].
Proof.
  assert (runCalls calls_inversion w_start = Some w_inversion) as Hrun
    by (vm_compute; reflexivity).
  split; [exact Hrun|]. split.
  { exact (runCalls_reachable _ _ _ (reachable_initial _ w_start_initial)
             Hrun). }
  split_and!; try (vm_compute; reflexivity).
  - unfold due. vm_compute. discriminate.
  - unfold due. vm_compute. discriminate.
Qed.

(** *** Further properties of the queue *)

Lemma moveReadyTasks_conserves (tv : time_point) (q : TaskQueue) :
  queuedTasks (_moveReadyTasks tv q).2 ≡ₚ queuedTasks q.
Proof.
  destruct (readyQueue q) as [|a r] eqn:Hr.
  - destruct (moveReadyTasks_idle tv q Hr) as (moved & -> & Hperm).
    unfold queuedTasks. simpl. rewrite Hr, Hperm. simpl.
    rewrite app_assoc. f_equiv. apply filter_app_complement.
  - rewrite moveReadyTasks_busy; [done|]. by rewrite Hr.
Qed.

Lemma checkPendingQueue_conserves (q : TaskQueue) :
  queuedTasks (_checkPendingQueue q) ≡ₚ queuedTasks q.
Proof.
  destruct (checkPendingQueue_ready q) as (Hr & Hp & Hf & _).
  unfold queuedTasks. rewrite Hr, Hp, Hf.
  rewrite <- (take_drop 1 (pendingQueue q)) at 3.
  rewrite <- !app_assoc. f_equiv.
  rewrite !app_assoc. f_equiv. apply Permutation_app_comm.
Qed.

Lemma pq_pop_conserves (before : ExTask -> ExTask -> bool) (rank : ExTask -> Z)
    (q : list ExTask) (x : ExTask) :
  (forall a b, before a b = true <-> (rank a < rank b)%Z) ->
  pq_top before q = Some x -> q ≡ₚ x :: pq_pop before q.
Proof.
  intros Hrank Htop.
  destruct (pq_top_split before rank Hrank q x Htop)
    as (l1 & l2 & -> & _ & _ & ->).
  by rewrite Permutation_middle.
Qed.

(** X1: a call of fetchNextTask neither loses nor duplicates a task: the
    entries of the three queues after the sleep step are those of the
    three queues after the call and the task handed to the thread; the
    tasks themselves are not written. *)
Theorem fetchNextTask_conserves (o : SleepOracle) (t : ExecutorThread)
    (toSleep : bool) (q : TaskQueue) :
  let '(awake, t1, q1) := sleepStep o t toSleep q in
  let r := fetchNextTask o t toSleep q in
  queuedTasks q1 ≡ₚ taken r ++ queuedTasks (queue r) /\
  tasks (queue r) = tasks q1 /\
  (fetched r = true -> is_Some (currentTask (thread r))).
Proof.
  unfold fetchNextTask, _fetchNextTask.
  destruct (sleepStep o t toSleep q) as [[awake t1] q1].
  destruct awake; [|by simpl].
  unfold fetchAwake.
  pose proof (moveReadyTasks_conserves (curTime t1) q1) as Hmove.
  pose proof (moveReadyTasks_frame (curTime t1) q1) as (_ & _ & Htasks & _).
  destruct (_moveReadyTasks (curTime t1) q1) as [n q2]. simpl in Hmove, Htasks.
  set (t2 := match pq_top _ (futureQueue q2) with
             | Some f => _ | None => _ end).
  rewrite <- Hmove, <- Htasks.
  destruct (pickTask_cases t2 q2 n)
    as [(d & Htop & ->)|[(x & Htop & ->)|(Hr & Hp & ->)]];
    unfold taken; simpl.
  - split_and!; [|done|by eauto].
    unfold queuedTasks. simpl.
    by rewrite (pq_pop_conserves _ _ _ _ (outranks_rank (tasks q2)) Htop) at 1.
  - destruct (checkPendingQueue_ready q2) as (_ & _ & _ & Ht3 & _).
    split_and!; [|done|by eauto].
    rewrite <- (checkPendingQueue_conserves q2).
    unfold queuedTasks. simpl.
    by rewrite (pq_pop_conserves _ _ _ _ (outranks_rank (tasks q2)) Htop) at 1.
  - split_and!; done.
Qed.

Lemma setState_state (h : Heap) (t u : ExTask) (to from : task_state_t) :
  state ((setState h t to from).2 u)
  = if decide (u = t /\ state (h t) = from) then to else state (h u).
Proof.
  unfold setState. destruct (decide (state (h t) = from)) as [Hs|Hs]; simpl.
  - unfold heap_set. destruct (decide (u = t)) as [->|Hne].
    + by rewrite decide_True.
    + rewrite decide_False; [done|]. tauto.
  - rewrite decide_False; [done|]. tauto.
Qed.

(** X2: wake neither loses nor duplicates a queued task, and it changes
    the state of no task but the woken one, which it makes Running only if
    it was Snoozed: unlike schedule, wake leaves a Dead task Dead. *)
Theorem wake_conserves (now : time_point) (sleepQ : option TaskQueue)
    (task : ExTask) (q : TaskQueue) :
  let r := wake now sleepQ task q in
  queuedTasks (after r) ≡ₚ queuedTasks q /\
  (forall u, u <> task -> state (tasks (after r) u) = state (tasks q u)) /\
  state (tasks (after r) task)
  = (if decide (state (tasks q task) = TASK_SNOOZED) then TASK_RUNNING
     else state (tasks q task)).
Proof.
  intros r.
  destruct (wake_effect now sleepQ task q)
    as (_ & _ & _ & Hready & Hfuture & Hpending & _).
  fold r in Hready, Hfuture, Hpending.
  assert (forall u,
            state (tasks (after r) u)
            = if decide (u = task /\ state (tasks q task) = TASK_SNOOZED)
              then TASK_RUNNING else state (tasks q u)) as Hstate.
  { intros u. subst r. unfold wake, _wake.
    destruct (wake_scan _ _ _) as [notReady kept]. simpl.
    destruct (wake_requeue _ _ _ _ _) as [future rc].
    destruct (_doWake_UNLOCKED _ rc) as [evs rc'].
    assert (forall qa, tasks (match sleepQ with
                              | Some other =>
                                  mkCallResult None qa evs (doWake other rc').1
                              | None => mkCallResult None qa evs []
                              end).(after) = tasks qa) as Hafter
      by (intros qa; by destruct sleepQ).
    rewrite Hafter. simpl. rewrite setState_state.
    unfold updateWaketime. rewrite heap_set_same. simpl.
    destruct (decide (u = task)) as [->|Hne].
    - by rewrite heap_set_same.
    - rewrite heap_set_other by done.
      repeat (rewrite decide_False by tauto). done. }
  split_and!.
  - unfold queuedTasks. rewrite Hready, Hfuture, Hpending.
    f_equiv. rewrite <- app_assoc. f_equiv. apply filter_app_complement.
  - intros u Hu. rewrite Hstate. rewrite decide_False; [done|tauto].
  - rewrite Hstate.
    destruct (decide (state (tasks q task) = TASK_SNOOZED)) as [Hs|Hs].
    + by rewrite decide_True.
    + rewrite decide_False; [done|tauto].
Qed.

(** X3: _doWake_UNLOCKED wakes as many sleepers as it is asked to, or all
    of them when there are fewer, and leaves in numToWake what it could
    not deliver: the threads woken and the remainder add up to the
    request. *)
Theorem doWake_accounts (q : TaskQueue) (numToWake : nat) :
  let '(evs, remaining) := _doWake_UNLOCKED q numToWake in
  threads_notified (sleepers q) evs = Nat.min numToWake (sleepers q) /\
  threads_notified (sleepers q) evs + remaining = numToWake.
Proof.
  pose proof (doWake_notified q numToWake _ eq_refl) as Hwoken.
  unfold _doWake_UNLOCKED in *.
  destruct (Nat.ltb_spec 0 (sleepers q)), (Nat.ltb_spec 0 numToWake);
    simpl in *; try (split; [done|lia]).
  destruct (Nat.ltb_spec numToWake (sleepers q)); simpl in *;
    (split; [done|lia]).
Qed.

(** X4: a schedule that does not throw wakes exactly one thread when this
    queue or the sleep queue has a sleeper, a sleeper of this queue first;
    a schedule that throws wakes nobody. *)
Theorem schedule_wakes_one (sleepQ : option TaskQueue) (task : ExTask)
    (q : TaskQueue) :
  let r := schedule sleepQ task q in
  (thrown r = None ->
     wokenBy sleepQ q r = Nat.min 1 (sleepers q + sleepersOf sleepQ) /\
     (1 <= sleepers q -> signalled_sleepQ r = [])) /\
  (thrown r <> None -> signalled_here r = [] /\ signalled_sleepQ r = []).
Proof.
  unfold schedule, _schedule, wokenBy.
  destruct (setState (tasks q) task TASK_RUNNING TASK_DEAD) as [changed h].
  destruct (changed && _); cbn [thrown signalled_here signalled_sleepQ];
    [split; [done|by intros _]|].
  set (qa := set_future _ _).
  pose proof (doWake_accounts qa 1) as Hhere.
  destruct (_doWake_UNLOCKED qa 1) as [evs remaining].
  destruct Hhere as [Hwoken Hleft].
  change (sleepers qa) with (sleepers q) in Hwoken, Hleft.
  destruct sleepQ as [other|];
    cbn [thrown signalled_here signalled_sleepQ sleepersOf].
  - split; [|by intros []].
    intros _. unfold doWake.
    pose proof (doWake_accounts other remaining) as Hthere.
    destruct (_doWake_UNLOCKED other remaining) as [evs' remaining'] eqn:Hw.
    cbn [fst]. destruct Hthere as [Hwoken' _]. split; [lia|].
    intros Hone. assert (remaining = 0) as -> by lia.
    unfold _doWake_UNLOCKED in Hw. rewrite andb_false_r in Hw.
    by injection Hw as <- _.
  - split; [|by intros []]. intros _. split; [|done].
    change (threads_notified 0 []) with 0. lia.
Qed.

Lemma pickTask_thread (t : ExecutorThread) (q : TaskQueue) (n : nat) :
  thrWaketime (pickTask t q n).1.1.2 = thrWaketime t /\
  taskType (pickTask t q n).1.1.2 = taskType t /\
  thrState (pickTask t q n).1.1.2 = thrState t.
Proof.
  destruct (pickTask_cases t q n)
    as [(d & _ & ->)|[(x & _ & ->)|(_ & _ & ->)]]; done.
Qed.

(** X5: a thread of the type of the queue that comes back from
    fetchNextTask has recorded a waketime that is not after the waketime
    of any task left in the futureQueue: it will not sleep past the next
    task. *)
Theorem fetchNextTask_records_earliest (o : SleepOracle) (t : ExecutorThread)
    (toSleep : bool) (q : TaskQueue) (t1 : ExecutorThread) (q1 : TaskQueue) :
  sleepStep o t toSleep q = (true, t1, q1) ->
  taskType t1 = queueType q1 ->
  let r := fetchNextTask o t toSleep q in
  (thrWaketime (thread r) <= thrWaketime t1)%Z /\
  forall f, f ∈ futureQueue (queue r) ->
    (thrWaketime (thread r) <= waketime (tasks (queue r) f))%Z.
Proof.
  intros Hsleep Htype r. subst r.
  unfold fetchNextTask, _fetchNextTask. rewrite Hsleep. unfold fetchAwake.
  pose proof (moveReadyTasks_frame (curTime t1) q1) as (_ & _ & _ & Hty).
  destruct (_moveReadyTasks (curTime t1) q1) as [n q2]. simpl in Hty.
  set (t2 := match pq_top _ (futureQueue q2) with
             | Some f => _ | None => _ end).
  assert ((thrWaketime t2 <= thrWaketime t1)%Z /\
          forall f, f ∈ futureQueue q2 ->
                    (thrWaketime t2 <= waketime (tasks q2 f))%Z) as Hgoal.
  { subst t2.
    destruct (pq_top (dueBefore (tasks q2)) (futureQueue q2)) as [top|] eqn:Htop.
    - rewrite bool_decide_true by congruence. simpl.
      pose proof (pq_top_least _ _ (dueBefore_rank (tasks q2))
                    (futureQueue q2) top) as Hmin.
      destruct (Z.ltb_spec (waketime (tasks q2 top)) (thrWaketime t1));
        simpl; (split; [lia|]); intros f Hf'; specialize (Hmin f Htop Hf');
        cbv beta in Hmin; lia.
    - apply (pq_top_None (dueBefore (tasks q2))) in Htop. rewrite Htop.
      split; [lia|]. intros f Hf'. by apply elem_of_nil in Hf'. }
  clearbody t2.
  pose proof (pickTask_thread t2 q2 n) as (Hwt & _).
  pose proof (pickTask_frame t2 q2 n) as (Hf & _ & Ht).
  destruct (pickTask t2 q2 n) as [[[ret t3] q3] n']. simpl in *.
  by rewrite Hwt, Hf, Ht.
Qed.

Lemma fetchNextTask_records_earliest_witness :
  sleepStep noSleep (aThread NONIO_TASK_IDX 10%Z) false q_ready_pending
  = (true, aThread NONIO_TASK_IDX 10%Z, q_ready_pending) /\
  taskType (aThread NONIO_TASK_IDX 10%Z) = queueType q_ready_pending /\
  forall f,
    f ∈ futureQueue (queue (fetchNextTask noSleep (aThread NONIO_TASK_IDX 10%Z)
                              false q_ready_pending)) ->
    (thrWaketime (thread (fetchNextTask noSleep (aThread NONIO_TASK_IDX 10%Z)
                            false q_ready_pending))
     <= waketime (tasks (queue (fetchNextTask noSleep
           (aThread NONIO_TASK_IDX 10%Z) false q_ready_pending)) f))%Z.
Proof.
  split; [reflexivity|]. split; [reflexivity|].
  exact (proj2 (fetchNextTask_records_earliest noSleep
                  (aThread NONIO_TASK_IDX 10%Z) false q_ready_pending _ _
                  eq_refl eq_refl)).
Defined.

(** X6: the functions of taskqueue.cc never put a task into the
    pendingQueue: in every run that starts with the three queues empty it
    stays empty. *)
Theorem pendingQueue_stays_empty (w : World) :
  reachable w -> pendingQueue (tq w) = [].
Proof. intros Hreach. by destruct (reachable_readyDue w Hreach). Qed.

Lemma pendingQueue_stays_empty_witness :
  reachable w_inversion /\ pendingQueue (tq w_inversion) = [].
Proof.
  assert (reachable w_inversion) as Hreach.
  { apply (runCalls_reachable calls_inversion w_start).
    - apply reachable_initial, w_start_initial.
    - vm_compute. reflexivity. }
  split; [exact Hreach | exact (pendingQueue_stays_empty _ Hreach)].
Defined.

(** X7: reschedule pushes the task onto the futureQueue and returns the
    earliest waketime of the futureQueue, which is not after the waketime
    of the task nor of any other entry. *)
Theorem reschedule_returns_earliest (task : ExTask) (q : TaskQueue) :
  let '(rv, q') := _reschedule task q in
  futureQueue q' = pq_push (futureQueue q) task /\
  readyQueue q' = readyQueue q /\ pendingQueue q' = pendingQueue q /\
  tasks q' = tasks q /\
  exists tp top,
    rv = Some tp /\ top ∈ futureQueue q' /\ tp = waketime (tasks q top) /\
    (tp <= waketime (tasks q task))%Z /\
    forall f, f ∈ futureQueue q' -> (tp <= waketime (tasks q f))%Z.
Proof.
  unfold _reschedule. simpl. split_and!; try done.
  destruct (pq_top (dueBefore (tasks q)) (pq_push (futureQueue q) task))
    as [top|] eqn:Htop.
  - pose proof (pq_top_least _ _ (dueBefore_rank (tasks q))
                  (pq_push (futureQueue q) task) top) as Hmin.
    exists (waketime (tasks q top)), top. simpl. split_and!; try done.
    + by eapply pq_top_elem, Htop; apply dueBefore_rank.
    + apply (Hmin task Htop). unfold pq_push. apply elem_of_app. right.
      by left.
    + intros f Hf. by apply Hmin.
  - apply (pq_top_None (dueBefore (tasks q))) in Htop.
    unfold pq_push in Htop. by destruct (futureQueue q).
Qed.

End TaskQueueFacts.

(** ** Engine front-end *)

Module EngineFacts.
Import Engine.

(** Warmup and disabled traffic are the two ways into degraded mode. *)
Lemma isDegradedMode_iff (e : EventuallyPersistentEngine) :
  isDegradedMode e = true <-> isWarmingUp e = true \/ trafficEnabled e = false.
Proof.
  unfold isDegradedMode. destruct (isWarmingUp e), (trafficEnabled e);
    simpl; intuition congruence.
Qed.

Lemma enableTraffic_false_degraded (e : EventuallyPersistentEngine) :
  isDegradedMode (enableTraffic false e).2 = true.
Proof.
  apply isDegradedMode_iff. right. unfold enableTraffic.
  destruct (trafficEnabled e) eqn:He; simpl; done.
Qed.

(** A read is treated as a delete is. *)
Lemma get_degraded (e : EventuallyPersistentEngine) (track : bool)
    (ret : ENGINE_ERROR_CODE) :
  isDegradedMode e = true ->
  (get ret track e).1
  = if bool_decide (ret = ENGINE_KEY_ENOENT)
       || bool_decide (ret = ENGINE_NOT_MY_VBUCKET)
    then ENGINE_TMPFAIL else ret.
Proof.
  intros Hdeg. unfold get. rewrite Hdeg.
  destruct ret; simpl; done.
Qed.

(** C6, as the code has it: while the bucket is warming up or traffic is
    disabled, a store is answered with TempFailure; a delete is answered
    with TempFailure when the bucket says KeyNotFound or NotMyVBucket, and
    with the status of the bucket otherwise. *)
Theorem degraded_mode_writes (e : EventuallyPersistentEngine)
    (ret : ENGINE_ERROR_CODE) :
  isWarmingUp e = true \/ trafficEnabled e = false ->
  isDegradedMode e = true /\
  store ret e = ENGINE_TMPFAIL /\
  (ret = ENGINE_KEY_ENOENT \/ ret = ENGINE_NOT_MY_VBUCKET ->
     (itemDelete ret e).1 = ENGINE_TMPFAIL) /\
  (ret <> ENGINE_KEY_ENOENT -> ret <> ENGINE_NOT_MY_VBUCKET ->
     (itemDelete ret e).1 = ret).
Proof.
  intros Hdeg%isDegradedMode_iff. split; [done|].
  unfold store, itemDelete. rewrite Hdeg. split_and!.
  - done.
  - intros [-> | ->]; done.
  - intros Hne1 Hne2. rewrite !bool_decide_false by done. simpl.
    by destruct (bool_decide (ret = ENGINE_SUCCESS)).
Qed.

Lemma degraded_mode_writes_witness :
  (isWarmingUp trafficDisabled = true \/
   trafficEnabled trafficDisabled = false) /\
  store ENGINE_SUCCESS trafficDisabled = ENGINE_TMPFAIL /\
  (itemDelete ENGINE_KEY_ENOENT trafficDisabled).1 = ENGINE_TMPFAIL.
Proof.
  assert (isWarmingUp trafficDisabled = true \/
          trafficEnabled trafficDisabled = false) as Hoff
    by (right; reflexivity).
  split; [exact Hoff|].
  destruct (degraded_mode_writes trafficDisabled ENGINE_KEY_ENOENT Hoff)
    as (_ & _ & Hmiss & _).
  destruct (degraded_mode_writes trafficDisabled ENGINE_SUCCESS Hoff)
    as (_ & Hstore & _ & _).
  split; [exact Hstore | exact (Hmiss (or_introl eq_refl))].
Defined.

(** C6 as the specification words it fails for delete: with traffic
    disabled, a delete that the bucket carries out is answered with
    Success, and it is counted. *)
Lemma delete_in_degraded_mode_succeeds :
  isDegradedMode trafficDisabled = true /\
  (itemDelete ENGINE_SUCCESS trafficDisabled).1 = ENGINE_SUCCESS /\
  (itemDelete ENGINE_SUCCESS trafficDisabled).1 <> ENGINE_TMPFAIL /\
  numOpsDelete (itemDelete ENGINE_SUCCESS trafficDisabled).2 = 1%Z.
Proof. split_and!; done. Qed.

Lemma itemsStored_insert (l : gmap N (option N)) (cookie : N)
    (result : option N) :
  l !! cookie = None ->
  itemsStored (<[cookie := result]> l) ≡ₚ option_list result ++ itemsStored l.
Proof.
  intros Hnone. unfold itemsStored.
  rewrite (map_to_list_insert l cookie result Hnone). simpl.
  by destruct result.
Qed.

Lemma itemsStored_delete (l : gmap N (option N)) (cookie : N)
    (old : option N) :
  l !! cookie = Some old ->
  itemsStored l ≡ₚ option_list old ++ itemsStored (delete cookie l).
Proof.
  intros Hold. unfold itemsStored.
  rewrite <- (map_to_list_delete l cookie old Hold). simpl.
  by destruct old.
Qed.

Lemma lookupStep_conserves (st : LookupState) (c : LookupCall) :
  itemsAdded [c] ++ itemsDeleted st ++ itemsHanded st
    ++ itemsStored (lookups st)
  ≡ₚ itemsDeleted (lookupStep st c) ++ itemsHanded (lookupStep st c)
    ++ itemsStored (lookups (lookupStep st c)).
Proof.
  destruct c as [cookie result|cookie]; simpl.
  - unfold addLookupResult.
    replace (itemsAdded [AddLookup cookie result]) with (option_list result)
      by (by destruct result).
    destruct (lookups st !! cookie) as [old|] eqn:Hold; simpl.
    + rewrite itemsStored_insert by apply lookup_delete_eq.
      rewrite (itemsStored_delete _ cookie old Hold).
      solve_Permutation.
    + rewrite itemsStored_insert by done. rewrite app_nil_r.
      solve_Permutation.
  - unfold fetchLookupResult.
    destruct (lookups st !! cookie) as [itm|] eqn:Hitm; simpl; [|done].
    rewrite (itemsStored_delete _ cookie itm Hitm).
    solve_Permutation.
Qed.

(** X8: every item passed to addLookupResult() is accounted for once:
    after any run of addLookupResult() and fetchLookupResult() calls it is
    either still in the map, or was deleted when its cookie got a new
    result, or was handed to the one caller that fetched it. *)
Theorem lookups_account_for_items (cs : list LookupCall) :
  let st := fold_left lookupStep cs (mkLookupState ∅ [] []) in
  itemsAdded cs
  ≡ₚ itemsDeleted st ++ itemsHanded st ++ itemsStored (lookups st).
Proof.
  intros st. subst st.
  assert (forall st0,
            itemsAdded cs ++ itemsDeleted st0 ++ itemsHanded st0
              ++ itemsStored (lookups st0)
            ≡ₚ itemsDeleted (fold_left lookupStep cs st0)
              ++ itemsHanded (fold_left lookupStep cs st0)
              ++ itemsStored (lookups (fold_left lookupStep cs st0)))
    as Hgen.
  { induction cs as [|c cs' IH]; intros st0; [done|]. simpl fold_left.
    rewrite <- IH, <- (lookupStep_conserves st0 c).
    change (c :: cs') with ([c] ++ cs'). unfold itemsAdded.
    rewrite omap_app. solve_Permutation. }
  rewrite <- Hgen. simpl. unfold itemsStored.
  rewrite map_to_list_empty. simpl. by rewrite app_nil_r.
Qed.

(** X9: fetchLookupResult() after addLookupResult() on the same cookie
    returns the result added last and erases the entry, so a second fetch
    finds nothing; the entries of the other cookies are as before. *)
Theorem fetchLookupResult_after_add (cookie : N) (result : option N)
    (l : gmap N (option N)) :
  let l1 := (addLookupResult cookie result l).2 in
  let l2 := (fetchLookupResult cookie l1).2 in
  (fetchLookupResult cookie l1).1 = Some result /\
  (fetchLookupResult cookie l2).1 = None /\
  (forall other, other <> cookie -> l2 !! other = l !! other).
Proof.
  intros l1 l2.
  assert (l1 = <[cookie := result]> l) as Hl1.
  { subst l1. unfold addLookupResult.
    destruct (l !! cookie); simpl; [|done]. by rewrite insert_delete_eq. }
  assert (l2 = delete cookie l) as Hl2.
  { subst l2. unfold fetchLookupResult. rewrite Hl1, lookup_insert_eq. simpl.
    by rewrite delete_insert_eq. }
  split; [|split].
  - unfold fetchLookupResult. by rewrite Hl1, lookup_insert_eq.
  - unfold fetchLookupResult. by rewrite Hl2, lookup_delete_eq.
  - intros other Hne. by rewrite Hl2, lookup_delete_ne.
Qed.

Lemma counter_incr_add (c : Z) (k : nat) :
  counter_incr ((c + Z.of_nat k) mod 2 ^ 64)
  = ((c + Z.of_nat (S k)) mod 2 ^ 64)%Z.
Proof.
  unfold counter_incr. rewrite Zplus_mod_idemp_l. f_equal. lia.
Qed.

Lemma frontStep_counts (e : EventuallyPersistentEngine) (c : FrontCall)
    (d g : nat) (d0 g0 : Z) :
  numOpsDelete e = ((d0 + Z.of_nat d) mod 2 ^ 64)%Z ->
  numOpsGet e = ((g0 + Z.of_nat g) mod 2 ^ 64)%Z ->
  let e' := frontStep e c in
  isWarmingUp e' = isWarmingUp e /\ trafficEnabled e' = trafficEnabled e /\
  numOpsDelete e'
  = ((d0 + Z.of_nat (d + deletesCounted [c])) mod 2 ^ 64)%Z /\
  numOpsGet e' = ((g0 + Z.of_nat (g + getsCounted [c])) mod 2 ^ 64)%Z.
Proof.
  intros Hd Hg.
  assert (forall x, deletesCounted [x]
                    = if decide (x = Delete ENGINE_SUCCESS) then 1 else 0)
    as Hdc.
  { intros x. unfold deletesCounted.
    destruct (decide (x = Delete ENGINE_SUCCESS)) as [Heq|Hne].
    - by rewrite filter_cons_True.
    - by rewrite filter_cons_False. }
  assert (forall x, getsCounted [x]
                    = if decide (x = Get ENGINE_SUCCESS true) then 1 else 0)
    as Hgc.
  { intros x. unfold getsCounted.
    destruct (decide (x = Get ENGINE_SUCCESS true)) as [Heq|Hne].
    - by rewrite filter_cons_True.
    - by rewrite filter_cons_False. }
  rewrite Hdc, Hgc. unfold frontStep.
  destruct c as [ret|ret track].
  - rewrite (decide_False (P := Delete ret = Get ENGINE_SUCCESS true))
      by done.
    rewrite Nat.add_0_r. unfold itemDelete.
    destruct (decide (ret = ENGINE_SUCCESS)) as [->|Hne].
    + rewrite decide_True by done. simpl.
      rewrite Hd, counter_incr_add. split_and!; try done.
      by rewrite Nat.add_1_r.
    + rewrite decide_False by congruence. rewrite Nat.add_0_r.
      rewrite (bool_decide_false (ret = ENGINE_SUCCESS)) by done.
      destruct (bool_decide _ || bool_decide _); [|done].
      by destruct (isDegradedMode e).
  - rewrite (decide_False (P := Get ret track = Delete ENGINE_SUCCESS))
      by done.
    rewrite Nat.add_0_r. unfold get.
    destruct (decide (ret = ENGINE_SUCCESS)) as [->|Hne].
    + rewrite bool_decide_true by done. destruct track; simpl.
      * rewrite Hg, counter_incr_add. split_and!; try done.
        by rewrite Nat.add_1_r.
      * by rewrite Nat.add_0_r.
    + rewrite (decide_False (P := Get ret track = Get ENGINE_SUCCESS true))
        by congruence.
      rewrite Nat.add_0_r.
      rewrite (bool_decide_false (ret = ENGINE_SUCCESS)) by done.
      destruct (bool_decide _ || bool_decide _); [|done].
      by destruct (isDegradedMode e).
Qed.

Lemma frontRun_counts (cs : list FrontCall) :
  forall (e : EventuallyPersistentEngine) (d g : nat) (d0 g0 : Z),
    numOpsDelete e = ((d0 + Z.of_nat d) mod 2 ^ 64)%Z ->
    numOpsGet e = ((g0 + Z.of_nat g) mod 2 ^ 64)%Z ->
    let e' := fold_left frontStep cs e in
    numOpsDelete e'
    = ((d0 + Z.of_nat (d + deletesCounted cs)) mod 2 ^ 64)%Z /\
    numOpsGet e' = ((g0 + Z.of_nat (g + getsCounted cs)) mod 2 ^ 64)%Z /\
    isDegradedMode e' = isDegradedMode e.
Proof.
  induction cs as [|c cs' IH]; intros e d g d0 g0 Hd Hg; simpl.
  - unfold deletesCounted, getsCounted. simpl. by rewrite !Nat.add_0_r.
  - destruct (frontStep_counts e c d g d0 g0 Hd Hg) as (Hw & Ht & Hd1 & Hg1).
    destruct (IH (frontStep e c) _ _ d0 g0 Hd1 Hg1) as (Hd2 & Hg2 & Hm).
    assert (deletesCounted (c :: cs')
            = (deletesCounted [c] + deletesCounted cs')%nat) as ->.
    { unfold deletesCounted. change (c :: cs') with ([c] ++ cs').
      by rewrite filter_app, length_app. }
    assert (getsCounted (c :: cs')
            = (getsCounted [c] + getsCounted cs')%nat) as ->.
    { unfold getsCounted. change (c :: cs') with ([c] ++ cs').
      by rewrite filter_app, length_app. }
    rewrite Hd2, Hg2, Hm, !Nat.add_assoc. split_and!; try done.
    unfold isDegradedMode. by rewrite Hw, Ht.
Qed.

(** X10: over any run of itemDelete() and get() calls on counters that
    hold size_t values, numOpsDelete goes up by the number of deletes that
    succeeded in the bucket and numOpsGet by the number of successful gets
    that asked for statistics, both modulo 2^64 as the counters wrap; the
    calls never change what isDegradedMode() reads. *)
Theorem front_end_counts_successes (cs : list FrontCall)
    (e : EventuallyPersistentEngine) :
  (0 <= numOpsDelete e < 2 ^ 64)%Z -> (0 <= numOpsGet e < 2 ^ 64)%Z ->
  let e' := fold_left frontStep cs e in
  numOpsDelete e'
  = ((numOpsDelete e + Z.of_nat (deletesCounted cs)) mod 2 ^ 64)%Z /\
  numOpsGet e' = ((numOpsGet e + Z.of_nat (getsCounted cs)) mod 2 ^ 64)%Z /\
  isDegradedMode e' = isDegradedMode e.
Proof.
  intros Hd Hg.
  apply (frontRun_counts cs e 0 0 (numOpsDelete e) (numOpsGet e)).
  - rewrite Z.add_0_r. symmetry. by apply Z.mod_small.
  - rewrite Z.add_0_r. symmetry. by apply Z.mod_small.
Qed.

(** At the end of the range the counter wraps: the delete that follows
    2^64 - 1 counted ones brings numOpsDelete back to 0. *)
Lemma front_end_counts_successes_witness :
  let e := mkEngine false true (2 ^ 64 - 1) 0 in
  numOpsDelete (fold_left frontStep
                  [Delete ENGINE_SUCCESS; Get ENGINE_SUCCESS true;
                   Delete ENGINE_KEY_ENOENT] e) = 0%Z /\
  numOpsGet (fold_left frontStep
               [Delete ENGINE_SUCCESS; Get ENGINE_SUCCESS true;
                Delete ENGINE_KEY_ENOENT] e) = 1%Z.
Proof.
  intros e.
  assert (0 <= numOpsDelete e < 2 ^ 64)%Z as Hd by (by vm_compute).
  assert (0 <= numOpsGet e < 2 ^ 64)%Z as Hg by (by vm_compute).
  destruct (front_end_counts_successes
              [Delete ENGINE_SUCCESS; Get ENGINE_SUCCESS true;
               Delete ENGINE_KEY_ENOENT] e Hd Hg) as (Hdel & Hget & _).
  split; [exact Hdel|exact Hget].
Defined.

(** X11: enableTraffic(enable) leaves the flag at [enable] and returns
    true exactly when it has changed it, so the same call made again
    returns false and changes nothing. *)
Theorem enableTraffic_changes_once (enable : bool)
    (e : EventuallyPersistentEngine) :
  let '(changed, e1) := enableTraffic enable e in
  trafficEnabled e1 = enable /\
  (changed = true <-> trafficEnabled e <> enable) /\
  enableTraffic enable e1 = (false, e1).
Proof.
  unfold enableTraffic.
  destruct e as [w t d g], t, enable; simpl; repeat split; done.
Qed.

End EngineFacts.

(** ** HashTable *)

Module HashTableFacts.
Import HashTable.

(** *** The counters *)

Lemma size_t_wrap_id (z : Z) : is_size_t z -> size_t_wrap z = z.
Proof. intros Hz. unfold size_t_wrap. apply Z.mod_small. exact Hz. Qed.

Lemma to_int_small (z : Z) : (0 <= z < 2 ^ 31)%Z -> to_int z = z.
Proof.
  intros Hz. unfold to_int. rewrite Z.mod_small by lia. lia.
Qed.

Lemma interfere_spec (env : list (option Z)) (cell : Z) :
  is_size_t cell -> env_size_t env ->
  let '(v, env') := interfere env cell in
  is_size_t v /\ env_size_t env' /\ length env' <= length env /\
  (v <> cell -> length env' < length env).
Proof.
  intros Hcell Henv. destruct env as [|[v|] rest]; simpl.
  - split_and!; done.
  - split_and!.
    + apply Henv. left.
    + intros u Hu. apply Henv. by right.
    + lia.
    + lia.
  - split_and!; try done.
    + intros u Hu. apply Henv. by right.
    + lia.
Qed.

(** The loop ends before the fuel does, and what it does is a guarded
    decrement. *)
Lemma decrLoop_spec (fuel : nat) :
  forall (env : list (option Z)) (cell : Z),
    length env < fuel -> is_size_t cell -> env_size_t env ->
    exists r, decrLoop fuel env cell = Some r /\ decrOutcomeOk r.
Proof.
  induction fuel as [|fuel IH]; intros env cell Hfuel Hcell Henv; [lia|].
  simpl.
  pose proof (interfere_spec env cell Hcell Henv) as H1.
  destruct (interfere env cell) as [count env1].
  destruct H1 as (Hcount & Henv1 & Hlen1 & _).
  destruct (Z.eqb_spec count 0) as [->|Hpos].
  - eexists. split; [done|]. by unfold decrOutcomeOk.
  - pose proof (interfere_spec env1 count Hcount Henv1) as H2.
    destruct (interfere env1 count) as [current env2].
    destruct H2 as (Hcurrent & Henv2 & Hlen2 & Hchanged).
    destruct (Z.eqb_spec current count) as [->|Hne].
    + eexists. split; [done|]. unfold decrOutcomeOk. simpl.
      rewrite size_t_wrap_id by (unfold is_size_t in *; lia).
      unfold is_size_t in *. split_and!; try done; lia.
    + apply IH; try done. specialize (Hchanged Hne). lia.
Qed.

Lemma interfere_lastStore (env : list (option Z)) (cell : Z) :
  interfere env cell = (lastStore (firstn 1 env) cell, skipn 1 env).
Proof. by destruct env as [|[v|] rest]. Qed.

Lemma lastStore_split (n m : nat) :
  forall (env : list (option Z)) (cell : Z),
    lastStore (firstn (n + m) env) cell
    = lastStore (firstn m (skipn n env)) (lastStore (firstn n env) cell).
Proof.
  induction n as [|n IH]; intros env cell; [done|].
  destruct env as [|a rest]; simpl.
  - by rewrite firstn_nil.
  - apply IH.
Qed.

(** [decrSpec] leaves no choice: the turn that ends the loop and the
    result are determined by what the others store. *)
Lemma decrSpec_unique (env : list (option Z)) (cell : Z) (r r' : DecrResult) :
  decrSpec env cell r -> decrSpec env cell r' -> r = r'.
Proof.
  assert (forall (j j' : nat) (x x' : DecrResult),
            (j < j')%nat ->
            (forall i, (i < j')%nat ->
               atLoad env cell i <> 0%Z /\
               atExchange env cell i <> atLoad env cell i) ->
            (atLoad env cell j = 0%Z /\ x = x') \/
            (atLoad env cell j <> 0%Z /\
             atExchange env cell j = atLoad env cell j /\ x = x') ->
            False) as Hlt.
  { intros j j' x x' Hj Hbefore Hat. destruct (Hbefore j Hj) as [Hl He].
    destruct Hat as [[Hz _]|(_ & Heq & _)]; done. }
  intros (j & Hb & Hat) (j' & Hb' & Hat').
  destruct (Nat.lt_trichotomy j j') as [Hj|[<-|Hj]].
  - destruct (Hlt j j' r r Hj Hb'). tauto.
  - destruct Hat as [[Hz ->]|(Hnz & Heq & ->)],
             Hat' as [[Hz' ->]|(Hnz' & Heq' & ->)]; done.
  - destruct (Hlt j' j r' r' Hj Hb). tauto.
Qed.

(** The loop does what [decrSpec] says. *)
Lemma decrLoop_refines (fuel : nat) :
  forall (env : list (option Z)) (cell : Z),
    length env < fuel -> is_size_t cell -> env_size_t env ->
    exists r, decrLoop fuel env cell = Some r /\ decrSpec env cell r.
Proof.
  induction fuel as [|fuel IH]; intros env cell Hfuel Hcell Henv; [lia|].
  simpl.
  pose proof (interfere_spec env cell Hcell Henv) as H1.
  rewrite interfere_lastStore in H1 |- *.
  change (lastStore (firstn 1 env) cell) with (atLoad env cell 0) in *.
  set (count := atLoad env cell 0) in *.
  destruct H1 as (Hcount & Henv1 & Hlen1 & _).
  destruct (Z.eqb_spec count 0) as [Hzero|Hpos].
  - eexists. split; [done|]. exists 0. split; [intros i Hi; lia|].
    left. by rewrite Hzero.
  - pose proof (interfere_spec (skipn 1 env) count Hcount Henv1) as H2.
    rewrite interfere_lastStore in H2 |- *.
    assert (lastStore (firstn 1 (skipn 1 env)) count = atExchange env cell 0)
      as Hcur.
    { unfold atExchange, count, atLoad. simpl.
      by rewrite (lastStore_split 1 1). }
    rewrite Hcur in H2 |- *.
    assert (skipn 1 (skipn 1 env) = skipn 2 env) as Hskip.
    { by destruct env as [|a [|b rest]]. }
    rewrite Hskip in H2 |- *.
    set (current := atExchange env cell 0) in *.
    destruct H2 as (Hcurrent & Henv2 & Hlen2 & Hchanged).
    destruct (Z.eqb_spec current count) as [Heq|Hne].
    + eexists. split; [done|]. exists 0. split; [intros i Hi; lia|].
      right. fold count current. split; [done|]. split; [done|].
      rewrite size_t_wrap_id by (unfold is_size_t in *; lia). done.
    + destruct (IH (skipn 2 env) current) as (r & Hr & j & Hbefore & Hat);
        [specialize (Hchanged Hne); lia|done|done|].
      exists r. split; [done|].
      assert (forall i, atLoad env cell (S i) = atLoad (skipn 2 env) current i)
        as Hload.
      { intros i. unfold atLoad, current, atExchange.
        replace (2 * S i + 1)%nat with (2 + (2 * i + 1))%nat by lia.
        by rewrite lastStore_split. }
      assert (forall i,
                atExchange env cell (S i)
                = atExchange (skipn 2 env) current i) as Hexch.
      { intros i. unfold current, atExchange.
        replace (2 * S i + 2)%nat with (2 + (2 * i + 2))%nat by lia.
        by rewrite lastStore_split. }
      exists (S j). split.
      * intros [|i] Hi; [done|]. rewrite Hload, Hexch. apply Hbefore. lia.
      * by rewrite Hload, Hexch.
Qed.

(** C7: a decrement of numItems, numTotalItems or numNonResidentItems
    returns, whatever the other threads store into the counter meanwhile;
    it either finds the counter at 0, logs and leaves it at 0, or exchanges
    a value n > 0 for n - 1; it never writes anything else, and it writes
    only the counter.  Under retries it is the decrement of [decrSpec]:
    the value n that is exchanged for n - 1 is the value the counter holds
    at the exchange, after all the stores of the others so far, in the
    first turn in which they have not changed it since the load.  Run
    alone, it maps 0 to 0 and n > 0 to n - 1. *)
Theorem decr_counters_no_underflow (env : list (option Z)) (ht : HashTable) :
  is_size_t (numItems ht) -> is_size_t (numTotalItems ht) ->
  is_size_t (numNonResidentItems ht) -> env_size_t env ->
  (exists ht' r,
     decrNumItems env ht = Some (ht', r) /\
     numItems ht' = cell_after r /\ decrOutcomeOk r /\
     decrSpec env (numItems ht) r /\ ht' = set_numItems ht (cell_after r)) /\
  (exists ht' r,
     decrNumTotalItems env ht = Some (ht', r) /\
     numTotalItems ht' = cell_after r /\ decrOutcomeOk r /\
     decrSpec env (numTotalItems ht) r /\
     ht' = set_numTotalItems ht (cell_after r)) /\
  (exists ht' r,
     decrNumNonResidentItems env ht = Some (ht', r) /\
     numNonResidentItems ht' = cell_after r /\ decrOutcomeOk r /\
     decrSpec env (numNonResidentItems ht) r /\
     ht' = set_numNonResidentItems ht (cell_after r)) /\
  (forall ht' r, decrNumItems [] ht = Some (ht', r) ->
     numItems ht' = if (numItems ht =? 0)%Z then 0%Z
                    else (numItems ht - 1)%Z) /\
  (forall ht' r, decrNumTotalItems [] ht = Some (ht', r) ->
     numTotalItems ht' = if (numTotalItems ht =? 0)%Z then 0%Z
                         else (numTotalItems ht - 1)%Z) /\
  (forall ht' r, decrNumNonResidentItems [] ht = Some (ht', r) ->
     numNonResidentItems ht' = if (numNonResidentItems ht =? 0)%Z then 0%Z
                               else (numNonResidentItems ht - 1)%Z).
Proof.
  intros Hi Ht Hn Henv.
  assert (forall cell, is_size_t cell ->
            decrCounter [] cell
            = Some (if (cell =? 0)%Z then mkDecrResult cell None true
                    else mkDecrResult (cell - 1)
                           (Some (cell, (cell - 1)%Z)) false)) as Halone.
  { intros cell Hcell. unfold decrCounter. simpl.
    destruct (Z.eqb_spec cell 0); [done|]. rewrite Z.eqb_refl.
    rewrite size_t_wrap_id by (unfold is_size_t in *; lia). done. }
  unfold decrNumItems, decrNumTotalItems, decrNumNonResidentItems.
  split_and!.
  - destruct (decrLoop_spec (S (length env)) env (numItems ht))
      as (r & Hr & Hok); try done; [lia|].
    destruct (decrLoop_refines (S (length env)) env (numItems ht))
      as (r' & Hr' & Hspec); try done; [lia|].
    assert (r' = r) as -> by congruence.
    unfold decrCounter. rewrite Hr. simpl. eexists _, _. split; [done|].
    split_and!; done.
  - destruct (decrLoop_spec (S (length env)) env (numTotalItems ht))
      as (r & Hr & Hok); try done; [lia|].
    destruct (decrLoop_refines (S (length env)) env (numTotalItems ht))
      as (r' & Hr' & Hspec); try done; [lia|].
    assert (r' = r) as -> by congruence.
    unfold decrCounter. rewrite Hr. simpl. eexists _, _. split; [done|].
    split_and!; done.
  - destruct (decrLoop_spec (S (length env)) env (numNonResidentItems ht))
      as (r & Hr & Hok); try done; [lia|].
    destruct (decrLoop_refines (S (length env)) env (numNonResidentItems ht))
      as (r' & Hr' & Hspec); try done; [lia|].
    assert (r' = r) as -> by congruence.
    unfold decrCounter. rewrite Hr. simpl. eexists _, _. split; [done|].
    split_and!; done.
  - intros ht' r. rewrite (Halone _ Hi). simpl. intros [= <- <-].
    destruct (Z.eqb_spec (numItems ht) 0) as [Hz|]; simpl; done.
  - intros ht' r. rewrite (Halone _ Ht). simpl. intros [= <- <-].
    destruct (Z.eqb_spec (numTotalItems ht) 0) as [Hz|]; simpl; done.
  - intros ht' r. rewrite (Halone _ Hn). simpl. intros [= <- <-].
    destruct (Z.eqb_spec (numNonResidentItems ht) 0) as [Hz|]; simpl; done.
Qed.

Lemma env_race_size_t : env_size_t env_race.
Proof.
  intros v Hv. unfold env_race in Hv.
  apply elem_of_cons in Hv as [Hv|Hv]; [discriminate|].
  apply elem_of_cons in Hv as [Hv|Hv].
  - injection Hv as ->. unfold is_size_t. lia.
  - by apply elem_of_nil in Hv.
Defined.

Lemma decr_counters_no_underflow_witness :
  is_size_t (numItems ht_small) /\ is_size_t (numTotalItems ht_small) /\
  is_size_t (numNonResidentItems ht_small) /\ env_size_t env_race /\
  exists ht' r,
    decrNumItems env_race ht_small = Some (ht', r) /\
    numItems ht' = cell_after r /\ decrOutcomeOk r /\
    decrSpec env_race (numItems ht_small) r /\
    ht' = set_numItems ht_small (cell_after r).
Proof.
  assert (is_size_t (numItems ht_small)) as H1
    by (unfold is_size_t; simpl; lia).
  assert (is_size_t (numTotalItems ht_small)) as H2
    by (unfold is_size_t; simpl; lia).
  assert (is_size_t (numNonResidentItems ht_small)) as H3
    by (unfold is_size_t; simpl; lia).
  split_and!; [exact H1 | exact H2 | exact H3 | exact env_race_size_t |].
  exact (proj1 (decr_counters_no_underflow env_race ht_small H1 H2 H3
                  env_race_size_t)).
Defined.

(** The race the loop is there for: the last item goes away between the
    load and the exchange; the exchange fails, the loop loads 0, logs and
    leaves the counter at 0. *)
Example decrNumItems_race :
  decrNumItems env_race ht_small
  = Some (set_numItems ht_small 0, mkDecrResult 0 None true).
Proof. reflexivity. Qed.

(** A retry: the others bring the counter from 3 to 5 between the load
    and the exchange; the exchange fails, the next turn loads 5 and
    leaves 4. *)
Example decrNumNonResidentItems_retry :
  decrNumNonResidentItems [None; Some 5%Z] ht_small
  = Some (set_numNonResidentItems ht_small 4,
          mkDecrResult 4 (Some (5, 4)%Z) false).
Proof. reflexivity. Qed.

Example decrNumNonResidentItems_alone :
  decrNumNonResidentItems [] ht_small
  = Some (set_numNonResidentItems ht_small 2,
          mkDecrResult 2 (Some (3, 2)%Z) false).
Proof. reflexivity. Qed.

(** *** Bucket locks *)

Lemma envSteps_n_locks (l : list EnvAction) (ht : HashTable) :
  n_locks (envSteps l ht) = n_locks ht.
Proof.
  unfold envSteps. revert ht. induction l as [|a l IH]; intros ht; [done|].
  simpl. rewrite IH. by destruct a.
Qed.

Lemma lockLoop_spec (h : Z) (fuel : nat) :
  forall (sched : list TurnEnv) (ht : HashTable),
    length sched < fuel ->
    exists res ht',
      lockLoop fuel h sched ht = Some (res, ht') /\
      n_locks ht' = n_locks ht /\
      match res with
      | inr lk =>
          bucketNum lk = getBucketForHash ht' h /\
          htLock lk = (bucketNum lk mod n_locks ht')%Z
      | inl _ => isActive ht' = false
      end.
Proof.
  induction fuel as [|fuel IH]; intros sched ht Hfuel; [lia|].
  simpl.
  set (turn := match sched with env :: rest => (env, rest)
                           | [] => (quietTurn, []) end).
  assert (length turn.2 <= length sched /\
          (sched = [] -> turn = (quietTurn, [])) /\
          (sched <> [] -> length turn.2 < length sched))
    as (Hlen & Hquiet & Hcons).
  { subst turn. destruct sched; simpl; split_and!; try done; lia. }
  destruct turn as [env sched'] eqn:Hturn. simpl in Hlen, Hcons.
  set (ht1 := envSteps (before_isActive env) ht).
  destruct (isActive ht1) eqn:Hact; simpl.
  - set (ht2 := envSteps (before_getBucket env) ht1).
    set (ht3 := envSteps (before_mutexForBucket env) ht2).
    unfold mutexForBucket.
    destruct (isActive ht3) eqn:Hact3.
    + set (ht4 := envSteps (before_lock env) ht3).
      assert (n_locks ht4 = n_locks ht) as Hn4.
      { subst ht4 ht3 ht2 ht1. by rewrite !envSteps_n_locks. }
      assert (n_locks ht3 = n_locks ht) as Hn3.
      { subst ht3 ht2 ht1. by rewrite !envSteps_n_locks. }
      destruct (Z.eqb_spec (getBucketForHash ht2 h) (getBucketForHash ht4 h))
        as [Heq|Hne].
      * eexists _, _. split; [done|]. simpl.
        split; [done|]. split_and!; try done. congruence.
      * destruct sched as [|env0 rest].
        -- specialize (Hquiet eq_refl). injection Hquiet as -> ->.
           exfalso. apply Hne. done.
        -- destruct (IH sched' ht4) as (res & ht' & Hrun & Hn & Hres).
           { assert (length sched' < length (env0 :: rest)) as Hshort
               by (by apply Hcons).
             simpl in Hfuel, Hshort. lia. }
           exists res, ht'. split; [done|]. split; [congruence|done].
    + eexists _, _. split; [done|]. split; [|done].
      subst ht3 ht2 ht1. by rewrite !envSteps_n_locks.
  - eexists _, _. split; [done|]. split; [|done].
    subst ht1. by rewrite envSteps_n_locks.
Qed.

Lemma envSteps_app (l1 l2 : list EnvAction) (ht : HashTable) :
  envSteps (l1 ++ l2) ht = envSteps l2 (envSteps l1 ht).
Proof. unfold envSteps. by rewrite fold_left_app. Qed.

Lemma envSteps_sizeOk (l : list EnvAction) :
  forall ht : HashTable,
    Forall actionOk l -> sizeOk ht -> sizeOk (envSteps l ht).
Proof.
  unfold envSteps. induction l as [|a l IH]; intros ht Hl Hok; [done|].
  apply Forall_cons in Hl as [Ha Hl]. simpl. apply IH; [done|].
  destruct Hok as [Hsize Hlocks]. by destruct a.
Qed.

Lemma getBucketForHash_range (ht : HashTable) (h : Z) :
  sizeOk ht -> (0 <= getBucketForHash ht h < size ht)%Z.
Proof.
  intros [Hsize _]. unfold getBucketForHash.
  rewrite to_int_small by lia.
  assert (size ht <> 0)%Z as Hnz by lia.
  pose proof (Z.rem_bound_abs h (size ht) Hnz). lia.
Qed.

(** The tables of the turns after the first are those of the rest of the
    schedule, from the table the first turn leaves. *)
Lemma tableAt_cons (env : TurnEnv) (rest : list TurnEnv) (ht : HashTable)
    (k : nat) :
  let ht4 := envSteps (turnActions env) ht in
  tableAtCheck (env :: rest) ht (S k) = tableAtCheck rest ht4 k /\
  tableAtBucket (env :: rest) ht (S k) = tableAtBucket rest ht4 k /\
  tableAtMutex (env :: rest) ht (S k) = tableAtMutex rest ht4 k /\
  tableAtLock (env :: rest) ht (S k) = tableAtLock rest ht4 k.
Proof.
  intros ht4.
  assert (tableAtTurn (env :: rest) ht (S k) = tableAtTurn rest ht4 k)
    as Hturn.
  { unfold tableAtTurn. simpl. by rewrite envSteps_app. }
  unfold tableAtLock, tableAtMutex, tableAtBucket, tableAtCheck.
  by rewrite Hturn.
Qed.

(** The loop does what [lockSpec] says, and the tables it meets are as
    well-formed as the one it starts from. *)
Lemma lockLoop_refines (h : Z) (fuel : nat) :
  forall (sched : list TurnEnv) (ht : HashTable),
    length sched < fuel -> schedOk sched -> sizeOk ht ->
    exists res ht',
      lockLoop fuel h sched ht = Some (res, ht') /\
      lockSpec h sched ht res ht' /\ sizeOk ht'.
Proof.
  induction fuel as [|fuel IH]; intros sched ht Hfuel Hsched Hok; [lia|].
  destruct sched as [|env rest].
  - (* alone: the two computations of the bucket agree *)
    simpl. change (envSteps [] ht) with ht.
    destruct (isActive ht) eqn:Hact; simpl.
    + unfold mutexForBucket. rewrite Hact. rewrite Z.eqb_refl.
      eexists _, _. split; [done|]. split; [|done].
      exists 0. split; [intros i Hi; lia|]. right. right. done.
    + eexists _, _. split; [done|]. split; [|done].
      exists 0. split; [intros i Hi; lia|]. left. done.
  - apply Forall_cons in Hsched as [Henv Hrest].
    unfold turnActions in Henv.
    apply Forall_app in Henv as [H1 Henv].
    apply Forall_app in Henv as [H2 Henv].
    apply Forall_app in Henv as [H3 H4].
    simpl.
    set (ht1 := envSteps (before_isActive env) ht).
    set (ht2 := envSteps (before_getBucket env) ht1).
    set (ht3 := envSteps (before_mutexForBucket env) ht2).
    set (ht4 := envSteps (before_lock env) ht3).
    assert (sizeOk ht1) as Hok1 by (by apply envSteps_sizeOk).
    assert (sizeOk ht2) as Hok2 by (by apply envSteps_sizeOk).
    assert (sizeOk ht3) as Hok3 by (by apply envSteps_sizeOk).
    assert (sizeOk ht4) as Hok4 by (by apply envSteps_sizeOk).
    assert (tableAtCheck (env :: rest) ht 0 = ht1) as Hc0 by done.
    assert (tableAtBucket (env :: rest) ht 0 = ht2) as Hb0 by done.
    assert (tableAtMutex (env :: rest) ht 0 = ht3) as Hm0 by done.
    assert (tableAtLock (env :: rest) ht 0 = ht4) as Hl0 by done.
    assert (n_locks ht4 = n_locks ht3) as Hn.
    { subst ht4. by rewrite envSteps_n_locks. }
    destruct (isActive ht1) eqn:Hact1; simpl.
    + unfold mutexForBucket. destruct (isActive ht3) eqn:Hact3.
      * destruct (Z.eqb_spec (getBucketForHash ht2 h)
                             (getBucketForHash ht4 h)) as [Heq|Hne].
        -- eexists _, _. split; [done|]. split; [|done].
           exists 0. split; [intros i Hi; lia|]. right. right.
           rewrite Hc0, Hb0, Hm0, Hl0, Hn, <- Heq. done.
        -- destruct (IH rest ht4) as (res & ht' & Hrun & Hspec & Hok');
             [simpl in Hfuel; lia|done|done|].
           exists res, ht'. split; [done|]. split; [|done].
           destruct Hspec as (k & Hbefore & Hat).
           assert (envSteps (turnActions env) ht = ht4) as Hturn.
           { unfold turnActions. by rewrite !envSteps_app. }
           destruct (tableAt_cons env rest ht k) as (Hck & Hbk & Hmk & Hlk).
           rewrite Hturn in Hck, Hbk, Hmk, Hlk.
           exists (S k). split.
           ++ intros [|i] Hi.
              ** rewrite Hc0, Hb0, Hm0, Hl0. done.
              ** destruct (tableAt_cons env rest ht i)
                   as (Hci & Hbi & Hmi & Hli).
                 rewrite Hturn in Hci, Hbi, Hmi, Hli.
                 rewrite Hci, Hbi, Hmi, Hli. apply Hbefore. lia.
           ++ rewrite Hck, Hbk, Hmk, Hlk. done.
      * eexists _, _. split; [done|]. split; [|done].
        exists 0. split; [intros i Hi; lia|]. right. left.
        rewrite Hc0, Hm0. done.
    + eexists _, _. split; [done|]. split; [|done].
      exists 0. split; [intros i Hi; lia|]. left. rewrite Hc0. done.
Qed.

(** C10: on a table with buckets and locks, getLockedBucketForHash
    returns or throws, whatever resizes the other threads fit in before it
    holds a mutex.  It is the loop of [lockSpec]: it retries exactly when
    a resize has changed the bucket of h between the computation made
    before the lock and the one made with the mutex held, and the table
    it ends with is the table the others have left at that moment.  When
    it returns, the bucket of the lock is getBucketForHash(h) for the
    size the table has at that time, a bucket of that table, and the
    mutex held is the stripe of that bucket.  It throws a logic error
    when it finds the table not active, and only then. *)
Theorem getLockedBucketForHash_current (h : Z) (sched : list TurnEnv)
    (ht : HashTable) :
  sizeOk ht -> schedOk sched ->
  exists res ht',
    getLockedBucketForHash h sched ht = Some (res, ht') /\
    (forall lk, res = inr lk ->
       bucketNum lk = getBucketForHash ht' h /\
       htLock lk = (getBucketForHash ht' h mod n_locks ht')%Z) /\
    (forall e, res = inl e -> isActive ht' = false) /\
    (isActive (envSteps (before_isActive (hd quietTurn sched)) ht) = false ->
       res = inl logic_error) /\
    lockSpec h sched ht res ht' /\
    (forall lk, res = inr lk ->
       (0 <= bucketNum lk < size ht')%Z /\
       (0 <= htLock lk < n_locks ht')%Z).
Proof.
  intros Hok Hsched.
  destruct (lockLoop_spec h (S (length sched)) sched ht (Nat.lt_succ_diag_r _))
    as (res & ht' & Hrun & _ & Hres).
  destruct (lockLoop_refines h (S (length sched)) sched ht
              (Nat.lt_succ_diag_r _) Hsched Hok)
    as (res2 & ht2 & Hrun2 & Hspec & Hok').
  rewrite Hrun in Hrun2. injection Hrun2 as <- <-.
  exists res, ht'. split; [done|]. split_and!.
  - intros lk ->. destruct Hres as (Hb & Hm). by rewrite <- Hb.
  - by intros e ->.
  - intros Hinactive. unfold getLockedBucketForHash in Hrun. simpl in Hrun.
    destruct sched as [|env rest]; simpl in *; rewrite Hinactive in Hrun;
      simpl in Hrun; congruence.
  - done.
  - intros lk ->. destruct Hres as (Hb & Hm).
    pose proof (getBucketForHash_range _ h Hok') as Hrange.
    destruct Hok' as [Hsize Hlocks].
    rewrite Hm, Hb. split; [done|]. by apply Z.mod_pos_bound.
Qed.

Lemma getLockedBucketForHash_current_witness :
  sizeOk ht_small /\ schedOk resizeWhileWaiting /\
  exists res ht',
    getLockedBucketForHash 13 resizeWhileWaiting ht_small = Some (res, ht') /\
    lockSpec 13 resizeWhileWaiting ht_small res ht'.
Proof.
  assert (sizeOk ht_small) as Hok by (split; simpl; lia).
  assert (schedOk resizeWhileWaiting) as Hsched.
  { repeat constructor; simpl; lia. }
  split; [exact Hok|]. split; [exact Hsched|].
  destruct (getLockedBucketForHash_current 13 resizeWhileWaiting ht_small
              Hok Hsched) as (res & ht' & Hrun & _ & _ & _ & Hspec & _).
  exists res, ht'. split; [exact Hrun|exact Hspec].
Defined.

Example getLockedBucketForHash_resized :
  getLockedBucketForHash 13 resizeWhileWaiting ht_small
  = Some (inr (mkHashBucketLock 1 1), envStep (Resize 3) ht_small).
Proof. reflexivity. Qed.

Example getLockedBucketForHash_inactive :
  getLockedBucketForHash 13 [] (envStep (SetActiveState false) ht_small)
  = Some (inl logic_error, envStep (SetActiveState false) ht_small).
Proof. reflexivity. Qed.

(** *** Hash chains *)

(** Induction along a chain. *)
Lemma chain_ind (P : StoredValue -> Prop) :
  (forall k s, P (mkStoredValue k s None)) ->
  (forall k s nx, P nx -> P (mkStoredValue k s (Some nx))) ->
  forall v, P v.
Proof.
  intros Hlast Hlink. fix IH 1. intros [k s [nx|]].
  - apply Hlink, IH.
  - apply Hlast.
Qed.

(** [spec_removeFirst] finds the first element that satisfies p and takes out
    that one element. *)
Lemma spec_removeFirst_found {A} (p : A -> bool) (l : list A) (x : A)
    (rest : list A) :
  spec_removeFirst p l = (Some x, rest) ->
  exists l1 l2,
    l = l1 ++ x :: l2 /\ rest = l1 ++ l2 /\ p x = true /\
    forall y, y ∈ l1 -> p y = false.
Proof.
  revert rest. induction l as [|a l IH]; intros rest Hrm; simpl in Hrm.
  - done.
  - destruct (p a) eqn:Hpa.
    + injection Hrm as -> ->. exists [], rest. split_and!; try done.
      intros y Hy. by apply elem_of_nil in Hy.
    + destruct (spec_removeFirst p l) as [found rest'] eqn:Hl.
      injection Hrm as -> <-.
      destruct (IH rest' eq_refl) as (l1 & l2 & -> & -> & Hpx & Hl1).
      exists (a :: l1), l2. split_and!; try done.
      intros y [->|Hy]%elem_of_cons; [done|by apply Hl1].
Qed.

Lemma spec_removeFirst_none {A} (p : A -> bool) (l : list A) (rest : list A) :
  spec_removeFirst p l = (None, rest) ->
  rest = l /\ forall y, y ∈ l -> p y = false.
Proof.
  revert rest. induction l as [|a l IH]; intros rest Hrm; simpl in Hrm.
  - injection Hrm as <-. split; [done|].
    intros y Hy. by apply elem_of_nil in Hy.
  - destruct (p a) eqn:Hpa; [done|].
    destruct (spec_removeFirst p l) as [found rest'] eqn:Hl.
    injection Hrm as -> <-.
    destruct (IH rest' eq_refl) as (-> & Hall). split; [done|].
    intros y [->|Hy]%elem_of_cons; [done|by apply Hall].
Qed.

Lemma elements_contents (k : N) (s : Z) (n : UniquePtr) :
  map content (elements (mkStoredValue k s n))
  = (k, s) :: chainContents n.
Proof. by destruct n. Qed.

(** The loop, from the element [curr] on, does to the rest of the chain
    what [spec_removeFirst] does to the list of its elements. *)
Lemma removeAfter_spec (p : StoredValue -> bool) (curr : StoredValue) :
  let out := removeAfter p curr in
  let spec := spec_removeFirst p (chainElements (next curr)) in
  out.2 = detach <$> spec.1 /\
  chainContents (next out.1) = map content spec.2 /\
  content out.1 = content curr /\
  (spec.1 = None -> out = (curr, None)).
Proof.
  induction curr as [k s|k s nx IH] using chain_ind; [done|].
  simpl. destruct nx as [k' s' n'] eqn:Hnx. rewrite <- Hnx in *.
  assert (elements nx = nx :: chainElements (next nx)) as Hel.
  { subst nx. by destruct n'. }
  rewrite Hel. simpl.
  destruct (p nx) eqn:Hp; simpl.
  - split_and!; done.
  - simpl in IH.
    destruct (removeAfter p nx) as [nx' removed].
    destruct (spec_removeFirst p (chainElements (next nx))) as [found rest].
    simpl in *. destruct IH as (Hrem & Hrest & Hcont & Hnone).
    split_and!; try done.
    + destruct nx' as [k2 s2 n2].
      unfold chainContents at 1, chainElements. rewrite elements_contents.
      simpl in Hrest. rewrite Hrest. unfold content in Hcont. simpl in Hcont.
      by rewrite Hcont.
    + intros Hf. specialize (Hnone Hf). by injection Hnone as -> ->.
Qed.


Example hashChainRemoveFirst_middle :
  hashChainRemoveFirst (hasKey 2) chain123
  = Some (Some (mkStoredValue 2 20 None),
          Some (mkStoredValue 1 10 (Some (mkStoredValue 3 30 None)))).
Proof. reflexivity. Qed.

Example hashChainRemoveFirst_head :
  hashChainRemoveFirst (hasKey 1) chain123
  = Some (Some (mkStoredValue 1 10 None),
          Some (mkStoredValue 2 20 (Some (mkStoredValue 3 30 None)))).
Proof. reflexivity. Qed.

Example hashChainRemoveFirst_absent :
  hashChainRemoveFirst (hasKey 7) chain123 = Some (None, chain123).
Proof. reflexivity. Qed.

(** *** Further properties of the table *)

(** X12: on an active table with at least one bucket (fewer than 2^31) and
    one lock, every hash, negative or not, gets a bucket of the table, a
    hash and its opposite get the same one, and the mutex of a bucket is
    one of the n_locks mutexes; mutexForBucket throws on a table that is
    not active. *)
Theorem bucket_and_mutex_in_range (ht : HashTable) (h : Z) :
  (0 < size ht < 2 ^ 31)%Z -> (0 < n_locks ht)%Z ->
  (0 <= getBucketForHash ht h < size ht)%Z /\
  getBucketForHash ht (- h) = getBucketForHash ht h /\
  (isActive ht = true ->
     exists m, mutexForBucket ht (getBucketForHash ht h) = inr m /\
               (0 <= m < n_locks ht)%Z) /\
  (isActive ht = false ->
     mutexForBucket ht (getBucketForHash ht h) = inl logic_error).
Proof.
  intros Hsize Hlocks. unfold getBucketForHash, mutexForBucket.
  rewrite to_int_small by lia.
  pose proof (Z.rem_bound_abs h (size ht) ltac:(lia)) as Hrem.
  split; [lia|]. split; [|split].
  - rewrite Z.rem_opp_l by lia. apply Z.abs_opp.
  - intros ->. eexists. split; [done|]. by apply Z.mod_pos_bound.
  - by intros ->.
Qed.

Lemma bucket_and_mutex_in_range_witness :
  (0 < size ht_small < 2 ^ 31)%Z /\ (0 < n_locks ht_small)%Z /\
  (0 <= getBucketForHash ht_small (-13) < size ht_small)%Z.
Proof.
  assert (0 < size ht_small < 2 ^ 31)%Z as Hsize by (simpl; lia).
  assert (0 < n_locks ht_small)%Z as Hlocks by (simpl; lia).
  split; [exact Hsize|]. split; [exact Hlocks|].
  exact (proj1 (bucket_and_mutex_in_range ht_small (-13) Hsize Hlocks)).
Defined.

Lemma visitAll_snoc (calls : list (Z * Z * Z)) (c : Z * Z * Z) :
  DepthStat.visitAll (calls ++ [c])
  = DepthStat.visit (DepthStat.visitAll calls) c.1.1 c.1.2 c.2.
Proof. unfold DepthStat.visitAll. by rewrite fold_left_app. Qed.

Lemma sumZ_snoc (l : list Z) (x : Z) :
  DepthStat.sumZ (l ++ [x]) = (DepthStat.sumZ l + x)%Z.
Proof.
  unfold DepthStat.sumZ. induction l as [|a l IH]; simpl; [lia|].
  rewrite IH. lia.
Qed.

(** X13: after visitDepth has reported the buckets, none of them with a
    negative depth, the visitor holds the least and the greatest depth
    reported (both are depths of buckets, and the -1 that min starts with
    is gone as soon as one bucket is reported), and size and memUsed are
    the sums of the depths and of the memory, modulo 2^64. *)
Theorem depthStat_min_max (calls : list (Z * Z * Z)) :
  (forall d, d ∈ DepthStat.depths calls -> (0 <= d)%Z) ->
  let v := DepthStat.visitAll calls in
  DepthStat.size v = size_t_wrap (DepthStat.sumZ (DepthStat.depths calls)) /\
  DepthStat.memUsed v = size_t_wrap (DepthStat.sumZ (DepthStat.mems calls)) /\
  (calls = [] -> DepthStat.min v = (-1)%Z /\ DepthStat.max v = 0%Z) /\
  (calls <> [] ->
     DepthStat.min v ∈ DepthStat.depths calls /\
     DepthStat.max v ∈ DepthStat.depths calls /\
     forall d, d ∈ DepthStat.depths calls ->
               (DepthStat.min v <= d <= DepthStat.max v)%Z).
Proof.
  induction calls as [|c calls IH] using rev_ind; intros Hpos v; subst v.
  - simpl. split_and!; try done.
  - rewrite visitAll_snoc. unfold DepthStat.depths, DepthStat.mems in *.
    rewrite !map_app in *. simpl map in *. rewrite !sumZ_snoc.
    destruct IH as (Hsize & Hmem & Hnil & Hcons).
    { intros d Hd. apply Hpos. apply elem_of_app. by left. }
    assert (0 <= c.1.2)%Z as Hc.
    { apply Hpos. apply elem_of_app. right. by left. }
    unfold DepthStat.visit. simpl. rewrite Hsize, Hmem.
    unfold size_t_wrap.
    split; [by rewrite Zplus_mod_idemp_l|].
    split; [by rewrite Zplus_mod_idemp_l|].
    split; [by destruct calls|]. intros _.
    destruct calls as [|c0 calls0] eqn:Hcalls.
    + destruct (Hnil eq_refl) as [-> ->]. simpl.
      rewrite Z.min_id, Z.max_r by lia.
      split; [by left|]. split; [by left|].
      intros d [->|Hd]%elem_of_cons; [lia|by apply elem_of_nil in Hd].
    + rewrite <- Hcalls in *.
      destruct Hcons as (Hmin & Hmax & Hall); [by rewrite Hcalls|].
      assert (DepthStat.min (DepthStat.visitAll calls) <> (-1))%Z as Hne.
      { intros Heq. rewrite Heq in Hmin.
        specialize (Hpos (-1)%Z). rewrite elem_of_app in Hpos.
        specialize (Hpos (or_introl Hmin)). lia. }
      apply Z.eqb_neq in Hne. rewrite Hne.
      split; [|split].
      * destruct (Z.min_spec (DepthStat.min (DepthStat.visitAll calls)) c.1.2)
          as [[_ ->]|[_ ->]]; rewrite elem_of_app, list_elem_of_singleton; auto.
      * destruct (Z.max_spec (DepthStat.max (DepthStat.visitAll calls)) c.1.2)
          as [[_ ->]|[_ ->]]; rewrite elem_of_app, list_elem_of_singleton; auto.
      * intros d [Hd|Hd]%elem_of_app.
        -- specialize (Hall d Hd). lia.
        -- apply list_elem_of_singleton in Hd as ->. lia.
Qed.

Lemma depthStat_min_max_witness :
  (forall d, d ∈ DepthStat.depths [(0, 2, 64); (1, 0, 0); (2, 5, 160)]%Z ->
             (0 <= d)%Z) /\
  DepthStat.min (DepthStat.visitAll [(0, 2, 64); (1, 0, 0); (2, 5, 160)]%Z)
  ∈ DepthStat.depths [(0, 2, 64); (1, 0, 0); (2, 5, 160)]%Z.
Proof.
  assert (forall d,
            d ∈ DepthStat.depths [(0, 2, 64); (1, 0, 0); (2, 5, 160)]%Z ->
            (0 <= d)%Z) as Hpos.
  { intros d Hd. simpl in Hd.
    repeat (apply elem_of_cons in Hd as [->|Hd]; [lia|]).
    by apply elem_of_nil in Hd. }
  split; [exact Hpos|].
  destruct (depthStat_min_max _ Hpos) as (_ & _ & _ & Hcons).
  exact (proj1 (Hcons ltac:(discriminate))).
Defined.

Example depthStat_run :
  DepthStat.visitAll [(0, 2, 64); (1, 0, 0); (2, 5, 160)]%Z
  = DepthStat.mkVisitor 7 224 0 5.
Proof. reflexivity. Qed.

(** hashChainRemoveFirst on the list of the elements of the chain. *)
Lemma hashChainRemoveFirst_list (p : StoredValue -> bool)
    (head : StoredValue) :
  exists chain',
    hashChainRemoveFirst p (Some head)
    = Some ((detach <$> (spec_removeFirst p (elements head)).1), chain') /\
    chainContents chain'
    = map content (spec_removeFirst p (elements head)).2 /\
    ((spec_removeFirst p (elements head)).1 = None -> chain' = Some head).
Proof.
  assert (elements head = head :: chainElements (next head)) as Hel.
  { destruct head as [k s [n|]]; done. }
  rewrite Hel. simpl. destruct (p head) eqn:Hp.
  - eexists. split; [done|]. simpl. split; done.
  - pose proof (removeAfter_spec p head) as Hloop. simpl in Hloop.
    destruct (removeAfter p head) as [head' removed].
    destruct (spec_removeFirst p (chainElements (next head)))
      as [found rest].
    simpl in *. destruct Hloop as (-> & Hrest & Hcont & Hnone).
    eexists. split; [done|]. split.
    + destruct head' as [k2 s2 n2].
      unfold chainContents at 1, chainElements. rewrite elements_contents.
      simpl in Hrest. rewrite Hrest.
      unfold content in Hcont. simpl in Hcont. by rewrite Hcont.
    + intros Hf. specialize (Hnone Hf). by injection Hnone as ->.
Qed.

Lemma chainKeys_contents (chain : UniquePtr) :
  chainKeys chain = map fst (chainContents chain).
Proof.
  unfold chainKeys, chainContents. rewrite map_map. done.
Qed.

(** X14: in a chain where no key occurs twice, hashChainRemoveFirst with
    the predicate "has key k" takes the key out of the chain: afterwards k
    is not a key of the chain; when k was a key, the element returned has
    key k and the chain has the other keys, in their order; when it was
    not, null is returned and the chain is as before. *)
Theorem hashChainRemoveFirst_by_key (k : N) (head : StoredValue) :
  NoDup (chainKeys (Some head)) ->
  exists removed chain',
    hashChainRemoveFirst (hasKey k) (Some head) = Some (removed, chain') /\
    (k ∉ chainKeys chain') /\
    (k ∈ chainKeys (Some head) ->
       (exists r, removed = Some r /\ getKey r = k /\ next r = None) /\
       chainKeys chain' = filter (fun k' => k' <> k) (chainKeys (Some head))) /\
    (k ∉ chainKeys (Some head) -> removed = None /\ chain' = Some head).
Proof.
  intros Hnodup.
  destruct (hashChainRemoveFirst_list (hasKey k) head)
    as (chain' & Hrun & Hcont & Hnone).
  exists (detach <$> (spec_removeFirst (hasKey k) (elements head)).1), chain'.
  split; [done|].
  rewrite (chainKeys_contents chain'), Hcont, map_map.
  unfold chainKeys in *. simpl chainElements in *.
  assert (forall y, hasKey k y = true <-> getKey y = k) as Hkey.
  { intros y. unfold hasKey. by rewrite bool_decide_eq_true. }
  destruct (spec_removeFirst (hasKey k) (elements head)) as [[x|] rest] eqn:Hspec.
  - apply spec_removeFirst_found in Hspec
      as (l1 & l2 & Hel & -> & Hx%Hkey & Hl1).
    rewrite Hel in Hnodup |- *. simpl.
    rewrite map_app in Hnodup |- *. simpl in Hnodup.
    apply NoDup_app in Hnodup as (Hn1 & Hdisj & Hn2).
    apply NoDup_cons in Hn2 as [Hnotin2 Hn2]. rewrite Hx in *.
    assert (k ∉ map getKey l1) as Hnotin1.
    { intros Hin. apply (Hdisj k Hin). by left. }
    assert (forall l, k ∉ map getKey l ->
              filter (fun k' => k' <> k) (map getKey l) = map getKey l)
      as Hfilter.
    { intros l Hl. apply TaskQueueFacts.filter_all. intros y Hy ->. done. }
    split; [|split].
    + intros [Hin|Hin]%elem_of_app; [by apply Hnotin1|by apply Hnotin2].
    + intros _. split.
      * exists (detach x). split; [done|]. by destruct x.
      * rewrite (map_app getKey l1), filter_app. simpl map.
        rewrite filter_cons_False by (rewrite Hx; intros Hne; by apply Hne).
        by rewrite !Hfilter.
    + intros Hnotin. exfalso. apply Hnotin.
      rewrite (map_app getKey l1), elem_of_app. right. simpl map.
      rewrite Hx. by left.
  - apply spec_removeFirst_none in Hspec as (-> & Hall).
    assert (k ∉ map getKey (elements head)) as Hnotin.
    { intros (y & Hy & Hin)%list_elem_of_fmap.
      specialize (Hall y Hin). symmetry in Hy. apply Hkey in Hy. congruence. }
    simpl. split; [done|]. split; [done|].
    intros _. split; [done|]. by apply Hnone.
Qed.

Lemma hashChainRemoveFirst_by_key_witness :
  NoDup (chainKeys chain123) /\
  exists removed chain',
    hashChainRemoveFirst (hasKey 2) chain123 = Some (removed, chain') /\
    2%N ∉ chainKeys chain'.
Proof.
  assert (NoDup (chainKeys chain123)) as Hnodup.
  { unfold chainKeys. simpl. apply NoDup_ListNoDup.
    repeat constructor; simpl; intuition discriminate. }
  split; [exact Hnodup|].
  destruct (hashChainRemoveFirst_by_key 2 _ Hnodup)
    as (removed & chain' & Hrun & Hgone & _).
  exists removed, chain'. split; [exact Hrun | exact Hgone].
Defined.

End HashTableFacts.

(** ** BgFetcher *)

Module BgFetcherFacts.
Import BgFetcher.

Lemma bg_vbs_of_perm (s : gset N) : bg_vbs_of s ≡ₚ elements s.
Proof. apply merge_sort_Permutation. Qed.

Lemma bg_vbs_of_elem (s : gset N) (v : N) : v ∈ bg_vbs_of s <-> v ∈ s.
Proof. rewrite bg_vbs_of_perm. apply elem_of_elements. Qed.

Lemma bg_vbs_of_NoDup (s : gset N) : NoDup (bg_vbs_of s).
Proof. rewrite bg_vbs_of_perm. apply NoDup_elements. Qed.

(** The snapshot is walked in ascending order of the vbucket ids. *)
Lemma bg_vbs_of_sorted (s : gset N) : Sorted N.le (bg_vbs_of s).
Proof. apply Sorted_merge_sort. apply _. Qed.

Lemma doFetch_events (vbId v : VBid) (items items' : vb_bgfetch_queue_t) :
  getMulti v items' ∈ (doFetch vbId items).2 -> v = vbId.
Proof.
  unfold doFetch. simpl. intros [Hhd|Htl]%elem_of_cons.
  - by injection Hhd.
  - destruct (0 <? _); [|by apply elem_of_nil in Htl].
    apply elem_of_cons in Htl as [Hc|Htl]; [done|].
    by apply elem_of_nil in Htl.
Qed.

(** What the loop keeps true of a vbucket [v] that is being created. *)
Lemma visit_keeps (v : VBid) (vb : VBucket) (st : RunState) (vbId : VBid) :
  shard st !! v = Some vb -> isBucketCreation vb = true ->
  let st' := visit st vbId in
  shard st' !! v = Some vb /\
  (forall items,
     getMulti v items ∈ events st' -> getMulti v items ∈ events st) /\
  (v ∈ pendingVbs (fetcher st) -> v ∈ pendingVbs (fetcher st')) /\
  (pendingFetch (fetcher st) = true -> pendingFetch (fetcher st') = true) /\
  (vbId = v ->
     v ∈ pendingVbs (fetcher st') /\ pendingFetch (fetcher st') = true).
Proof.
  intros Hv Hcreation. unfold visit.
  destruct (decide (vbId = v)) as [->|Hne].
  - rewrite Hv, Hcreation. simpl. split_and!; try done; set_solver.
  - destruct (shard st !! vbId) as [vb'|] eqn:Hvb; [|done].
    destruct (isBucketCreation vb').
    + simpl. split_and!; try done. set_solver.
    + simpl. destruct (0 <? length (bgFetchQueue vb')).
      * destruct (doFetch vbId (bgFetchQueue vb')) as [n evs] eqn:Hfetch.
        simpl. rewrite lookup_insert_ne by done.
        split_and!; try done.
        intros items [Hin|Hin]%elem_of_app; [done|].
        assert (evs = (doFetch vbId (bgFetchQueue vb')).2) as ->
          by (by rewrite Hfetch).
        apply doFetch_events in Hin. done.
      * simpl. rewrite lookup_insert_ne by done. done.
Qed.

Lemma loop_keeps (v : VBid) (vb : VBucket) (bg_vbs : list VBid) :
  forall st : RunState,
    shard st !! v = Some vb -> isBucketCreation vb = true ->
    let st' := fold_left visit bg_vbs st in
    shard st' !! v = Some vb /\
    (forall items,
       getMulti v items ∈ events st' -> getMulti v items ∈ events st) /\
    (v ∈ pendingVbs (fetcher st) -> v ∈ pendingVbs (fetcher st')) /\
    (pendingFetch (fetcher st) = true -> pendingFetch (fetcher st') = true) /\
    (v ∈ bg_vbs ->
       v ∈ pendingVbs (fetcher st') /\ pendingFetch (fetcher st') = true).
Proof.
  induction bg_vbs as [|vbId rest IH]; intros st Hv Hcreation.
  - simpl. split_and!; try done. intros Hin. by apply elem_of_nil in Hin.
  - simpl.
    destruct (visit_keeps v vb st vbId Hv Hcreation)
      as (Hv1 & Hev1 & Hpend1 & Hflag1 & Hhere).
    destruct (IH (visit st vbId) Hv1 Hcreation)
      as (Hv2 & Hev2 & Hpend2 & Hflag2 & Hrest).
    split_and!; try done.
    + intros items Hin. by apply Hev1, Hev2.
    + intros Hin. by apply Hpend2, Hpend1.
    + intros Hflag. by apply Hflag2, Hflag1.
    + intros [->|Hin]%elem_of_cons.
      * destruct (Hhere eq_refl) as [Hp Hf].
        split; [by apply Hpend2|by apply Hflag2].
      * by apply Hrest.
Qed.

(** C8: in a pass of run(), a pending vbucket whose file is not created
    yet is inserted into pendingVbs again, pendingFetch is set again, and
    no getMulti is issued for it. *)
Theorem run_requeues_bucket_creation (arrived : bool) (f : BgFetcher)
    (sh : KVShard) (v : VBid) (vb : VBucket) :
  v ∈ pendingVbs f ->
  sh !! v = Some vb ->
  isBucketCreation vb = true ->
  let st := run arrived f sh in
  v ∈ pendingVbs (fetcher st) /\
  pendingFetch (fetcher st) = true /\
  (forall items, getMulti v items ∉ events st) /\
  shard st !! v = Some vb.
Proof.
  intros Hpending Hv Hcreation st. subst st. unfold run. simpl.
  set (st0 := mkRunState _ sh 0 []).
  destruct (loop_keeps v vb (bg_vbs_of (pendingVbs f)) st0 Hv Hcreation)
    as (Hv' & Hev & _ & _ & Hin).
  destruct Hin as [Hp Hf]; [by apply bg_vbs_of_elem|].
  rewrite Hf. simpl. split_and!; try done.
  intros items Hget. apply Hev in Hget. by apply elem_of_nil in Hget.
Qed.

Lemma run_requeues_bucket_creation_witness :
  3%N ∈ pendingVbs fetcher35 /\
  shard35 !! 3%N = Some (mkVBucket true [(7%N, [1%N])]) /\
  3%N ∈ pendingVbs (fetcher (run false fetcher35 shard35)) /\
  pendingFetch (fetcher (run false fetcher35 shard35)) = true /\
  (forall items, getMulti 3%N items ∉ events (run false fetcher35 shard35)).
Proof.
  assert (3%N ∈ pendingVbs fetcher35) as Hin.
  { unfold fetcher35. simpl. apply elem_of_union. left.
    by apply elem_of_singleton. }
  assert (shard35 !! 3%N = Some (mkVBucket true [(7%N, [1%N])])) as Hv
    by (vm_compute; reflexivity).
  destruct (run_requeues_bucket_creation false fetcher35 shard35 3%N _
              Hin Hv eq_refl) as (Hp & Hf & Hev & _).
  split_and!; [exact Hin | exact Hv | exact Hp | exact Hf | exact Hev].
Defined.

(** *** Further properties of the fetcher *)

Lemma visit_creating (st : RunState) (vbId v : VBid) :
  creating (shard (visit st vbId)) v <-> creating (shard st) v.
Proof.
  unfold visit. destruct (shard st !! vbId) as [vb|] eqn:Hvb; [|done].
  destruct (isBucketCreation vb) eqn:Hc; [done|]. simpl.
  assert (forall sh' : gmap N VBucket,
            sh' = <[vbId:=mkVBucket false []]> (shard st) ->
            (creating sh' v <-> creating (shard st) v)) as Hsame.
  { intros sh' ->. unfold creating.
    destruct (decide (vbId = v)) as [->|Hne].
    - rewrite lookup_insert_eq, Hvb. split.
      + intros (vb' & [= <-] & Hc'). done.
      + intros (vb' & [= <-] & Hc'). congruence.
    - by rewrite lookup_insert_ne. }
  rewrite Hc.
  destruct (0 <? length (bgFetchQueue vb)); simpl.
  - destruct (doFetch vbId (bgFetchQueue vb)) as [n evs]. by apply Hsame.
  - by apply Hsame.
Qed.

Lemma visit_fetch (st : RunState) (vbId : VBid) (vb : VBucket) :
  shard st !! vbId = Some vb -> isBucketCreation vb = false ->
  fetcher (visit st vbId) = fetcher st /\
  shard (visit st vbId)
  = <[vbId := mkVBucket false []]> (shard st) /\
  events (visit st vbId)
  = events st ++ (if 0 <? length (bgFetchQueue vb)
                  then (doFetch vbId (bgFetchQueue vb)).2 else []) /\
  num_fetched_items (visit st vbId)
  = num_fetched_items st
    + (if 0 <? length (bgFetchQueue vb)
       then (doFetch vbId (bgFetchQueue vb)).1 else 0).
Proof.
  intros Hvb Hc. unfold visit. rewrite Hvb, Hc. simpl. rewrite Hc.
  destruct (0 <? length (bgFetchQueue vb)).
  - destruct (doFetch vbId (bgFetchQueue vb)) as [n evs]. done.
  - simpl. by rewrite app_nil_r, Nat.add_0_r.
Qed.

Lemma visit_requeue (st : RunState) (vbId : VBid) (vb : VBucket) :
  shard st !! vbId = Some vb -> isBucketCreation vb = true ->
  visit st vbId
  = mkRunState (mkBgFetcher true ({[vbId]} ∪ pendingVbs (fetcher st))
                            (numRemainingBgItems (fetcher st)))
               (shard st) (num_fetched_items st) (events st).
Proof. intros Hvb Hc. unfold visit. by rewrite Hvb, Hc. Qed.

Lemma visit_missing (st : RunState) (vbId : VBid) :
  shard st !! vbId = None -> visit st vbId = st.
Proof. intros Hvb. unfold visit. by rewrite Hvb. Qed.

Lemma visit_pendingVbs (st : RunState) (vbId v : VBid) :
  v ∈ pendingVbs (fetcher (visit st vbId)) <->
  v ∈ pendingVbs (fetcher st) \/ (v = vbId /\ creating (shard st) vbId).
Proof.
  unfold creating.
  destruct (shard st !! vbId) as [vb|] eqn:Hvb.
  - destruct (isBucketCreation vb) eqn:Hc.
    + rewrite (visit_requeue st vbId vb Hvb Hc). simpl.
      rewrite elem_of_union, elem_of_singleton. split; [|tauto].
      intros [->|Hin]; [|tauto]. right. eauto.
    + destruct (visit_fetch st vbId vb Hvb Hc) as (-> & _).
      split; [tauto|].
      intros [Hin|(_ & vb' & [= <-] & Hc')]; [done|congruence].
  - rewrite (visit_missing st vbId Hvb).
    split; [tauto|]. intros [Hin|(_ & vb' & Hvb' & _)]; [done|congruence].
Qed.

Lemma visit_pendingFetch (st : RunState) (vbId : VBid) :
  pendingFetch (fetcher (visit st vbId)) = true <->
  pendingFetch (fetcher st) = true \/ creating (shard st) vbId.
Proof.
  unfold creating.
  destruct (shard st !! vbId) as [vb|] eqn:Hvb.
  - destruct (isBucketCreation vb) eqn:Hc.
    + rewrite (visit_requeue st vbId vb Hvb Hc). simpl.
      split; [|done]. intros _. right. eauto.
    + destruct (visit_fetch st vbId vb Hvb Hc) as (-> & _).
      split; [tauto|].
      intros [Hin|(vb' & [= <-] & Hc')]; [done|congruence].
  - rewrite (visit_missing st vbId Hvb).
    split; [tauto|]. intros [Hin|(vb' & Hvb' & _)]; [done|congruence].
Qed.

Lemma visit_events (st : RunState) (vbId : VBid) (e : Event) :
  e ∈ events (visit st vbId) ->
  e ∈ events st \/
  exists vb, shard st !! vbId = Some vb /\ isBucketCreation vb = false /\
             bgFetchQueue vb <> [] /\ e ∈ (doFetch vbId (bgFetchQueue vb)).2.
Proof.
  destruct (shard st !! vbId) as [vb|] eqn:Hvb.
  - destruct (isBucketCreation vb) eqn:Hc.
    + rewrite (visit_requeue st vbId vb Hvb Hc). simpl. tauto.
    + destruct (visit_fetch st vbId vb Hvb Hc) as (_ & _ & -> & _).
      intros [Hin|Hin]%elem_of_app; [tauto|]. right.
      destruct (bgFetchQueue vb) as [|kv rest] eqn:Hq; simpl in Hin.
      * by apply elem_of_nil in Hin.
      * exists vb. rewrite Hq. done.
  - rewrite (visit_missing st vbId Hvb). tauto.
Qed.

Lemma visit_events_mono (st : RunState) (vbId : VBid) (e : Event) :
  e ∈ events st -> e ∈ events (visit st vbId).
Proof.
  intros Hin. destruct (shard st !! vbId) as [vb|] eqn:Hvb.
  - destruct (isBucketCreation vb) eqn:Hc.
    + by rewrite (visit_requeue st vbId vb Hvb Hc).
    + destruct (visit_fetch st vbId vb Hvb Hc) as (_ & _ & -> & _).
      apply elem_of_app. by left.
  - by rewrite (visit_missing st vbId Hvb).
Qed.

Lemma loop_events (bg_vbs : list VBid) :
  forall (st : RunState) (e : Event),
    e ∈ events (fold_left visit bg_vbs st) ->
    e ∈ events st \/ e <> snoozeDelay /\ e <> snoozeZero.
Proof.
  induction bg_vbs as [|vbId rest IH]; intros st e; simpl; [tauto|].
  intros [Hin|Hne]%IH; [|tauto].
  apply visit_events in Hin as [Hin|(vb & _ & _ & _ & Hin)]; [tauto|].
  right. unfold doFetch in Hin. simpl in Hin.
  apply elem_of_cons in Hin as [->|Hin]; [done|].
  destruct (0 <? _); [|by apply elem_of_nil in Hin].
  apply list_elem_of_singleton in Hin as ->. done.
Qed.

Lemma visit_shard_other (st : RunState) (vbId v : VBid) :
  v <> vbId -> shard (visit st vbId) !! v = shard st !! v.
Proof.
  intros Hne. destruct (shard st !! vbId) as [vb|] eqn:Hvb.
  - destruct (isBucketCreation vb) eqn:Hc.
    + by rewrite (visit_requeue st vbId vb Hvb Hc).
    + destruct (visit_fetch st vbId vb Hvb Hc) as (_ & -> & _).
      by rewrite lookup_insert_ne.
  - by rewrite (visit_missing st vbId Hvb).
Qed.

Lemma doFetch_getMulti (vbId v : VBid) (q items : vb_bgfetch_queue_t) :
  getMulti v items ∈ (doFetch vbId q).2 -> v = vbId /\ items = q.
Proof.
  unfold doFetch. simpl. intros [[= -> ->]|Hin]%elem_of_cons; [done|].
  destruct (0 <? sum_list _); [|by apply elem_of_nil in Hin].
  by apply list_elem_of_singleton in Hin.
Qed.






(** X19: after a pass of run(), the next notifyBGEvent() calls
    ExecutorPool::wake exactly when the pass has put the task to sleep for
    the interval and has not snoozed it again for 0 seconds: a notification
    is never lost on a sleeping task, and never wakes one that is about to
    run anyway. *)
Theorem run_then_notifyBGEvent (arrived : bool) (f : BgFetcher)
    (sh : gmap N VBucket) :
  let st := run arrived f sh in
  (notifyBGEvent (fetcher st)).1 = true <->
  snoozeDelay ∈ events st /\ (snoozeZero ∉ events st).
Proof.
  intros st. subst st. unfold run, notifyBGEvent. simpl.
  set (st := fold_left visit _ _).
  assert (forall e, e ∈ events st -> e <> snoozeDelay /\ e <> snoozeZero)
    as Hev.
  { intros e [Hin|Hne]%loop_events; [|done]. by apply elem_of_nil in Hin. }
  destruct (pendingFetch (fetcher st)); simpl.
  - split; [done|]. intros [Hin%Hev _]. tauto.
  - destruct arrived; simpl.
    + split; [done|]. intros [_ Hno]. destruct Hno.
      apply elem_of_app. right. right. by left.
    + split; [|done]. intros _. split.
      * apply elem_of_app. right. by left.
      * intros [Hin%Hev|Hin]%elem_of_app; [tauto|].
        by apply list_elem_of_singleton in Hin.
Qed.

(** *** run() among the other threads *)

Lemma others_pendingVbs (l : list OtherThread) :
  forall (f : BgFetcher) (v : VBid),
    v ∈ pendingVbs (fold_left otherStep l f) <->
    v ∈ pendingVbs f \/ otherInserts v ∈ l.
Proof.
  induction l as [|a l IH]; intros f v; simpl.
  - split; [by left|]. intros [H|H]; [done|by apply elem_of_nil in H].
  - rewrite IH, elem_of_cons. destruct a as [|w]; simpl.
    + assert (pendingVbs (notifyBGEvent f).2 = pendingVbs f) as ->.
      { unfold notifyBGEvent. by destruct (pendingFetch f). }
      split.
      * intros [H|H]; [by left|right; by right].
      * intros [H|[H|H]]; [by left|discriminate|by right].
    + rewrite elem_of_union, elem_of_singleton. split.
      * intros [[->|H]|H]; [right; by left|by left|right; by right].
      * intros [H|[[= ->]|H]]; [left; by right|left; by left|by right].
Qed.

Lemma others_pendingFetch (l : list OtherThread) :
  forall f : BgFetcher,
    pendingFetch (fold_left otherStep l f) = true <->
    pendingFetch f = true \/ otherNotifies ∈ l.
Proof.
  induction l as [|a l IH]; intros f; simpl.
  - split; [by left|]. intros [H|H]; [done|by apply elem_of_nil in H].
  - rewrite IH, elem_of_cons. destruct a as [|w]; simpl.
    + assert (pendingFetch (notifyBGEvent f).2 = true) as ->.
      { unfold notifyBGEvent. by destruct (pendingFetch f). }
      split; [intros _; right; by left|intros _; by left].
    + split.
      * intros [H|H]; [by left|right; by right].
      * intros [H|[H|H]]; [by left|discriminate|by right].
Qed.

(** The snapshot does not depend on the flag nor on the counter. *)
Lemma others_pendingVbs_same (l : list OtherThread) :
  forall f g : BgFetcher,
    pendingVbs f = pendingVbs g ->
    pendingVbs (fold_left otherStep l f)
    = pendingVbs (fold_left otherStep l g).
Proof.
  induction l as [|a l IH]; intros f g Hfg; simpl; [done|].
  apply IH. destruct a as [|w]; simpl.
  - unfold notifyBGEvent. by destruct (pendingFetch f), (pendingFetch g).
  - by rewrite Hfg.
Qed.

Lemma loopAmong_alone (bg_vbs : list VBid) :
  forall (i : nat) (st : RunState),
    loopAmong (fun _ => []) i bg_vbs st = fold_left visit bg_vbs st.
Proof.
  induction bg_vbs as [|vbId rest IH]; intros i st; simpl; [done|].
  rewrite IH. by destruct st.
Qed.

(** With no other thread at work, [runAmong] is [run]. *)
Lemma runAmong_alone (f : BgFetcher) (sh : gmap N VBucket) :
  runAmong alone f sh = run false f sh.
Proof.
  unfold runAmong, run, alone. simpl. rewrite loopAmong_alone.
  set (st := fold_left visit _ _).
  by destruct (pendingFetch (fetcher st)).
Qed.

Lemma loopAmong_pendingVbs (slots : nat -> list OtherThread)
    (bg_vbs : list VBid) :
  forall (i : nat) (st : RunState) (v : VBid),
    v ∈ pendingVbs (fetcher (loopAmong slots i bg_vbs st)) <->
    v ∈ pendingVbs (fetcher st) \/
    (v ∈ bg_vbs /\ creating (shard st) v) \/
    otherInserts v ∈ concat (map slots (seq i (length bg_vbs))).
Proof.
  induction bg_vbs as [|vbId rest IH]; intros i st v; simpl.
  - split; [by left|].
    intros [H|[[H _]|H]]; [done|by apply elem_of_nil in H
                           |by apply elem_of_nil in H].
  - rewrite IH, visit_pendingVbs, visit_creating. simpl.
    rewrite others_pendingVbs, elem_of_app, elem_of_cons. split.
    + intros [[[H|H]|[-> H]]|[[H1 H2]|H]]; [tauto|tauto| |tauto|tauto].
      right. left. split; [by left|done].
    + intros [H|[[[->|H1] H2]|[H|H]]]; tauto.
Qed.

Lemma loopAmong_pendingFetch (slots : nat -> list OtherThread)
    (bg_vbs : list VBid) :
  forall (i : nat) (st : RunState),
    pendingFetch (fetcher (loopAmong slots i bg_vbs st)) = true <->
    pendingFetch (fetcher st) = true \/
    (exists v, v ∈ bg_vbs /\ creating (shard st) v) \/
    otherNotifies ∈ concat (map slots (seq i (length bg_vbs))).
Proof.
  induction bg_vbs as [|vbId rest IH]; intros i st; simpl.
  - split; [by left|].
    intros [H|[(v & H & _)|H]]; [done|by apply elem_of_nil in H
                                 |by apply elem_of_nil in H].
  - rewrite IH, visit_pendingFetch. simpl.
    rewrite others_pendingFetch, elem_of_app. split.
    + intros [[[H|H]|H]|[(v & Hv & Hc)|H]]; try tauto.
      * right. left. exists vbId. split; [by left|done].
      * right. left. exists v. split; [by right|].
        by apply visit_creating in Hc.
    + intros [H|[(v & [->|Hv]%elem_of_cons & Hc)|[H|H]]]; try tauto.
      right. left. exists v. split; [done|]. by apply visit_creating.
Qed.

Lemma loopAmong_events (slots : nat -> list OtherThread)
    (bg_vbs : list VBid) :
  forall (i : nat) (st : RunState) (e : Event),
    e ∈ events (loopAmong slots i bg_vbs st) ->
    e ∈ events st \/ e <> snoozeDelay /\ e <> snoozeZero.
Proof.
  induction bg_vbs as [|vbId rest IH]; intros i st e; simpl; [tauto|].
  intros [Hin|Hne]%IH; [|tauto].
  apply visit_events in Hin as [Hin|(vb & _ & _ & _ & Hin)]; [tauto|].
  right. unfold doFetch in Hin. simpl in Hin.
  apply elem_of_cons in Hin as [->|Hin]; [done|].
  destruct (0 <? _); [|by apply elem_of_nil in Hin].
  apply list_elem_of_singleton in Hin as ->. done.
Qed.

Lemma batchesFor_doFetch (v vbId : VBid) (q : vb_bgfetch_queue_t) :
  batchesFor v (doFetch vbId q).2 = if decide (vbId = v) then [q] else [].
Proof.
  unfold doFetch, batchesFor. simpl.
  destruct (0 <? _); simpl; by destruct (decide (vbId = v)).
Qed.

Lemma visit_batches_other (v : VBid) (st : RunState) (vbId : VBid) :
  vbId <> v -> batchesFor v (events (visit st vbId)) = batchesFor v (events st).
Proof.
  intros Hne. destruct (shard st !! vbId) as [vb|] eqn:Hvb.
  - destruct (isBucketCreation vb) eqn:Hc.
    + by rewrite (visit_requeue st vbId vb Hvb Hc).
    + destruct (visit_fetch st vbId vb Hvb Hc) as (_ & _ & -> & _).
      unfold batchesFor at 1. rewrite omap_app. fold (batchesFor v (events st)).
      destruct (0 <? _).
      * fold (batchesFor v (doFetch vbId (bgFetchQueue vb)).2).
        rewrite batchesFor_doFetch, decide_False by done.
        by rewrite app_nil_r.
      * simpl. by rewrite app_nil_r.
  - by rewrite (visit_missing st vbId Hvb).
Qed.

Lemma visit_batches_here (v : VBid) (st : RunState) (vb : VBucket) :
  shard st !! v = Some vb -> isBucketCreation vb = false ->
  batchesFor v (events (visit st v))
  = batchesFor v (events st)
    ++ match bgFetchQueue vb with [] => [] | _ :: _ => [bgFetchQueue vb] end.
Proof.
  intros Hvb Hc.
  destruct (visit_fetch st v vb Hvb Hc) as (_ & _ & -> & _).
  unfold batchesFor at 1. rewrite omap_app. fold (batchesFor v (events st)).
  f_equal. destruct (bgFetchQueue vb) as [|kv q] eqn:Hq; [done|].
  change (0 <? length (kv :: q)) with true. cbv iota.
  fold (batchesFor v (doFetch v (kv :: q)).2).
  by rewrite batchesFor_doFetch, decide_True.
Qed.

Lemma loopAmong_batches (v : VBid) (slots : nat -> list OtherThread)
    (bg_vbs : list VBid) :
  forall (i : nat) (st : RunState) (vb : VBucket),
    NoDup bg_vbs ->
    shard st !! v = Some vb -> isBucketCreation vb = false ->
    let st' := loopAmong slots i bg_vbs st in
    (v ∉ bg_vbs ->
       shard st' !! v = Some vb /\
       batchesFor v (events st') = batchesFor v (events st)) /\
    (v ∈ bg_vbs ->
       shard st' !! v = Some (mkVBucket false []) /\
       batchesFor v (events st')
       = batchesFor v (events st)
         ++ match bgFetchQueue vb with
            | [] => []
            | _ :: _ => [bgFetchQueue vb]
            end).
Proof.
  induction bg_vbs as [|vbId rest IH]; intros i st vb Hnd Hvb Hc; simpl.
  - split; [done|]. by intros ?%elem_of_nil.
  - apply NoDup_cons in Hnd as [Hnotin Hnd].
    set (st0 := others (slots i) st).
    assert (shard st0 !! v = Some vb) as Hvb0 by done.
    destruct (decide (vbId = v)) as [->|Hne].
    + split; [intros Hno; destruct Hno; by left|]. intros _.
      destruct (visit_fetch st0 v vb Hvb0 Hc) as (_ & Hsh & _).
      assert (shard (visit st0 v) !! v = Some (mkVBucket false [])) as Hvb1.
      { rewrite Hsh. by rewrite lookup_insert_eq. }
      destruct (IH (S i) (visit st0 v) _ Hnd Hvb1 eq_refl) as [Hout _].
      destruct (Hout Hnotin) as [Hsh' Hb']. split; [done|].
      rewrite Hb'. by rewrite (visit_batches_here v st0 vb Hvb0 Hc).
    + assert (shard (visit st0 vbId) !! v = Some vb) as Hvb1.
      { by rewrite visit_shard_other. }
      destruct (IH (S i) (visit st0 vbId) vb Hnd Hvb1 Hc) as [Hout Hin].
      rewrite (visit_batches_other v st0 vbId Hne) in Hout, Hin.
      split.
      * intros Hno. apply Hout. intros Hr. apply Hno. by right.
      * intros [->|Hr]%elem_of_cons; [done|]. by apply Hin.
Qed.

(** The state of run() when it loads pendingFetch. *)
Lemma runAmong_cases (il : Interleaving) (f : BgFetcher)
    (sh : gmap N VBucket) :
  let f0 := fold_left otherStep (beforeSnapshot il)
              (mkBgFetcher false (pendingVbs f) (numRemainingBgItems f)) in
  let st0 := mkRunState (mkBgFetcher (pendingFetch f0) ∅
                                     (numRemainingBgItems f0)) sh 0 [] in
  let lp := others (beforeLoad il)
              (loopAmong (beforeVisit il) 0
                 (bg_vbs_of (snapshotOf il f)) st0) in
  let st := runAmong il f sh in
  shard st = shard lp /\
  ((pendingFetch (fetcher lp) = true /\
    events st = events lp /\ pendingVbs (fetcher st) = pendingVbs (fetcher lp)
    /\ pendingFetch (fetcher st) = true) \/
   (pendingFetch (fetcher lp) = false /\
    events st
    = events lp
      ++ snoozeDelay :: (if pendingFetch (fetcher st) then [snoozeZero]
                         else []) /\
    (forall v, v ∈ pendingVbs (fetcher st) <->
               v ∈ pendingVbs (fetcher lp) \/
               otherInserts v ∈ duringSnooze il) /\
    (pendingFetch (fetcher st) = true <-> otherNotifies ∈ duringSnooze il))).
Proof.
  intros f0 st0 lp st. subst st. unfold runAmong.
  assert (pendingVbs f0 = snapshotOf il f) as Hsnap.
  { subst f0. unfold snapshotOf. by apply others_pendingVbs_same. }
  fold f0. rewrite Hsnap. fold st0. fold lp. clearbody lp. simpl.
  destruct (pendingFetch (fetcher lp)) eqn:Hflag; simpl.
  - split; [done|]. left. done.
  - split; [done|]. right. split; [done|]. split; [done|]. split.
    + intros v. by rewrite others_pendingVbs.
    + rewrite others_pendingFetch. simpl. split.
      * intros [H|H]; [done|done].
      * intros H. by right.
Qed.

Lemma runAmong_at_load (il : Interleaving) (f : BgFetcher)
    (sh : gmap N VBucket) :
  let f0 := fold_left otherStep (beforeSnapshot il)
              (mkBgFetcher false (pendingVbs f) (numRemainingBgItems f)) in
  let st0 := mkRunState (mkBgFetcher (pendingFetch f0) ∅
                                     (numRemainingBgItems f0)) sh 0 [] in
  let lp := others (beforeLoad il)
              (loopAmong (beforeVisit il) 0
                 (bg_vbs_of (snapshotOf il f)) st0) in
  let n := length (bg_vbs_of (snapshotOf il f)) in
  (forall v, v ∈ pendingVbs (fetcher lp) <->
             (v ∈ snapshotOf il f /\ creating sh v) \/
             otherInserts v ∈ duringLoop il n) /\
  (pendingFetch (fetcher lp) = true <->
     (exists v, v ∈ snapshotOf il f /\ creating sh v) \/
     otherNotifies ∈ beforeSnapshot il ++ duringLoop il n) /\
  (forall e, e ∈ events lp -> e <> snoozeDelay /\ e <> snoozeZero).
Proof.
  intros f0 st0 lp n. subst lp n. unfold duringLoop. split; [|split].
  - intros v. simpl. rewrite others_pendingVbs, loopAmong_pendingVbs.
    simpl. rewrite bg_vbs_of_elem, elem_of_app, elem_of_empty. tauto.
  - simpl. rewrite others_pendingFetch, loopAmong_pendingFetch. simpl.
    subst f0. rewrite others_pendingFetch. simpl.
    rewrite !elem_of_app. split.
    + intros [[[H|H]|[(v & Hv%bg_vbs_of_elem & Hc)|H]]|H];
        [done|tauto|eauto|tauto|tauto].
    + intros [(v & Hv & Hc)|[H|[H|H]]]; [|tauto..].
      left. right. left. exists v. by rewrite bg_vbs_of_elem.
  - intros e. simpl. intros [Hin|Hne]%loopAmong_events; [|done].
    by apply elem_of_nil in Hin.
Qed.

(** X15: after a pass of run(), pendingVbs holds the vbuckets of the
    snapshot whose file is not created yet, and the vbuckets that the
    other threads have inserted since the snapshot (those inserted during
    the snooze count when the pass snoozes), and no other: every
    vbucket of the snapshot that was fetched, empty or missing from the
    shard is gone from it unless it was inserted again.  The snapshot is
    what was pending at the call and what was inserted before it was
    taken. *)
Theorem run_pendingVbs (il : Interleaving) (f : BgFetcher)
    (sh : gmap N VBucket) (v : VBid) :
  let st := runAmong il f sh in
  let n := length (bg_vbs_of (snapshotOf il f)) in
  (v ∈ snapshotOf il f <->
     v ∈ pendingVbs f \/ otherInserts v ∈ beforeSnapshot il) /\
  (v ∈ pendingVbs (fetcher st) <->
     (v ∈ snapshotOf il f /\ creating sh v) \/
     otherInserts v ∈ duringLoop il n \/
     (snoozeDelay ∈ events st /\ otherInserts v ∈ duringSnooze il)).
Proof.
  intros st n. split; [apply others_pendingVbs|].
  destruct (runAmong_at_load il f sh) as (Hvbs & _ & Hev).
  destruct (runAmong_cases il f sh) as (_ & Hcases).
  fold st in Hcases. fold n in Hvbs.
  destruct Hcases as [(_ & Hevs & Hp & _)|(_ & Hevs & Hp & _)].
  - rewrite Hp, Hvbs, Hevs. split; [tauto|].
    intros [H|[H|[Hin%Hev _]]]; tauto.
  - rewrite Hp, Hvbs, Hevs. split.
    + intros [[H|H]|H]; [tauto|tauto|]. right. right. split; [|done].
      apply elem_of_app. right. by left.
    + tauto.
Qed.

(** X16: run() puts its task to sleep exactly when pendingFetch is still
    clear at the load that follows the loop: when it has requeued no
    vbucket and no notifyBGEvent() has come since it cleared the flag.  It
    snoozes a second time, for 0 seconds, exactly when a notification
    comes between that load and the next; and pendingFetch is true at the
    end exactly when a vbucket was requeued or a notification came at any
    of these moments. *)
Theorem run_snoozes (il : Interleaving) (f : BgFetcher)
    (sh : gmap N VBucket) :
  let st := runAmong il f sh in
  let n := length (bg_vbs_of (snapshotOf il f)) in
  let requeued := exists v, v ∈ snapshotOf il f /\ creating sh v in
  let notified := otherNotifies ∈ beforeSnapshot il ++ duringLoop il n in
  (snoozeDelay ∈ events st <-> ~ requeued /\ ~ notified) /\
  (snoozeZero ∈ events st <->
     ~ requeued /\ ~ notified /\ otherNotifies ∈ duringSnooze il) /\
  (pendingFetch (fetcher st) = true <->
     requeued \/ notified \/ otherNotifies ∈ duringSnooze il).
Proof.
  intros st n requeued notified.
  destruct (runAmong_at_load il f sh) as (_ & Hflag & Hev).
  destruct (runAmong_cases il f sh) as (_ & Hcases).
  fold st in Hcases. fold n requeued notified in Hflag.
  destruct Hcases as [(Hset & Hevs & _ & Hend)|(Hclear & Hevs & _ & Hend)].
  - apply Hflag in Hset. rewrite Hevs. split; [|split].
    + split; [intros Hin%Hev|]; tauto.
    + split; [intros Hin%Hev|]; tauto.
    + tauto.
  - assert (~ requeued /\ ~ notified) as [Hnr Hnn].
    { split; intros H; [assert (requeued \/ notified) as Hor by tauto
                       |assert (requeued \/ notified) as Hor by tauto];
        apply Hflag in Hor; congruence. }
    rewrite Hevs. split; [|split].
    + split; [done|]. intros _. apply elem_of_app. right. by left.
    + rewrite <- Hend. split.
      * intros [Hin%Hev|Hin]%elem_of_app; [tauto|].
        apply elem_of_cons in Hin as [Hin|Hin]; [done|].
        destruct (pendingFetch (fetcher st)); [done|].
        by apply elem_of_nil in Hin.
      * intros (_ & _ & ->). apply elem_of_app. right. right. by left.
    + rewrite Hend. tauto.
Qed.

(** X17: for a vbucket of the snapshot whose file exists, a pass of run()
    calls getMulti exactly once when its fetch queue is not empty, with
    the whole queue, and not at all when the queue is empty; the queue of
    the vbucket is left empty in the shard.  This holds whatever the other
    threads do to the fetcher meanwhile. *)
Theorem run_fetches_queue (il : Interleaving) (f : BgFetcher)
    (sh : gmap N VBucket) (v : VBid) (vb : VBucket) :
  v ∈ snapshotOf il f -> sh !! v = Some vb -> isBucketCreation vb = false ->
  let st := runAmong il f sh in
  shard st !! v = Some (mkVBucket false []) /\
  batchesFor v (events st)
  = match bgFetchQueue vb with
    | [] => []
    | _ :: _ => [bgFetchQueue vb]
    end.
Proof.
  intros Hv Hvb Hc st.
  destruct (runAmong_cases il f sh) as (Hsh & Hcases). fold st in Hsh, Hcases.
  set (f0 := fold_left otherStep (beforeSnapshot il)
               (mkBgFetcher false (pendingVbs f) (numRemainingBgItems f)))
    in *.
  set (st0 := mkRunState _ sh 0 []) in *.
  destruct (loopAmong_batches v (beforeVisit il)
              (bg_vbs_of (snapshotOf il f)) 0 st0 vb
              (bg_vbs_of_NoDup _) Hvb Hc) as [_ Hin].
  destruct (Hin (proj2 (bg_vbs_of_elem _ _) Hv)) as [Hshard Hbatches].
  split; [by rewrite Hsh|].
  assert (batchesFor v (events st)
          = batchesFor v (events (loopAmong (beforeVisit il) 0
                                    (bg_vbs_of (snapshotOf il f)) st0)))
    as ->; [|exact Hbatches].
  destruct Hcases as [(_ & -> & _)|(_ & -> & _)]; [done|].
  unfold batchesFor. rewrite omap_app. simpl.
  destruct (pendingFetch (fetcher st)); simpl; by rewrite app_nil_r.
Qed.

Lemma run_fetches_queue_witness :
  shard (runAmong duringSecondTurn fetcher35 shard35) !! 5%N
  = Some (mkVBucket false []) /\
  batchesFor 5%N (events (runAmong duringSecondTurn fetcher35 shard35))
  = [[(8%N, [2%N; 3%N]); (9%N, [4%N])]].
Proof.
  assert (5%N ∈ snapshotOf duringSecondTurn fetcher35) as Hv.
  { change (5%N ∈ ({[3%N; 5%N]} : gset N)).
    apply elem_of_union. right. by apply elem_of_singleton. }
  assert (shard35 !! 5%N
          = Some (mkVBucket false [(8%N, [2%N; 3%N]); (9%N, [4%N])])) as Hvb.
  { by vm_compute. }
  exact (run_fetches_queue duringSecondTurn fetcher35 shard35 5%N _
           Hv Hvb eq_refl).
Defined.

(** The pass of the example among the others: vbucket 3 is requeued,
    vbucket 7 is there because it was inserted during the loop, vbucket 5
    is gone, and the task is not put to sleep. *)
Example runAmong_duringSecondTurn :
  let st := runAmong duringSecondTurn fetcher35 shard35 in
  bg_vbs_of (pendingVbs (fetcher st)) = [3%N; 7%N] /\
  pendingFetch (fetcher st) = true /\
  events st = [getMulti 5%N [(8%N, [2%N; 3%N]); (9%N, [4%N])];
               completeBGFetchMulti 5%N 3].
Proof. by vm_compute. Qed.

End BgFetcherFacts.

(** ** arenamanager.cc *)

Module ArenaManagerFacts.
Import ArenaManager.

Lemma inUseAt_setArena (m : ArenaManager) (i j : N) (st : ArenaState) :
  (N.to_nat i < length (arenas m))%nat ->
  inUseAt (setArena m i st) j
  = if decide (j = i) then inUse st else inUseAt m j.
Proof.
  intros Hlt. unfold inUseAt, setArena. simpl.
  destruct (decide (j = i)) as [->|Hne].
  - by rewrite list_lookup_insert_eq.
  - rewrite list_lookup_insert_ne; [done|]. lia.
Qed.

Lemma createTimeAt_setArena (m : ArenaManager) (i j : N) (st : ArenaState) :
  (N.to_nat i < length (arenas m))%nat ->
  createTimeAt (setArena m i st) j
  = if decide (j = i) then createTime st else createTimeAt m j.
Proof.
  intros Hlt. unfold createTimeAt, setArena. simpl.
  destruct (decide (j = i)) as [->|Hne].
  - by rewrite list_lookup_insert_eq.
  - rewrite list_lookup_insert_ne; [done|]. lia.
Qed.

Lemma allocateArena_loop_spec (newArenaIdx : N) (now : Z) (m : ArenaManager)
    (n : nat) :
  forall arenaId : N,
    (n <> 0%nat -> (N.to_nat arenaId + n <= length (arenas m))%nat) ->
    loop_post arenaId n newArenaIdx now m
              (allocateArena_loop n arenaId newArenaIdx now m).
Proof.
  induction n as [|n IH]; intros arenaId Hlen; simpl.
  - split; [done|]. intros j Hj. lia.
  - specialize (Hlen (Nat.neq_succ_0 n)).
    destruct (arenas m !! N.to_nat arenaId) as [state|] eqn:Hst.
    2: { apply lookup_ge_None in Hst. lia. }
    assert (inUseAt m arenaId = inUse state) as Huse.
    { unfold inUseAt. by rewrite Hst. }
    assert (createTimeAt m arenaId = createTime state) as Htime.
    { unfold createTimeAt. by rewrite Hst. }
    destruct (inUse state) eqn:Hin.
    + assert (n <> 0%nat ->
              (N.to_nat (arenaId + 1) + n <= length (arenas m))%nat) as Hlen'
        by lia.
      specialize (IH (arenaId + 1)%N Hlen').
      assert (forall j b : N, (arenaId <= j < b)%N ->
                (forall j, (arenaId + 1 <= j < b)%N -> inUseAt m j = true) ->
                inUseAt m j = true) as Hext.
      { intros j b Hj Hall. destruct (decide (j = arenaId)) as [->|Hne];
          [done|]. apply Hall. lia. }
      destruct (allocateArena_loop n (arenaId + 1) newArenaIdx now m)
        as [[id|[a b|]|] m']; simpl in IH |- *.
      * destruct IH as (Hr & Hfree & Hnew & Hbusy & ->).
        split; [lia|]. split; [done|]. split; [done|]. split; [|done].
        intros j Hj. by apply (Hext j id).
      * destruct IH as (-> & -> & Hne & Hr & Hfree & Hzero & Hbusy).
        split; [done|]. split; [done|]. split; [done|]. split; [lia|].
        split; [done|]. split; [done|]. intros j Hj. by apply (Hext j b).
      * destruct IH as (-> & Hbusy). split; [done|].
        intros j Hj. apply (Hext j (arenaId + 1 + N.of_nat n)%N); [lia|done].
      * done.
    + destruct (createTime state =? 0)%Z eqn:Hz.
      * destruct (newArenaIdx =? arenaId)%N eqn:Hid; simpl.
        -- apply N.eqb_eq in Hid as ->.
           split; [lia|]. split; [done|]. split; [done|].
           split; [intros j Hj; lia|]. by rewrite Htime, Hz.
        -- apply N.eqb_neq in Hid. apply Z.eqb_eq in Hz.
           split; [done|]. split; [done|]. split; [done|]. split; [lia|].
           split; [done|]. split; [congruence|]. intros j Hj. lia.
      * simpl. split; [lia|]. split; [done|].
        apply Z.eqb_neq in Hz. split; [congruence|].
        split; [intros j Hj; lia|]. rewrite Htime.
        destruct (createTime state =? 0)%Z eqn:Hz'; [|done].
        by apply Z.eqb_eq in Hz'.
Qed.

Lemma allocateArena_post (newArenaIdx : N) (now : Z) (m : ArenaManager) :
  isInitialized m = true -> covers m ->
  loop_post (baseSystemArenas m)
            (N.to_nat (numArenas m - baseSystemArenas m)) newArenaIdx now m
            (allocateArena true newArenaIdx now m).
Proof.
  intros Hinit Hcov. unfold allocateArena. rewrite Hinit. simpl.
  apply allocateArena_loop_spec. unfold covers in Hcov. lia.
Qed.

(** X20: allocateArena() on an initialised manager hands out the first id
    from baseSystemArenas up to numArenas that is not in use, and marks
    it; the arena is created (arenas.extend) only the first time the id is
    used, and an allocator that returns another id makes the call throw
    and leaves the table as it was.  It throws as well when every id of
    the range is in use, and it never reads past the table. *)
Theorem allocateArena_first_free (newArenaIdx : N) (now : Z)
    (m : ArenaManager) :
  isInitialized m = true -> covers m ->
  match allocateArena true newArenaIdx now m with
  | (Ret id, m') =>
      (baseSystemArenas m <= id < numArenas m)%N /\
      inUseAt m id = false /\ inUseAt m' id = true /\
      (createTimeAt m id = 0%Z -> newArenaIdx = id) /\
      (forall j, (baseSystemArenas m <= j < id)%N -> inUseAt m j = true) /\
      (forall j, j <> id -> inUseAt m' j = inUseAt m j)
  | (Throw (id_mismatch a b), m') =>
      m' = m /\ a = newArenaIdx /\ a <> b /\
      (baseSystemArenas m <= b < numArenas m)%N /\
      inUseAt m b = false /\ createTimeAt m b = 0%Z /\
      (forall j, (baseSystemArenas m <= j < b)%N -> inUseAt m j = true)
  | (Throw no_free_arena, m') =>
      m' = m /\
      (forall j, (baseSystemArenas m <= j < numArenas m)%N ->
                 inUseAt m j = true)
  | (Undefined, _) => False
  end.
Proof.
  intros Hinit Hcov.
  pose proof (allocateArena_post newArenaIdx now m Hinit Hcov) as Hpost.
  unfold covers in Hcov.
  destruct (allocateArena true newArenaIdx now m) as [[id|[a b|]|] m'];
    simpl in Hpost.
  - destruct Hpost as (Hr & Hfree & Hnew & Hbusy & ->).
    assert (N.to_nat id < length (arenas m))%nat as Hlt by lia.
    split; [lia|]. split; [done|]. split.
    { rewrite inUseAt_setArena by done. by rewrite decide_True. }
    split; [done|]. split; [done|].
    intros j Hj. rewrite inUseAt_setArena by done. by rewrite decide_False.
  - destruct Hpost as (-> & -> & Hne & Hr & Hfree & Hzero & Hbusy).
    split; [done|]. split; [done|]. split; [done|]. split; [lia|]. done.
  - destruct Hpost as (-> & Hbusy). split; [done|].
    intros j Hj. apply Hbusy. lia.
  - done.
Qed.

Lemma allocateArena_first_free_witness :
  let m := initialize (Some 1%N) (ArenaManager_ctor 3) in
  inUseAt m 1 = false /\
  inUseAt (allocateArena true 1 7 m).2 1 = true.
Proof.
  assert (isInitialized (initialize (Some 1%N) (ArenaManager_ctor 3)) = true)
    as Hinit by reflexivity.
  assert (covers (initialize (Some 1%N) (ArenaManager_ctor 3))) as Hcov
    by (vm_compute; lia).
  pose proof (allocateArena_first_free 1 7 _ Hinit Hcov) as Hpost.
  vm_compute in Hpost. destruct Hpost as (_ & Hfree & Hused & _).
  split; [exact Hfree|exact Hused].
Defined.

(** The first id from [first] on that is not in use is unique. *)
Lemma first_free_unique (m : ArenaManager) (first i j : N) :
  (first <= i)%N -> (first <= j)%N ->
  inUseAt m i = false -> inUseAt m j = false ->
  (forall k, (first <= k < i)%N -> inUseAt m k = true) ->
  (forall k, (first <= k < j)%N -> inUseAt m k = true) ->
  i = j.
Proof.
  intros Hi Hj Hfi Hfj Hbi Hbj.
  destruct (N.lt_trichotomy i j) as [Hlt|[->|Hgt]]; [|done|].
  - rewrite Hbj in Hfi by lia. done.
  - rewrite Hbi in Hfj by lia. done.
Qed.

(** X21: an arena that allocateArena() has handed out and that is given
    back with deallocateArena() is the one the next allocateArena() hands
    out, whatever the allocator would answer: it is not created a second
    time, and the table is then as it was after the first allocation. *)
Theorem allocateArena_reuses_freed (newArenaIdx : N) (now : Z)
    (m m1 : ArenaManager) (id : N) :
  isInitialized m = true -> covers m -> now <> 0%Z ->
  allocateArena true newArenaIdx now m = (Ret id, m1) ->
  exists m2,
    deallocateArena id m1 = (Ret true, m2) /\ inUseAt m2 id = false /\
    forall newArenaIdx' now',
      allocateArena true newArenaIdx' now' m2 = (Ret id, m1).
Proof.
  intros Hinit Hcov Hnow Halloc.
  pose proof (allocateArena_post newArenaIdx now m Hinit Hcov) as Hpost.
  rewrite Halloc in Hpost. simpl in Hpost.
  destruct Hpost as (Hr & Hfree & Hnew & Hbusy & ->).
  unfold covers in Hcov.
  assert (N.to_nat id < length (arenas m))%nat as Hlt by lia.
  set (t := if (createTimeAt m id =? 0)%Z then now else createTimeAt m id).
  assert (t <> 0%Z) as Ht.
  { subst t. destruct (createTimeAt m id =? 0)%Z eqn:Hz; [done|].
    by apply Z.eqb_neq in Hz. }
  set (m1 := setArena m id (mkArenaState true t)).
  set (m2 := setArena m id (mkArenaState false t)).
  assert (deallocateArena id m1 = (Ret true, m2)) as Hde.
  { pose proof Hinit as Hi. unfold isInitialized in Hi.
    unfold deallocateArena, isInitialized. subst m1. simpl. rewrite Hi.
    simpl. destruct (numArenas m <=? id)%N eqn:Hle;
      [apply N.leb_le in Hle; lia|].
    rewrite list_lookup_insert_eq by done. simpl.
    unfold m2, setArena. simpl. by rewrite list_insert_insert_eq. }
  exists m2. split; [done|].
  assert (inUseAt m2 id = false) as Hfree2.
  { subst m2. rewrite inUseAt_setArena by done. by rewrite decide_True. }
  split; [done|]. intros idx' now'.
  assert (isInitialized m2 = true) as Hinit2 by done.
  assert (covers m2) as Hcov2.
  { unfold covers, m2, setArena. simpl. rewrite length_insert. lia. }
  assert (forall k, (baseSystemArenas m <= k < id)%N -> inUseAt m2 k = true)
    as Hbusy2.
  { intros k Hk. subst m2. rewrite inUseAt_setArena by done.
    rewrite decide_False by lia. by apply Hbusy. }
  assert (createTimeAt m2 id = t) as Htime2.
  { subst m2. rewrite createTimeAt_setArena by done. by rewrite decide_True. }
  pose proof (allocateArena_post idx' now' m2 Hinit2 Hcov2) as Hpost.
  change (baseSystemArenas m2) with (baseSystemArenas m) in Hpost.
  change (numArenas m2) with (numArenas m) in Hpost.
  destruct (allocateArena true idx' now' m2) as [[id'|[a b|]|] m'];
    simpl in Hpost.
  - destruct Hpost as (Hr' & Hfree' & _ & Hbusy' & ->).
    assert (id' = id) as ->.
    { apply (first_free_unique m2 (baseSystemArenas m)); (done || lia). }
    f_equal. rewrite Htime2.
    destruct (t =? 0)%Z eqn:Hz; [by apply Z.eqb_eq in Hz|].
    unfold m1, m2, setArena. simpl. by rewrite list_insert_insert_eq.
  - destruct Hpost as (_ & _ & _ & Hr' & Hfree' & Hzero & Hbusy').
    assert (b = id) as ->.
    { apply (first_free_unique m2 (baseSystemArenas m)); (done || lia). }
    congruence.
  - destruct Hpost as (_ & Hall). rewrite Hall in Hfree2 by lia. done.
  - done.
Qed.

Lemma allocateArena_reuses_freed_witness :
  exists m2,
    deallocateArena 1
      (mkArenaManager true 3 1
         [mkArenaState true 0; mkArenaState true 7;
          mkArenaState false 0; mkArenaState false 0])
    = (Ret true, m2) /\ inUseAt m2 1 = false.
Proof.
  assert (isInitialized (initialize (Some 1%N) (ArenaManager_ctor 3)) = true)
    as Hinit by reflexivity.
  assert (covers (initialize (Some 1%N) (ArenaManager_ctor 3))) as Hcov
    by (vm_compute; lia).
  assert (7 <> 0)%Z as Hnow by lia.
  destruct (allocateArena_reuses_freed 1 7 _ _ 1 Hinit Hcov Hnow eq_refl)
    as (m2 & Hde & Hfree & _).
  exists m2. split; [exact Hde|exact Hfree].
Defined.

Lemma initialize_fresh (n b : N) :
  (n + b < 2 ^ 31)%N ->
  let m := initialize (Some b) (ArenaManager_ctor n) in
  isInitialized m = true /\ numArenas m = n /\ baseSystemArenas m = b /\
  length (arenas m) = N.to_nat (n + b) /\
  (forall j, (j < n + b)%N ->
             inUseAt m j = (j <? b)%N /\ createTimeAt m j = 0%Z).
Proof.
  intros Hfit31.
  assert (n + b < 2 ^ 32)%N as Hfit.
  { assert (2 ^ 31 < 2 ^ 32)%N by done. lia. }
  simpl. rewrite N.mod_small by done.
  split; [done|]. split; [done|]. split; [done|]. split.
  - unfold initialize. simpl. by rewrite length_imap, length_replicate.
  - intros j Hj. unfold inUseAt, createTimeAt. simpl.
    rewrite ?N.mod_small by done.
    rewrite list_lookup_imap, lookup_replicate_2 by lia. simpl.
    by rewrite N2Nat.id.
Qed.

Lemma initialize_tableOk (hooks : option N) (m : ArenaManager) :
  fits (numArenas m) (Initialize hooks) -> tableOk m ->
  tableOk (initialize hooks m) /\
  numArenas (initialize hooks m) = numArenas m.
Proof.
  intros Hfit Hok. unfold initialize.
  destruct (alloc_hooks m) eqn:Hh; [done|].
  destruct hooks as [narenas|]; [|done].
  destruct (arenas m) as [|a l] eqn:Ha.
  - split; [|done]. right. simpl in *.
    rewrite length_imap, length_replicate, N.mod_small; [done|].
    assert (2 ^ 31 < 2 ^ 32)%N by done. lia.
  - split; [|done]. right.
    destruct Hok as [[Hnil _]|Hlen]; [congruence|].
    rewrite Ha in Hlen. exact Hlen.
Qed.

Lemma tableOk_covers (m : ArenaManager) :
  tableOk m -> isInitialized m = true -> covers m.
Proof.
  unfold covers, isInitialized. intros [[_ Hno]|Hlen] Hinit; [congruence|].
  lia.
Qed.

Lemma setArena_tableOk (m : ArenaManager) (i : N) (st : ArenaState) :
  isInitialized m = true -> tableOk m -> tableOk (setArena m i st).
Proof.
  unfold isInitialized. intros Hinit [[_ Hno]|Hlen]; [congruence|].
  right. unfold setArena. simpl. by rewrite length_insert.
Qed.

Lemma arenaStep_tableOk (m : ArenaManager) (c : ArenaCall) :
  fits (numArenas m) c -> tableOk m ->
  exists m', arenaStep m c = Some m' /\ tableOk m' /\
             numArenas m' = numArenas m.
Proof.
  intros Hfit Hok. destruct c as [hooks| |newArenaIdx now|arenaId]; simpl.
  - exists (initialize hooks m). split; [done|].
    by apply initialize_tableOk.
  - exists (destroy m). split; [done|]. split; [|done].
    destruct Hok as [[Hnil _]|Hlen]; [by left|by right].
  - destruct (isInitialized m) eqn:Hinit.
    + pose proof (allocateArena_post newArenaIdx now m Hinit
                    (tableOk_covers m Hok Hinit)) as Hpost.
      destruct (allocateArena true newArenaIdx now m) as [[id|[a b|]|] m'];
        simpl in Hpost.
      * destruct Hpost as (_ & _ & _ & _ & ->). eexists. split; [done|].
        split; [by apply setArena_tableOk|done].
      * destruct Hpost as (-> & _). by exists m.
      * destruct Hpost as (-> & _). by exists m.
      * done.
    + unfold allocateArena. rewrite Hinit. simpl. by exists m.
  - unfold deallocateArena. destruct (isInitialized m) eqn:Hinit; simpl.
    + destruct (numArenas m <=? arenaId)%N eqn:Hle; [by exists m|].
      apply N.leb_gt in Hle.
      pose proof (tableOk_covers m Hok Hinit) as Hcov. unfold covers in Hcov.
      destruct (arenas m !! N.to_nat arenaId) as [state|] eqn:Hst.
      * eexists. split; [done|]. split; [by apply setArena_tableOk|done].
      * apply lookup_ge_None in Hst. lia.
    + by exists m.
Qed.

(** X22: in every sequence of initialize, destroy, allocateArena and
    deallocateArena calls on a manager built by the constructor, no call
    reads arenas[] past its end, as long as numArenas plus the number of
    arenas the allocator reports stays below 2^31. *)
Theorem arenas_never_out_of_bounds (numArenas_ : N) (cs : list ArenaCall) :
  Forall (fits numArenas_) cs ->
  exists m, arenaRun (ArenaManager_ctor numArenas_) cs = Some m /\
            tableOk m.
Proof.
  intros Hfits.
  assert (forall m, numArenas m = numArenas_ -> tableOk m ->
            exists m', arenaRun m cs = Some m' /\ tableOk m') as Hgen.
  { induction Hfits as [|c cs' Hc Hcs IH]; intros m Hn Hok; simpl.
    - by exists m.
    - rewrite <- Hn in Hc.
      destruct (arenaStep_tableOk m c Hc Hok) as (m' & -> & Hok' & Hn').
      apply IH; [congruence|done]. }
  apply Hgen; [done|]. by left.
Qed.

Lemma arenas_never_out_of_bounds_witness :
  exists m,
    arenaRun (ArenaManager_ctor 3)
      [Initialize (Some 1%N); AllocateArena 1 7; DeallocateArena 1;
       Destroy; Initialize (Some 4%N); AllocateArena 9 8] = Some m /\
    tableOk m.
Proof.
  apply arenas_never_out_of_bounds.
  repeat constructor; vm_compute; done.
Defined.

Lemma allocateArena_next (n b next : N) (now : Z) (m : ArenaManager) :
  handedOut n b next m -> (b <= next < n)%N ->
  exists m', allocateArena true next now m = (Ret next, m') /\
             handedOut n b (next + 1) m'.
Proof.
  intros (Hinit & Hn & Hb & Hcov & Hbusy & Hfresh) Hr.
  pose proof (allocateArena_post next now m Hinit Hcov) as Hpost.
  rewrite Hn, Hb in Hpost.
  destruct (Hfresh next) as [Hfree Hzero]; [lia|].
  destruct (allocateArena true next now m) as [[id|[a c|]|] m'];
    simpl in Hpost.
  - destruct Hpost as (Hr' & Hfree' & _ & Hbusy' & ->).
    assert (id = next) as ->.
    { apply (first_free_unique m b); (done || lia). }
    eexists. split; [done|].
    unfold covers in Hcov.
    assert (N.to_nat next < length (arenas m))%nat as Hlt by lia.
    split; [done|]. split; [done|]. split; [done|]. split.
    { unfold covers, setArena. simpl. rewrite length_insert. lia. }
    split.
    + intros j Hj. rewrite inUseAt_setArena by done.
      destruct (decide (j = next)); [done|]. apply Hbusy. lia.
    + intros j Hj.
      rewrite inUseAt_setArena, createTimeAt_setArena by done.
      rewrite !decide_False by lia. apply Hfresh. lia.
  - destruct Hpost as (_ & -> & Hne & Hr' & Hfree' & _ & Hbusy').
    destruct Hne. apply (first_free_unique m b); (done || lia).
  - destruct Hpost as (_ & Hall). rewrite Hall in Hfree by lia. done.
  - done.
Qed.

Lemma allocateMany_spec (n b : N) (now : Z) (k : nat) :
  forall (next : N) (m : ArenaManager),
    handedOut n b next m -> (b <= next)%N -> (next + N.of_nat k <= n)%N ->
    exists m',
      allocateMany k next now m
      = (map (fun i => Ret (next + N.of_nat i)%N) (seq 0 k), m') /\
      handedOut n b (next + N.of_nat k) m'.
Proof.
  induction k as [|k IH]; intros next m Hm Hb Hk.
  - exists m. split; [done|]. by rewrite N.add_0_r.
  - destruct (allocateArena_next n b next now m Hm) as (m1 & Hal & Hm1);
      [lia|].
    destruct (IH (next + 1)%N m1 Hm1) as (m2 & Hmany & Hm2); [lia..|].
    exists m2. simpl. rewrite Hal, Hmany. split.
    + f_equal. f_equal; [by rewrite N.add_0_r|].
      rewrite <- seq_shift, map_map. apply map_ext. intros i.
      f_equal. lia.
    + by replace (next + N.of_nat (S k))%N
        with (next + 1 + N.of_nat k)%N by lia.
Qed.

(** X23: a manager of numArenas arenas initialised on an allocator that
    reports b arenas (numArenas + b below 2^31, so that the int counter
    of the loops of initialize does not overflow) hands out the ids b,
    b + 1, ... one after the other when the allocator creates them in that
    order, and it has room for numArenas - b of them and no more: the next
    allocateArena() throws, whatever the allocator answers. *)
Theorem allocateArena_capacity (n b : N) (now : Z) :
  (b <= n)%N -> (n + b < 2 ^ 31)%N ->
  let m0 := initialize (Some b) (ArenaManager_ctor n) in
  let k := N.to_nat (n - b) in
  (allocateMany k b now m0).1
  = map (fun i => Ret (b + N.of_nat i)%N) (seq 0 k) /\
  forall newArenaIdx now',
    (allocateArena true newArenaIdx now' (allocateMany k b now m0).2).1
    = Throw no_free_arena.
Proof.
  intros Hb Hfit m0 k.
  destruct (initialize_fresh n b Hfit) as (Hinit & Hn & Hbase & Hlen & Hall).
  fold m0 in Hinit, Hn, Hbase, Hlen, Hall.
  assert (handedOut n b b m0) as Hm0.
  { split; [done|]. split; [done|]. split; [done|]. split.
    - unfold covers. rewrite Hn, Hlen. lia.
    - split; [intros j Hj; lia|]. intros j Hj.
      destruct (Hall j) as [Huse Hzero]; [lia|]. split; [|done].
      rewrite Huse. apply N.ltb_ge. lia. }
  destruct (allocateMany_spec n b now k b m0 Hm0) as (m' & Hmany & Hm');
    [lia|subst k; lia|].
  rewrite Hmany. simpl. split; [done|]. intros idx now'.
  destruct Hm' as (Hinit' & Hn' & Hb' & Hcov' & Hbusy' & _).
  pose proof (allocateArena_post idx now' m' Hinit' Hcov') as Hpost.
  rewrite Hn', Hb' in Hpost.
  assert (forall j, (b <= j < n)%N -> inUseAt m' j = true) as Hfull.
  { intros j Hj. apply Hbusy'. subst k. lia. }
  destruct (allocateArena true idx now' m') as [[id|[a c|]|] m''];
    simpl in Hpost |- *.
  - destruct Hpost as (Hr & Hfree & _). rewrite Hfull in Hfree by lia. done.
  - destruct Hpost as (_ & _ & _ & Hr & Hfree & _).
    rewrite Hfull in Hfree by lia. done.
  - done.
  - done.
Qed.

Lemma allocateArena_capacity_witness :
  (allocateMany 2 1 7 (initialize (Some 1%N) (ArenaManager_ctor 3))).1
  = [Ret 1%N; Ret 2%N].
Proof.
  assert (1 <= 3)%N as Hb by lia.
  assert (3 + 1 < 2 ^ 31)%N as Hfit by (vm_compute; reflexivity).
  destruct (allocateArena_capacity 3 1 7 Hb Hfit) as [Hmany _].
  exact Hmany.
Defined.

End ArenaManagerFacts.
